(** * GEOframePy drainage-network topology: a shallow embedding

    This development embeds [geoframepy/topology/network.py] and proves
    properties of its operations.  The module works on [networkx.DiGraph]
    objects; the part of networkx that the module calls (graph construction,
    induced subgraphs, breadth-first search, Kahn's topological sort, the tree
    test) is modelled here as pure functions over graph values, and the
    functions of [network.py] are state-and-error computations over a store
    of Python objects, so that aliasing (a graph or a dict mutated through a
    reference) is visible. *)

From Stdlib Require Import ZArith Lia Ascii String.
From stdpp Require Import base tactics option list strings pretty gmap sorting.

Set Warnings "-clear-no-such-hyp".

Local Open Scope Z_scope.


(** ** Python values used by the module *)

(** A node identifier is a hashable Python value.  The loader produces
    [str] tokens; the docstrings build graphs over [int]s.  Python never
    identifies an [int] with a [str], so the two are distinct constructors. *)
Inductive node : Type :=
  | NInt (z : Z)
  | NStr (s : string).

#[global] Instance node_eq_dec : EqDecision node.
Proof. solve_decision. Defined.

#[global] Instance node_countable : Countable node.
Proof.
  refine (inj_countable'
    (λ n, match n with NInt z => inl z | NStr s => inr s end)
    (λ x, match x with inl z => NInt z | inr s => NStr s end) _).
  by intros [].
Defined.

(** The sentinel sink ['0']. *)
Definition sink : node := NStr "0".

(** Exceptions the module and the networkx calls it makes can raise. *)
Inductive exn : Type :=
  | IndexError
  | KeyError
  | ValueError
  | TypeError
  | RuntimeError
  | FileNotFoundError
  | NetworkXError
  | NetworkXUnfeasible
  | NetworkXPointlessConcept.

#[global] Instance exn_eq_dec : EqDecision exn.
Proof. solve_decision. Defined.

(** Outcome of a call: a value, a raised exception, or a [while] loop that
    did not finish within the iterations the model grants it. *)
Inductive result (A : Type) : Type :=
  | Ok (a : A)
  | Raise (e : exn)
  | OutOfFuel.
Arguments Ok {A} a.
Arguments Raise {A} e.
Arguments OutOfFuel {A}.

#[global] Instance result_eq_dec {A} `{EqDecision A} : EqDecision (result A).
Proof. solve_decision. Defined.

#[global] Instance result_ret : MRet result := λ A a, Ok a.
#[global] Instance result_bind : MBind result := λ A B f r,
  match r with
  | Ok a => f a
  | Raise e => Raise e
  | OutOfFuel => OutOfFuel
  end.

#[global] Instance result_fmap : FMap result := λ A B f r,
  match r with
  | Ok a => Ok (f a)
  | Raise e => Raise e
  | OutOfFuel => OutOfFuel
  end.

(** A [for] loop whose body may raise: the accumulator is threaded through
    the elements in order. *)
Fixpoint foldM {A S : Type} (f : S → A → result S) (s : S) (l : list A) : result S :=
  match l with
  | [] => Ok s
  | x :: l' => s' ← f s x; foldM f s' l'
  end.

(** ** Insertion-ordered dictionaries

    A Python [dict] keeps its keys in insertion order; assigning to an
    existing key keeps the key's position.  A dictionary is a list of
    pairs; its keys are distinct (the theorems ask for [NoDup (dict_keys d)]
    where they rely on it). *)
Section pydict.
Context {K V : Type} `{EqDecision K}.

Fixpoint dict_get (d : list (K * V)) (k : K) : option V :=
  match d with
  | [] => None
  | (k', v) :: d' => if decide (k' = k) then Some v else dict_get d' k
  end.

Fixpoint dict_set (d : list (K * V)) (k : K) (v : V) : list (K * V) :=
  match d with
  | [] => [(k, v)]
  | (k', v') :: d' =>
      if decide (k' = k) then (k', v) :: d' else (k', v') :: dict_set d' k v
  end.

Definition dict_del (d : list (K * V)) (k : K) : list (K * V) :=
  filter (λ kv, kv.1 ≠ k) d.

(** [d.pop(k)]: [KeyError] when [k] is absent. *)
Definition dict_pop (d : list (K * V)) (k : K) : result (V * list (K * V)) :=
  match dict_get d k with
  | Some v => Ok (v, dict_del d k)
  | None => Raise KeyError
  end.

Definition dict_keys (d : list (K * V)) : list K := d.*1.
Definition dict_values (d : list (K * V)) : list V := d.*2.

(** [dict(pairs)]: later pairs overwrite earlier ones. *)
Definition dict_of_pairs (l : list (K * V)) : list (K * V) :=
  foldl (λ d kv, dict_set d kv.1 kv.2) [] l.
End pydict.

(** ** networkx.DiGraph *)

(** The attribute dictionary of a node.  The module uses two keys, ['gauge']
    and ['calibrate']; a field is [None] while the key is absent.  The value
    of ['gauge'] is a gauge identifier or Python's [None]; the value of
    ['calibrate'] is one of the strings ['True'] and ['False']. *)
Record attrs : Type := Attrs {
  a_gauge : option (option string);
  a_calibrate : option string
}.

#[global] Instance attrs_eq_dec : EqDecision attrs.
Proof. solve_decision. Defined.

Definition no_attrs : attrs := Attrs None None.

(** A [DiGraph] holds the dict [_node] (node to attribute dict) and the
    adjacency dicts [_succ] and [_pred].  The model keeps the nodes in
    insertion order and one list of edges in insertion order; [_succ[u]] and
    [_pred[v]] are the restrictions of that list, which is the order in
    which networkx iterates them. *)
Record DiGraph : Type := mkDiGraph {
  g_node : list (node * attrs);
  g_edges : list (node * node)
}.

#[global] Instance DiGraph_eq_dec : EqDecision DiGraph.
Proof. solve_decision. Defined.

Definition empty_graph : DiGraph := mkDiGraph [] [].

Definition nodes (G : DiGraph) : list node := (g_node G).*1.

Definition has_node (G : DiGraph) (n : node) : bool := bool_decide (n ∈ nodes G).

(** [G.successors(n)] / [G.neighbors(n)] and [G.predecessors(n)], as
    lists in iteration order.  (The methods raise [NetworkXError] for a node
    that is not in the graph; callers below check membership first.) *)
Definition successors (G : DiGraph) (n : node) : list node :=
  (filter (λ e, e.1 = n) (g_edges G)).*2.

Definition predecessors (G : DiGraph) (n : node) : list node :=
  (filter (λ e, e.2 = n) (g_edges G)).*1.

Definition successors_checked (G : DiGraph) (n : node) : result (list node) :=
  if has_node G n then Ok (successors G n) else Raise NetworkXError.

Definition predecessors_checked (G : DiGraph) (n : node) : result (list node) :=
  if has_node G n then Ok (predecessors G n) else Raise NetworkXError.

(** [G.edges] iterates node by node, each node's successors in order. *)
Definition edges (G : DiGraph) : list (node * node) :=
  n ← nodes G; (λ v, (n, v)) <$> successors G n.

Definition number_of_nodes (G : DiGraph) : Z := Z.of_nat (length (nodes G)).
Definition number_of_edges (G : DiGraph) : Z := Z.of_nat (length (g_edges G)).
Definition in_degree (G : DiGraph) (n : node) : Z := Z.of_nat (length (predecessors G n)).

Definition add_node (G : DiGraph) (n : node) : DiGraph :=
  if has_node G n then G
  else mkDiGraph (g_node G ++ [(n, no_attrs)]) (g_edges G).

Definition add_edge (G : DiGraph) (u v : node) : DiGraph :=
  let G := add_node (add_node G u) v in
  if bool_decide ((u, v) ∈ g_edges G) then G
  else mkDiGraph (g_node G) (g_edges G ++ [(u, v)]).

Definition add_edges_from (G : DiGraph) (l : list (node * node)) : DiGraph :=
  foldl (λ G e, add_edge G e.1 e.2) G l.

(** [G.remove_nodes_from(ns)]: nodes that are not in the graph are
    skipped silently; the edges at a removed node go with it. *)
Definition remove_node (G : DiGraph) (n : node) : DiGraph :=
  mkDiGraph (filter (λ na, na.1 ≠ n) (g_node G))
            (filter (λ e, e.1 ≠ n ∧ e.2 ≠ n) (g_edges G)).

Definition remove_nodes_from (G : DiGraph) (ns : list node) : DiGraph :=
  foldl remove_node G ns.

(** [nx.DiGraph(G.subgraph(ns))]: the induced subgraph on the nodes of
    [ns] that are in [G], copied into a new graph.  The copy inserts the
    kept nodes first (with a copy of their attributes) and then the kept
    edges in the order of [G.edges].  The kept nodes are listed in the
    order of [G].  networkx lists them in the iteration order of the set
    [ns] instead when [2 * len(ns) < len(G)]; that order is a matter of
    hashing and is not modelled.  The copy has the same nodes, attributes
    and edges either way; the order of its nodes, and with it the order
    of the predecessors of a node, may differ.  The results on the copy
    are therefore stated on its nodes and edges as sets, and none of them
    says which of several predecessors comes first. *)
Definition subgraph_copy (G : DiGraph) (ns : list node) : DiGraph :=
  mkDiGraph (filter (λ na, na.1 ∈ ns) (g_node G))
            (filter (λ e, e.1 ∈ ns ∧ e.2 ∈ ns) (edges G)).

(** Well-formed graph values: the representation invariant every
    [DiGraph] object satisfies. *)
Record wf (G : DiGraph) : Prop := {
  wf_nodes : NoDup (nodes G);
  wf_edges : NoDup (g_edges G);
  wf_ends : ∀ u v, (u, v) ∈ g_edges G → u ∈ nodes G ∧ v ∈ nodes G
}.

(** Reachability. *)
Definition edge (G : DiGraph) (u v : node) : Prop := (u, v) ∈ g_edges G.
Definition path (G : DiGraph) : relation node := tc (edge G).
Definition acyclic (G : DiGraph) : Prop := ∀ v, ¬ path G v v.
Definition ancestor (G : DiGraph) (a v : node) : Prop := path G a v.

Definition wedge (G : DiGraph) (u v : node) : Prop := edge G u v ∨ edge G v u.
Definition weakly_connected (G : DiGraph) : Prop :=
  ∀ u v, u ∈ nodes G → v ∈ nodes G → rtc (wedge G) u v.

(** ** networkx algorithms *)

(** *** Breadth-first search

    [generic_bfs_edges] works level by level: [seen] is the set of
    discovered nodes, and the children of the nodes of the current level
    that are not yet in [seen] form the next level.  The model keeps [seen]
    as the list of nodes in discovery order, which is also the order in
    which [bfs_tree] inserts them into the tree it returns. *)
Definition bfs_visit (st : list node * list node) (child : node) : list node * list node :=
  if bool_decide (child ∈ st.1) then st else (st.1 ++ [child], st.2 ++ [child]).

Definition bfs_level (neighbors : node → list node) (seen this_level : list node)
    : list node * list node :=
  foldl (λ st parent, foldl bfs_visit st (neighbors parent)) (seen, []) this_level.

(** The loop runs while the level is not empty and [depth < depth_limit];
    it returns the discovered nodes and the level it stopped at. *)
Fixpoint bfs_loop (neighbors : node → list node) (depth_limit : nat)
    (seen this_level : list node) : list node * list node :=
  match this_level, depth_limit with
  | [], _ => (seen, [])
  | _, O => (seen, this_level)
  | _, S d =>
      let st := bfs_level neighbors seen this_level in
      bfs_loop neighbors d st.1 st.2
  end.

(** [list(nx.bfs_tree(G, source, reverse=reverse))]: the nodes of the BFS
    tree, the source first.  [depth_limit] defaults to [len(G)]. *)
Definition bfs_tree_nodes (G : DiGraph) (source : node) (reverse : bool) : result (list node) :=
  if has_node G source then
    Ok (bfs_loop (if reverse then predecessors G else successors G)
                 (length (nodes G)) [source] [source]).1
  else Raise NetworkXError.

(** [_plain_bfs(G, source)] follows edges in both directions and has no
    depth limit. *)
Definition plain_bfs (G : DiGraph) (source : node) : result (list node) :=
  match bfs_loop (λ v, successors G v ++ predecessors G v)
                 (length (nodes G)) [source] [source] with
  | (seen, []) => Ok seen
  | _ => OutOfFuel
  end.

(** [nx.is_weakly_connected]: the component of the first node has as many
    members as the graph has nodes. *)
Definition is_weakly_connected (G : DiGraph) : result bool :=
  match nodes G with
  | [] => Raise NetworkXPointlessConcept
  | v :: _ =>
      c ← plain_bfs G v;
      Ok (bool_decide (size (list_to_set c : gset node) = length (nodes G)))
  end.

(** *** Topological sort (Kahn's algorithm by generations)

    [topological_generations] keeps in [indegree_map] the nodes with
    remaining incoming edges and in [zero_indegree] the nodes that are
    ready.  One generation is handled per iteration of the [while] loop:
    every edge out of a node of the generation lowers the count of its
    target, and a target whose count reaches zero joins the next
    generation.  A target that is missing from the map, or a node that is
    not in the graph, is the sign of a graph that changed during the
    iteration ([RuntimeError]); a map that is not empty at the end is the
    sign of a cycle ([NetworkXUnfeasible]).  [fuel] bounds the number of
    generations; [topological_sort_spec] shows that the number of nodes is
    always enough. *)

Definition indegree_map_init (G : DiGraph) : gmap node Z :=
  list_to_map ((λ v, (v, in_degree G v)) <$> filter (λ v, in_degree G v > 0) (nodes G)).

Definition zero_indegree_init (G : DiGraph) : list node :=
  filter (λ v, in_degree G v = 0) (nodes G).

Definition topo_child (st : gmap node Z * list node) (child : node)
    : result (gmap node Z * list node) :=
  match st.1 !! child with
  | None => Raise RuntimeError
  | Some d =>
      if bool_decide (d - 1 = 0)
      then Ok (delete child st.1, st.2 ++ [child])
      else Ok (<[child := d - 1]> st.1, st.2)
  end.

Definition topo_node (G : DiGraph) (st : gmap node Z * list node) (n : node)
    : result (gmap node Z * list node) :=
  if has_node G n then foldM topo_child st (successors G n) else Raise RuntimeError.

Fixpoint topo_loop (G : DiGraph) (fuel : nat) (indegree_map : gmap node Z)
    (zero_indegree : list node) (generations : list (list node))
    : result (list (list node)) :=
  match zero_indegree, fuel with
  | [], _ =>
      if bool_decide (indegree_map = ∅) then Ok generations
      else Raise NetworkXUnfeasible
  | _, O => OutOfFuel
  | _, S fuel =>
      st ← foldM (topo_node G) (indegree_map, []) zero_indegree;
      topo_loop G fuel st.1 st.2 (generations ++ [zero_indegree])
  end.

Definition topological_generations (G : DiGraph) : result (list (list node)) :=
  topo_loop G (length (nodes G)) (indegree_map_init G) (zero_indegree_init G) [].

Definition topological_sort (G : DiGraph) : result (list node) :=
  gens ← topological_generations G; Ok (concat gens).

(** [G.is_directed()]: every graph of the module is built with
    [nx.DiGraph], whose method returns [True]. *)
Definition is_directed (G : DiGraph) : bool := true.

(** [has_cycle] runs the topological sort to its end and catches
    [NetworkXUnfeasible]. *)
Definition has_cycle (G : DiGraph) : result bool :=
  match topological_sort G with
  | Ok _ => Ok false
  | Raise NetworkXUnfeasible => Ok true
  | Raise e => Raise e
  | OutOfFuel => OutOfFuel
  end.

Definition is_directed_acyclic_graph (G : DiGraph) : result bool :=
  if is_directed G then negb <$> has_cycle G else Ok false.

(** [nx.is_tree]: raises on the null graph, otherwise
    [len(G) - 1 == G.number_of_edges() and is_weakly_connected(G)]. *)
Definition is_tree (G : DiGraph) : result bool :=
  if bool_decide (number_of_nodes G = 0) then Raise NetworkXPointlessConcept
  else if bool_decide (number_of_nodes G - 1 = number_of_edges G)
       then is_weakly_connected G
       else Ok false.

(** [nx.set_node_attributes(G, value, name)] with a constant, and the
    dict-of-dicts form for a single node. *)
Definition set_gauge_all (G : DiGraph) (g : option string) : DiGraph :=
  mkDiGraph ((λ na, (na.1, Attrs (Some g) (a_calibrate na.2))) <$> g_node G) (g_edges G).

Definition set_calibrate_all (G : DiGraph) (c : string) : DiGraph :=
  mkDiGraph ((λ na, (na.1, Attrs (a_gauge na.2) (Some c))) <$> g_node G) (g_edges G).

Definition set_node_attrs (G : DiGraph) (n : node) (g : option string) (c : string) : DiGraph :=
  mkDiGraph ((λ na, if decide (na.1 = n) then (na.1, Attrs (Some g) (Some c)) else na)
               <$> g_node G) (g_edges G).

(** [G.nodes[n]["gauge"]] and [G.nodes[n]["calibrate"]]. *)
Definition node_gauge (G : DiGraph) (n : node) : result (option string) :=
  match dict_get (g_node G) n with
  | Some a => match a_gauge a with Some g => Ok g | None => Raise KeyError end
  | None => Raise KeyError
  end.

Definition node_calibrate (G : DiGraph) (n : node) : result string :=
  match dict_get (g_node G) n with
  | Some a => match a_calibrate a with Some c => Ok c | None => Raise KeyError end
  | None => Raise KeyError
  end.

(** *** Built-ins: [list.index] and [sorted(..., key=...)] *)

Fixpoint list_index (l : list node) (x : node) : result nat :=
  match l with
  | [] => Raise ValueError
  | y :: l' => if decide (y = x) then Ok O else S <$> list_index l' x
  end.

Definition getitem {A : Type} (l : list A) (i : nat) : result A :=
  match l !! i with
  | Some x => Ok x
  | None => Raise IndexError
  end.

(** [sorted(l, key=k)] is a stable sort: elements with equal keys keep
    their order.  A stable sort has one possible output, here computed by
    insertion from the right. *)
Section sorted.
Context {A : Type} (key : A → nat).

Fixpoint insert_by (x : A) (l : list A) : list A :=
  match l with
  | [] => [x]
  | y :: l' => if decide (key x ≤ key y)%nat then x :: l else y :: insert_by x l'
  end.

Definition sorted_by (l : list A) : list A := foldr insert_by [] l.
End sorted.

(** ** Text files

    A file holds a string.  Characters are 8-bit ([ascii]); the files of
    the module are ASCII text.  Files are opened in text mode on a POSIX
    system: writing leaves the line terminator of [csv.writer] as it is. *)

Definition LF : ascii := ascii_of_nat 10.
Definition CR : ascii := ascii_of_nat 13.
Definition SP : ascii := ascii_of_nat 32.
Definition DQUOTE : ascii := ascii_of_nat 34.

(** [str.isspace] on ASCII: TAB, LF, VT, FF, CR, FS, GS, RS, US and space. *)
Definition py_isspace (c : ascii) : bool :=
  let n := nat_of_ascii c in
  ((9 <=? n) && (n <=? 13) || (28 <=? n) && (n <=? 32))%nat.

(** [s.split()]: the maximal runs of non-whitespace characters.  [cur] is
    the run being read. *)
Fixpoint split_from (s cur : string) : list string :=
  match s with
  | EmptyString => if decide (cur = EmptyString) then [] else [cur]
  | String c s' =>
      if py_isspace c
      then (if decide (cur = EmptyString) then split_from s' EmptyString
            else cur :: split_from s' EmptyString)
      else split_from s' (cur +:+ String c EmptyString)
  end.

Definition split (s : string) : list string := split_from s EmptyString.

(** Reading in text mode translates CR LF and a lone CR to LF
    (universal newlines); iterating the file yields the lines, each with
    its LF, the last one possibly without. *)
Fixpoint universal_newlines (s : string) : string :=
  match s with
  | EmptyString => EmptyString
  | String c s' =>
      if decide (c = CR) then
        match s' with
        | String c' s'' =>
            if decide (c' = LF) then String LF (universal_newlines s'')
            else String LF (universal_newlines s')
        | EmptyString => String LF EmptyString
        end
      else String c (universal_newlines s')
  end.

Fixpoint lines_from (s cur : string) : list string :=
  match s with
  | EmptyString => if decide (cur = EmptyString) then [] else [cur]
  | String c s' =>
      if decide (c = LF) then (cur +:+ String LF EmptyString) :: lines_from s' EmptyString
      else lines_from s' (cur +:+ String c EmptyString)
  end.

Definition file_lines (content : string) : list string :=
  lines_from (universal_newlines content) EmptyString.

(** [str(n)] for a node. *)
Definition py_str (n : node) : string :=
  match n with
  | NInt z => pretty z
  | NStr s => s
  end.

(** [csv.writer(f, delimiter=' ')]: the default dialect otherwise
    (the double quote as quote character, minimal quoting, quotes
    doubled, line terminator CR LF).  A field is quoted when it holds the delimiter,
    the quote character or a line-terminator character. *)
Fixpoint string_exists (p : ascii → bool) (s : string) : bool :=
  match s with
  | EmptyString => false
  | String c s' => p c || string_exists p s'
  end.

Fixpoint double_quotes (s : string) : string :=
  match s with
  | EmptyString => EmptyString
  | String c s' =>
      if decide (c = DQUOTE) then String DQUOTE (String DQUOTE (double_quotes s'))
      else String c (double_quotes s')
  end.

Definition csv_special (c : ascii) : bool :=
  bool_decide (c = SP) || bool_decide (c = DQUOTE) || bool_decide (c = CR) || bool_decide (c = LF).

Definition csv_field (s : string) : string :=
  if string_exists csv_special s
  then String DQUOTE (double_quotes s +:+ String DQUOTE EmptyString)
  else s.

(** A row of two fields. *)
Definition csv_row (r : node * node) : string :=
  csv_field (py_str r.1) +:+ String SP (csv_field (py_str r.2) +:+ String CR (String LF EmptyString)).

Definition csv_writerows (rows : list (node * node)) : string :=
  foldr (λ r s, csv_row r +:+ s) EmptyString rows.

(** ** The store of Python objects

    Graphs and dictionaries are objects that the functions of the module
    receive by reference.  A [world] holds the objects, addressed by their
    position, and the files; a computation [M A] reads and updates the
    world and returns a value or raises. *)

Inductive obj : Type :=
  | OGraph (G : DiGraph)
  | ODict (d : list (string * node)).

Definition loc := nat.

Record world : Type := World {
  objs : list obj;
  files : gmap string string
}.

Definition M (A : Type) : Type := world → result (A * world).

#[global] Instance M_ret : MRet M := λ A a w, Ok (a, w).
#[global] Instance M_bind : MBind M := λ A B f m w,
  match m w with
  | Ok (a, w') => f a w'
  | Raise e => Raise e
  | OutOfFuel => OutOfFuel
  end.

Definition lift {A : Type} (r : result A) : M A := λ w,
  match r with
  | Ok a => Ok (a, w)
  | Raise e => Raise e
  | OutOfFuel => OutOfFuel
  end.

Definition alloc (o : obj) : M loc := λ w,
  Ok (length (objs w), World (objs w ++ [o]) (files w)).

Definition read_graph (l : loc) : M DiGraph := λ w,
  match objs w !! l with
  | Some (OGraph G) => Ok (G, w)
  | _ => Raise TypeError
  end.

Definition read_dict (l : loc) : M (list (string * node)) := λ w,
  match objs w !! l with
  | Some (ODict d) => Ok (d, w)
  | _ => Raise TypeError
  end.

Definition store (l : loc) (o : obj) : M unit := λ w,
  Ok (tt, World (<[l := o]> (objs w)) (files w)).

Definition read_file (path : string) : M string := λ w,
  match files w !! path with
  | Some s => Ok (s, w)
  | None => Raise FileNotFoundError
  end.

Definition write_file (path content : string) : M unit := λ w,
  Ok (tt, World (objs w) (<[path := content]> (files w))).

(** A [for] loop with effects on the store. *)
Fixpoint for_each {A : Type} (l : list A) (body : A → M unit) : M unit :=
  match l with
  | [] => mret tt
  | x :: l' => body x;; for_each l' body
  end.

Fixpoint for_fold {A S : Type} (l : list A) (s : S) (body : S → A → M S) : M S :=
  match l with
  | [] => mret s
  | x :: l' => s' ← body s x; for_fold l' s' body
  end.

Definition update_graph (l : loc) (f : DiGraph → DiGraph) : M unit :=
  G ← read_graph l; store l (OGraph (f G)).

Definition raise {A : Type} (e : exn) : M A := λ _, Raise e.

(** The right operand of [set.__sub__]: another set, or some other
    object.  [set - x] is defined for sets only, and neither [DiGraph] nor
    [dict] provides the reflected [__rsub__]: the operator raises
    [TypeError]. *)
Inductive operand : Type :=
  | OpSet (s : list node)
  | OpObj (o : obj).

Definition set_sub (s : list node) (other : operand) : result (list node) :=
  match other with
  | OpSet s' => Ok (filter (λ x, x ∉ s') s)
  | OpObj _ => Raise TypeError
  end.

(** ** The functions of [network.py] *)

(** The loop of [get_raw_network]: one edge per line. *)
Definition read_edges (lines : list string) : result (list (node * node)) :=
  foldM (λ edges line,
           let p := split line in
           a ← getitem p 0;
           b ← getitem p 1;
           Ok (edges ++ [(NStr a, NStr b)])) [] lines.

Definition get_raw_network (topology_path : string) : M loc :=
  data ← read_file topology_path;
  edges ← lift (read_edges (file_lines data));
  alloc (OGraph (add_edges_from empty_graph edges)).

(** [check_network] prints diagnostics on each failing branch (the cycle
    found by [nx.find_cycle], the weakly connected components); what is
    printed is not modelled.  The diagnostics cannot raise on the branch
    they are on: [find_cycle] is called on a graph that has a cycle, and
    the component listing on a graph that has nodes. *)
Definition check_network (net : loc) : M bool :=
  G ← read_graph net;
  dag ← lift (is_directed_acyclic_graph G);
  if negb dag then mret false
  else if negb (is_directed G) then mret false
  else
    tree ← lift (is_tree G);
    if negb tree then mret false else mret true.

Definition get_network (topology_path : string) : M (option loc) :=
  net ← get_raw_network topology_path;
  ok ← check_network net;
  if (ok : bool) then mret (Some net) else mret None.

Definition get_up_streem_network (net : loc) (n : node) : M loc :=
  G ← read_graph net;
  net_up ← lift (bfs_tree_nodes G n true);
  alloc (OGraph (subgraph_copy G net_up)).

Definition filter_to_calibrate (net : loc) (nodes : list node) (outlet : node) : M loc :=
  for_each nodes (λ value,
    G ← read_graph net;
    if has_node G value && bool_decide (value ≠ outlet) then
      up ← lift (bfs_tree_nodes G value true);
      let to_delete := filter (λ n, n ≠ value) up in
      store net (OGraph (remove_nodes_from G to_delete))
    else mret tt);;
  mret net.

(** The body of the annotation loop of [get_subgraph], for one node of the
    topological order.  The loop consumes the generator
    [nx.topological_sort(net_up)] while it sets attributes on [net_up];
    attributes do not enter the sort, so the order is the one computed on
    the graph as it is when the loop starts, and a cycle makes the call
    raise whatever the loop did before. *)
Definition annotate_node (net_up gauge : loc) (reversed_dict : list (node * string))
    (outlet n : node) : M unit :=
  gd ← read_dict gauge;
  G ← read_graph net_up;
  gc ← ((if bool_decide (n ∈ dict_values gd) then
          g ← lift (match dict_get reversed_dict n with
                    | Some g => Ok g
                    | None => Raise KeyError
                    end);
          mret (Some g, if bool_decide (n = outlet) then "True" else "False")
        else
          parent ← lift (predecessors_checked G n);
          match parent with
          | p :: _ =>
              calibrate ← lift (node_calibrate G p);
              g ← lift (node_gauge G p);
              mret (g, calibrate)
          | [] => mret (None, "False")
          end) : M (option string * string));
  store net_up (OGraph (set_node_attrs G n gc.1 gc.2)).

Definition get_subgraph (net gauge : loc) (gauge_id : string) (is_calibration : bool)
    : M loc :=
  gd ← read_dict gauge;
  outlet ← lift (match dict_get gd gauge_id with
                 | Some v => Ok v
                 | None => Raise KeyError
                 end);
  net_up ← get_up_streem_network net outlet;
  let reversed_dict := dict_of_pairs ((λ kv, (kv.2, kv.1)) <$> gd) in
  Gup ← read_graph net_up;
  let keys_to_remove := filter (λ key, ¬ has_node Gup key) (dict_keys reversed_dict) in
  reversed_dict ← for_fold keys_to_remove reversed_dict (λ rd key,
    popped ← lift (dict_pop rd key);
    gd ← read_dict gauge;
    popped' ← lift (dict_pop gd popped.1);
    store gauge (ODict popped'.2);;
    mret popped.2);
  net_up ← (if is_calibration
            then filter_to_calibrate net_up (dict_keys reversed_dict) outlet
            else mret net_up);
  update_graph net_up (λ G, add_edges_from G [(outlet, NStr "0")]);;
  update_graph net_up (λ G, set_gauge_all G (Some gauge_id));;
  update_graph net_up (λ G, set_calibrate_all G "True");;
  G ← read_graph net_up;
  order ← lift (topological_sort G);
  for_each order (annotate_node net_up gauge reversed_dict outlet);;
  mret net_up.

Definition read_obj (l : loc) : M obj := λ w,
  match objs w !! l with
  | Some o => Ok (o, w)
  | None => Raise RuntimeError
  end.

Definition get_downstream_network (net : loc) (n : node) : M loc :=
  G ← read_graph net;
  if negb (has_node G n) then raise NetworkXError
  else
    upstream_nodes ← get_up_streem_network net n;
    up ← read_obj upstream_nodes;
    downstream_nodes ← lift (set_sub (nodes G) (OpObj up));
    alloc (OGraph (subgraph_copy G downstream_nodes)).

Definition write_network (net : loc) (topology_path : string) : M unit :=
  G ← read_graph net;
  let node_to_plot :=
    (λ n, (n, match successors G n with
              | nb :: _ => nb
              | [] => NStr "0"
              end)) <$> filter (λ n, n ≠ NStr "0") (nodes G) in
  write_file topology_path (csv_writerows node_to_plot).

(** What a function of the module can hand back where a dictionary is
    expected. *)
Inductive pyret : Type :=
  | PyNone
  | PyDict (d : list (string * string)).

(** The loop of [create_stream_gauge_dictionary]. *)
Definition read_gauge_dict (lines : list string) : result (list (string * string)) :=
  foldM (λ gauge line,
           let p := split line in
           v ← getitem p 1;
           k ← getitem p 0;
           Ok (dict_set gauge k v)) [] lines.

Definition create_stream_gauge_dictionary (path : string) : M pyret :=
  data ← read_file path;
  gauge ← lift (read_gauge_dict (file_lines data));
  mret PyNone.

Definition sort_node (net : loc) (nodes : list node) : M (list node) :=
  G ← read_graph net;
  topological_order ← lift (topological_sort G);
  keyed ← lift (mapM (λ x, i ← list_index topological_order x; Ok (i, x)) nodes);
  mret ((sorted_by fst keyed).*2).

(** [plot_network] is a stub. *)
Definition plot_network (net : loc) (path : option string) : M pyret := mret PyNone.

(** The loop of [get_order_node] over the gauge file: [gauge] maps the
    second token of a line to its first token, [sub_id] lists the second
    tokens.  The keys are the [str] values that are later looked up as
    nodes of the network. *)
Definition read_order_dict (lines : list string)
    : result (list (node * string) * list node) :=
  foldM (λ st line,
           let p := split line in
           v ← getitem p 0;
           k ← getitem p 1;
           k' ← getitem p 1;
           Ok (dict_set st.1 (NStr k) v, st.2 ++ [NStr k'])) ([], []) lines.

(** [get_order_node] and [simplify_network] use the result of
    [get_network] as a graph without testing it.  When it is [None], the
    first use ([nx.topological_sort(None)], [None.nodes]) fails; the model
    raises [TypeError] there, as it does for every use of an object that
    is not a graph. *)
Definition get_order_node (topo_pat dict_path : string) : M (list string) :=
  data ← read_file dict_path;
  st ← lift (read_order_dict (file_lines data));
  net ← get_network topo_pat;
  sub_id ← match net with
           | Some net => sort_node net st.2
           | None => raise TypeError
           end;
  lift (mapM (λ i, match dict_get st.1 i with
                   | Some g => Ok g
                   | None => Raise KeyError
                   end) sub_id).

Definition simplify_network (topology_path output_path : string) : M unit :=
  net ← get_network topology_path;
  dummy_net ← alloc (OGraph empty_graph);
  G ← match net with
      | Some net => read_graph net
      | None => raise TypeError
      end;
  for_each (nodes G) (λ n,
    if bool_decide (n ≠ NStr "0")
    then update_graph dummy_net (λ D, add_edge D n (NStr "0"))
    else mret tt);;
  write_network dummy_net output_path.

(** ** The example of the docstrings *)

Definition example_net : DiGraph :=
  add_edges_from empty_graph
    [(NInt 1, NInt 2); (NInt 2, NInt 3); (NInt 3, NInt 4); (NInt 2, NInt 5)].

Definition example_gauge : list (string * node) :=
  [("g1", NInt 1); ("g2", NInt 2); ("g3", NInt 3)].

(** A store holding the example network at address 0 and the gauge map at
    address 1, and the files ["empty"] (no line), ["bad"] (a second line
    of one token) and ["gauges"]. *)
Definition example_world : world :=
  World [OGraph example_net; ODict example_gauge]
        (<["empty" := EmptyString]>
           (<["bad" := "1 2" +:+ String LF ("3" +:+ String LF EmptyString)]>
              (<["gauges" := "g1 1" +:+ String LF ("g2 2" +:+ String LF EmptyString)]> ∅))).

(** ** Auxiliary notions for the proofs *)

(** Tokens: non-empty strings of printable ASCII characters other than
    the double quote.  These are the node identifiers that a topology file
    can hold and that [csv.writer] writes back unquoted. *)
Definition token_char (c : ascii) : bool :=
  let n := nat_of_ascii c in
  ((33 <=? n) && (n <=? 126) && negb (n =? 34))%nat.

Fixpoint all_chars (p : ascii → bool) (s : string) : bool :=
  match s with
  | EmptyString => true
  | String c s' => p c && all_chars p s'
  end.

Definition token (s : string) : Prop :=
  s ≠ EmptyString ∧ all_chars token_char s = true.


(** The invariant of the topological sort.  [D] lists the nodes whose
    outgoing edges have all been handled, [c] is the node being handled and
    [s1] the successors of [c] handled so far; [L] lists the nodes that
    reached in-degree zero, in the order in which they did. *)
Section kahn_defs.
Context (G : DiGraph).

Definition consumed (D : list node) (c : node) (s1 : list node) (u v : node) : Prop :=
  u ∈ D ∨ (u = c ∧ v ∈ s1).

#[local] Instance consumed_dec D c s1 u v : Decision (consumed D c s1 u v).
Proof. unfold consumed. apply _. Defined.

Definition remaining (D : list node) (c : node) (s1 : list node) (v : node) : nat :=
  length (filter (λ u, ¬ consumed D c s1 u v) (predecessors G v)).

Record kahn_inv (D : list node) (c : node) (s1 : list node) (L : list node)
    (m : gmap node Z) : Prop := {
  ki_nodup : NoDup L;
  ki_nodes : ∀ v, v ∈ L → v ∈ nodes G;
  ki_zero : ∀ v, v ∈ nodes G → (v ∈ L ↔ remaining D c s1 v = 0%nat);
  ki_map : ∀ v, m !! v = if decide (remaining D c s1 v = 0%nat) then None
                          else Some (Z.of_nat (remaining D c s1 v));
  ki_fwd : ∀ i v u, L !! i = Some v → edge G u v → ∃ j, (j < i)%nat ∧ L !! j = Some u;
  ki_src : ∀ u v, edge G u v → consumed D c s1 u v → u ∈ L
}.
End kahn_defs.

(** The invariant of the breadth-first search from [source], over a
    neighbour function that stays inside the node list [dom]. *)
Record bfs_inv (neighbors : node → list node) (dom : list node) (source : node)
    (seen this_level : list node) : Prop := {
  bi_nodup : NoDup seen;
  bi_dom : ∀ x, x ∈ seen → x ∈ dom;
  bi_level : ∀ x, x ∈ this_level → x ∈ seen;
  bi_reach : ∀ x, x ∈ seen → rtc (λ a b, b ∈ neighbors a) source x;
  bi_source : source ∈ seen;
  bi_closed : ∀ x, x ∈ seen → x ∈ this_level ∨ ∀ y, y ∈ neighbors x → y ∈ seen
}.

(** Pure counterparts of the loops of [filter_to_calibrate] and
    [get_subgraph], which act on one graph object of the store. *)
Definition put (l : loc) (o : obj) (w : world) : world :=
  World (<[l := o]> (objs w)) (files w).

Definition calibrate_step (outlet : node) (G : DiGraph) (value : node) : DiGraph :=
  if has_node G value && bool_decide (value ≠ outlet) then
    remove_nodes_from G
      (filter (λ n, n ≠ value)
         (bfs_loop (predecessors G) (length (nodes G)) [value] [value]).1)
  else G.

Definition prune_step (st : list (node * string) * list (string * node)) (key : node)
    : result (list (node * string) * list (string * node)) :=
  popped ← dict_pop st.1 key;
  popped' ← dict_pop st.2 popped.1;
  Ok (popped.2, popped'.2).

Definition annotate_step (gd : list (string * node)) (reversed_dict : list (node * string))
    (outlet : node) (G : DiGraph) (n : node) : result DiGraph :=
  gc ← (if bool_decide (n ∈ dict_values gd) then
          g ← match dict_get reversed_dict n with
              | Some g => Ok g
              | None => Raise KeyError
              end;
          Ok (Some g, if bool_decide (n = outlet) then "True" else "False")
        else
          parent ← predecessors_checked G n;
          match parent with
          | p :: _ =>
              calibrate ← node_calibrate G p;
              g ← node_gauge G p;
              Ok (g, calibrate)
          | [] => Ok (None, "False")
          end);
  Ok (set_node_attrs G n gc.1 gc.2).

(** What the annotation pass of [get_subgraph] guarantees for a node once
    it has been visited: the flag ['True'] is only ever handed down from
    the outlet, and the outlet has it. *)
Definition flag_ok (R0 : DiGraph) (outlet x : node) (c : string) : Prop :=
  (c = "True" → rtc (edge R0) outlet x) ∧ (x = outlet → c = "True").

(** The graph with every edge turned around. *)
Definition rev_graph (G : DiGraph) : DiGraph :=
  mkDiGraph (g_node G) ((λ e, (e.2, e.1)) <$> g_edges G).

(** A tree written with integer identifiers, as in the docstring of
    [write_network], with the sink attached. *)
Definition int_tree : DiGraph := add_edges_from empty_graph [(NInt 1, NStr "0")].

(** The same kind of tree as the loader produces it, over string tokens. *)
Definition str_tree : DiGraph :=
  add_edges_from empty_graph [(NStr "1", NStr "2"); (NStr "2", NStr "0")].

(** A walk is a list of nodes in which each node has an edge to the next. *)
Fixpoint walk (G : DiGraph) (l : list node) : Prop :=
  match l with
  | a :: (b :: _) as l' => edge G a b ∧ walk G l'
  | _ => True
  end.

(** The pure counterpart of [get_subgraph]: the upstream graph, the
    pruned gauge map and the annotated graph, from the network and the
    gauge map as values. *)
Definition subgraph_run (G : DiGraph) (gd : list (string * node)) (gauge_id : string)
    (is_calibration : bool) : result (DiGraph * list (string * node) * DiGraph) :=
  outlet ← match dict_get gd gauge_id with
           | Some v => Ok v
           | None => Raise KeyError
           end;
  up ← bfs_tree_nodes G outlet true;
  let Gup := subgraph_copy G up in
  let reversed_dict := dict_of_pairs ((λ kv, (kv.2, kv.1)) <$> gd) in
  st ← foldM prune_step (reversed_dict, gd)
         (filter (λ key, ¬ has_node Gup key) (dict_keys reversed_dict));
  let net_up := if is_calibration
                then foldl (calibrate_step outlet) Gup (dict_keys st.1)
                else Gup in
  let R0 := set_calibrate_all
              (set_gauge_all (add_edges_from net_up [(outlet, NStr "0")]) (Some gauge_id))
              "True" in
  order ← topological_sort R0;
  R ← foldM (annotate_step st.2 st.1 outlet) R0 order;
  Ok (Gup, st.2, R).

(** Every node carries both attributes, ['gauge'] and ['calibrate']. *)
Definition attrs_set (G : DiGraph) : Prop :=
  ∀ n a, (n, a) ∈ g_node G → is_Some (a_gauge a) ∧ is_Some (a_calibrate a).

(** The body of the loop of [simplify_network], on the graph being
    built. *)
Definition star_step (D : DiGraph) (n : node) : DiGraph :=
  if bool_decide (n ≠ NStr "0") then add_edge D n (NStr "0") else D.

(** A store with no object, a topology file and a gauge file. *)
Definition topology_world : world :=
  World []
        (<["topology" := "1 2" +:+ String LF ("2 0" +:+ String LF EmptyString)]>
           (<["order" := "g2 2" +:+ String LF ("g1 1" +:+ String LF EmptyString)]> ∅)).

(** What the annotation pass of [get_subgraph] leaves on a node [x]: a
    node of the gauge map carries the gauge that the inverse map [rd]
    gives it and is flagged exactly when it is the outlet; any other node
    carries what the predecessor that the graph [R0] lists first carries,
    or no gauge and ['False'] when it has no predecessor. *)
Definition label_ok (R0 : DiGraph) (gd : list (string * node)) (rd : list (node * string))
    (outlet : node) (G : DiGraph) (x : node) : Prop :=
  if decide (x ∈ dict_values gd) then
    ∃ g, dict_get rd x = Some g ∧ node_gauge G x = Ok (Some g) ∧
         node_calibrate G x = Ok (if bool_decide (x = outlet) then "True" else "False")
  else
    match predecessors R0 x with
    | [] => node_gauge G x = Ok None ∧ node_calibrate G x = Ok "False"
    | p :: _ =>
        (∃ g, node_gauge G p = Ok g ∧ node_gauge G x = Ok g) ∧
        (∃ c, node_calibrate G p = Ok c ∧ node_calibrate G x = Ok c)
    end.


(** * Properties *)

(** ** Graph values *)

Lemma elem_of_successors G u v : v ∈ successors G u ↔ edge G u v.
Proof.
  unfold successors, edge. rewrite list_elem_of_fmap. split.
  - intros [[a b] [-> [Ha Hin]%list_elem_of_filter]]. simpl in *. by subst.
  - intros Hin. exists (u, v). split; [done|]. by apply list_elem_of_filter.
Qed.

Lemma elem_of_predecessors G u v : u ∈ predecessors G v ↔ edge G u v.
Proof.
  unfold predecessors, edge. rewrite list_elem_of_fmap. split.
  - intros [[a b] [-> [Ha Hin]%list_elem_of_filter]]. simpl in *. by subst.
  - intros Hin. exists (u, v). split; [done|]. by apply list_elem_of_filter.
Qed.

Lemma NoDup_successors G u : NoDup (g_edges G) → NoDup (successors G u).
Proof.
  intros Hnd. unfold successors. apply NoDup_fmap_2_strong; [|by apply NoDup_filter].
  intros [a b] [c d] [Ha _]%list_elem_of_filter [Hc _]%list_elem_of_filter Heq.
  simpl in *. by subst.
Qed.

Lemma NoDup_predecessors G v : NoDup (g_edges G) → NoDup (predecessors G v).
Proof.
  intros Hnd. unfold predecessors. apply NoDup_fmap_2_strong; [|by apply NoDup_filter].
  intros [a b] [c d] [Ha _]%list_elem_of_filter [Hc _]%list_elem_of_filter Heq.
  simpl in *. by subst.
Qed.

Lemma has_node_true G n : has_node G n = true ↔ n ∈ nodes G.
Proof. unfold has_node. by rewrite bool_decide_eq_true. Qed.

Lemma has_node_false G n : has_node G n = false ↔ n ∉ nodes G.
Proof. unfold has_node. by rewrite bool_decide_eq_false. Qed.

Lemma elem_of_edges G u v : (u, v) ∈ edges G ↔ u ∈ nodes G ∧ edge G u v.
Proof.
  unfold edges. rewrite list_elem_of_bind. split.
  - intros (n & Hin & Hn). apply list_elem_of_fmap in Hin as (w & [= -> ->] & Hw).
    split; [done|]. by apply elem_of_successors.
  - intros [Hu He]. exists u. split; [|done].
    apply list_elem_of_fmap. exists v. split; [done|]. by apply elem_of_successors.
Qed.

Lemma NoDup_edges G : wf G → NoDup (edges G).
Proof.
  intros [Hn He _]. unfold edges. apply NoDup_bind; [| |done].
  - intros x1 x2 y _ _ (v1 & -> & _)%list_elem_of_fmap (v2 & [= -> _] & _)%list_elem_of_fmap.
    done.
  - intros x _. apply NoDup_fmap_2; [|by apply NoDup_successors].
    by intros a b [= ->].
Qed.

(** *** Paths *)

Lemma path_nodes G u v : wf G → path G u v → u ∈ nodes G ∧ v ∈ nodes G.
Proof.
  intros Hwf. induction 1 as [x y Hxy | x y z Hxy _ [_ IH]].
  - by apply (wf_ends G Hwf).
  - split; [|done]. by apply (wf_ends G Hwf x y).
Qed.

Lemma walk_app_inv G l1 l2 : walk G (l1 ++ l2) → walk G l2.
Proof.
  induction l1 as [|a l1 IH]; [done|]. simpl.
  destruct (l1 ++ l2) eqn:E; [|intros [_ H]; by apply IH].
  destruct l1, l2; by try discriminate.
Qed.

Lemma walk_prefix G l1 l2 : walk G (l1 ++ l2) → walk G l1.
Proof.
  induction l1 as [|a l1 IH]; [done|]. simpl.
  destruct l1 as [|b l1]; [by destruct l2|].
  simpl. intros [H Hw]. split; [done|]. by apply IH.
Qed.

Lemma walk_path G a l b : walk G (a :: l ++ [b]) → path G a b.
Proof.
  revert a. induction l as [|c l IH]; intros a; simpl.
  - intros [H _]. by apply tc_once.
  - intros [H Hw]. eapply tc_l; [done|]. by apply IH.
Qed.

Lemma not_NoDup_split (l : list node) :
  ¬ NoDup l → ∃ x l1 l2 l3, l = l1 ++ x :: l2 ++ x :: l3.
Proof.
  induction l as [|a l IH]; intros Hnd.
  - destruct Hnd. constructor.
  - destruct (decide (a ∈ l)) as [Hin|Hnin].
    + apply list_elem_of_split in Hin as (l2 & l3 & ->). by exists a, [], l2, l3.
    + destruct IH as (x & l1 & l2 & l3 & ->).
      { intros Hl. apply Hnd. by constructor. }
      by exists x, (a :: l1), l2, l3.
Qed.

(** In a finite graph, a non-empty set of nodes in which every node has a
    predecessor inside the set holds a cycle. *)
Lemma cycle_of_closed_set G (P : node → Prop) v0 :
  (∀ v, P v → v ∈ nodes G) →
  (∀ v, P v → ∃ u, edge G u v ∧ P u) →
  P v0 → ∃ x, path G x x.
Proof.
  intros Hfin Hpred Hv0.
  assert (∀ k : nat, ∃ a l, length l = k ∧ walk G (a :: l) ∧ Forall P (a :: l))
    as Hchain.
  { induction k as [|k (a & l & Hlen & Hw & HP)].
    - exists v0, []. by repeat constructor.
    - destruct (Hpred a) as (u & Hu & HPu); [by inversion HP|].
      exists u, (a :: l). simpl. split; [by rewrite Hlen|]. split; [done|].
      by constructor. }
  destruct (Hchain (length (nodes G))) as (a & l & Hlen & Hw & HP).
  destruct (not_NoDup_split (a :: l)) as (x & l1 & l2 & l3 & Heq).
  { intros Hnd. apply NoDup_submseteq with (k := nodes G) in Hnd.
    - apply submseteq_length in Hnd. simpl in Hnd. lia.
    - intros y Hy. apply Hfin. by eapply Forall_forall in HP. }
  exists x. apply (walk_path G x l2 x).
  rewrite Heq in Hw. apply walk_app_inv in Hw.
  apply (walk_prefix G _ l3). by rewrite <-!app_comm_cons, <-app_assoc.
Qed.

(** ** Topological sort *)

Lemma filter_ext_elem {A} (P1 P2 : A → Prop) `{!∀ x, Decision (P1 x), !∀ x, Decision (P2 x)}
    (l : list A) :
  (∀ x, x ∈ l → (P1 x ↔ P2 x)) → filter P1 l = filter P2 l.
Proof.
  induction l as [|a l IH]; intros Hext; [done|].
  rewrite !filter_cons. rewrite IH by (intros x Hx; apply Hext; by right).
  destruct (decide (P1 a)) as [H1|H1], (decide (P2 a)) as [H2|H2]; try done.
  - destruct H2. apply Hext; [by left|done].
  - destruct H1. apply Hext; [by left|done].
Qed.

Lemma filter_remove_one {A} `{EqDecision A} (P : A → Prop) `{!∀ x, Decision (P x)}
    (l : list A) (c : A) :
  NoDup l → c ∈ l → P c →
  (length (filter (λ u, P u ∧ u ≠ c) l) + 1 = length (filter P l))%nat.
Proof.
  induction l as [|a l IH]; intros Hnd Hin HP; [by inversion Hin|].
  apply NoDup_cons in Hnd as [Ha Hnd]. rewrite !filter_cons.
  destruct (decide (a = c)) as [->|Hne].
  - rewrite (decide_True (P := P c)) by done.
    rewrite (decide_False (P := P c ∧ c ≠ c)) by naive_solver.
    simpl. rewrite (filter_ext_elem (λ u, P u ∧ u ≠ c) P); [lia|].
    intros x Hx. split; [naive_solver|]. intros ?. split; [done|]. by intros ->.
  - apply elem_of_cons in Hin as [?|Hin]; [congruence|].
    specialize (IH Hnd Hin HP).
    destruct (decide (P a)).
    + rewrite (decide_True (P := P a ∧ a ≠ c)) by done. simpl. lia.
    + rewrite (decide_False (P := P a ∧ a ≠ c)) by naive_solver. done.
Qed.

Section kahn.
Context (G : DiGraph) (Hwf : wf G).
#[local] Existing Instance consumed_dec.

Lemma kahn_inv_ext D c s1 D' c' s1' L m :
  (∀ u v, edge G u v → (consumed D c s1 u v ↔ consumed D' c' s1' u v)) →
  kahn_inv G D c s1 L m → kahn_inv G D' c' s1' L m.
Proof.
  intros Hext [H1 H2 H3 H4 H5 H6].
  assert (∀ v, remaining G D' c' s1' v = remaining G D c s1 v) as Hrem.
  { intros v. unfold remaining. f_equal. apply filter_ext_elem.
    intros u Hu%elem_of_predecessors. by rewrite Hext. }
  split; try done.
  - intros v Hv. rewrite Hrem. by apply H3.
  - intros v. rewrite Hrem. apply H4.
  - intros u v He Hc. apply (H6 u v He). by apply Hext.
Qed.

Lemma remaining_zero D c s1 v u :
  remaining G D c s1 v = 0%nat → edge G u v → consumed D c s1 u v.
Proof.
  unfold remaining. intros Hz%nil_length_inv He.
  destruct (decide (consumed D c s1 u v)) as [|Hn]; [done|].
  exfalso. eapply filter_nil_not_elem_of; [exact Hz|exact Hn|].
  by apply elem_of_predecessors.
Qed.

Lemma remaining_step D c s1 child :
  c ∉ D → child ∉ s1 → edge G c child →
  (remaining G D c (s1 ++ [child]) child + 1 = remaining G D c s1 child)%nat ∧
  ∀ v, v ≠ child → remaining G D c (s1 ++ [child]) v = remaining G D c s1 v.
Proof.
  intros HcD Hs1 He. split.
  - unfold remaining.
    rewrite <-(filter_remove_one (λ u, ¬ consumed D c s1 u child) _ c).
    + f_equal. f_equal. apply list_filter_iff. intros u. unfold consumed.
      rewrite elem_of_app, list_elem_of_singleton. naive_solver.
    + apply NoDup_predecessors, Hwf.
    + by apply elem_of_predecessors.
    + unfold consumed. naive_solver.
  - intros v Hv. unfold remaining. f_equal. apply list_filter_iff. intros u.
    unfold consumed. rewrite elem_of_app, list_elem_of_singleton. naive_solver.
Qed.

Lemma topo_child_inv D c s1 L0 zl m child :
  kahn_inv G D c s1 (L0 ++ zl) m →
  c ∈ L0 → c ∉ D → child ∉ s1 → edge G c child →
  ∃ m' zl', topo_child (m, zl) child = Ok (m', zl') ∧
            kahn_inv G D c (s1 ++ [child]) (L0 ++ zl') m'.
Proof.
  intros [H1 H2 H3 H4 H5 H6] HcL HcD Hs1 He.
  destruct (remaining_step D c s1 child HcD Hs1 He) as [Hstep Hother].
  assert (child ∈ nodes G) as Hchild by apply (wf_ends G Hwf c child He).
  unfold topo_child. simpl. rewrite H4.
  destruct (decide (remaining G D c s1 child = 0%nat)) as [Hz|Hnz]; [lia|].
  destruct (decide (remaining G D c (s1 ++ [child]) child = 0%nat)) as [Hz'|Hnz'].
  - rewrite bool_decide_eq_true_2 by lia.
    eexists _, _. split; [done|].
    assert (child ∉ L0 ++ zl) as Hfresh by (rewrite H3 by done; lia).
    rewrite app_assoc. split.
    + apply NoDup_app. split; [done|]. split; [|apply NoDup_singleton].
      intros x Hx ->%list_elem_of_singleton. done.
    + intros v [Hv| ->%list_elem_of_singleton]%elem_of_app; [by apply H2|done].
    + intros v Hv. destruct (decide (v = child)) as [->|Hne].
      * split; [done|]. intros _. apply elem_of_app. right. by left.
      * rewrite Hother by done. rewrite <-H3 by done.
        rewrite elem_of_app, list_elem_of_singleton. naive_solver.
    + intros v. destruct (decide (v = child)) as [->|Hne].
      * rewrite lookup_delete_eq. by rewrite decide_True.
      * rewrite lookup_delete_ne by done. rewrite Hother by done. apply H4.
    + intros i v u [[Hi Hv]|[-> <-]]%lookup_snoc_Some Huv.
      * destruct (H5 i v u Hv Huv) as (j & Hj & Hlk).
        exists j. split; [done|]. rewrite lookup_app_l by lia. done.
      * assert (u ∈ L0 ++ zl) as Hu.
        { pose proof (remaining_zero _ _ _ _ u Hz' Huv) as [HuD|[-> _]].
          - apply (H6 u child Huv). by left.
          - apply elem_of_app. by left. }
        apply list_elem_of_lookup in Hu as [j Hj].
        exists j. split; [by apply lookup_lt_Some in Hj|].
        by rewrite lookup_app_l by (by apply lookup_lt_Some in Hj).
    + intros u v Huv [HuD|[-> Hv]].
      * apply elem_of_app. left. apply (H6 u v Huv). by left.
      * apply elem_of_app. left. apply elem_of_app. by left.
  - rewrite bool_decide_eq_false_2 by lia.
    eexists _, _. split; [done|]. split; try done.
    + intros v Hv. destruct (decide (v = child)) as [->|Hne].
      * rewrite H3 by done. lia.
      * rewrite Hother by done. by apply H3.
    + intros v. destruct (decide (v = child)) as [->|Hne].
      * rewrite lookup_insert_eq. rewrite decide_False by done. f_equal. lia.
      * rewrite lookup_insert_ne by done. rewrite Hother by done. apply H4.
    + intros u v Huv [HuD|[-> Hv]].
      * apply (H6 u v Huv). by left.
      * apply elem_of_app. by left.
Qed.
Lemma topo_succs_inv D c L0 s2 : ∀ s1 zl m,
  kahn_inv G D c s1 (L0 ++ zl) m →
  c ∈ L0 → c ∉ D → NoDup (s1 ++ s2) → (∀ x, x ∈ s2 → edge G c x) →
  ∃ m' zl', foldM topo_child (m, zl) s2 = Ok (m', zl') ∧
            kahn_inv G D c (s1 ++ s2) (L0 ++ zl') m'.
Proof.
  induction s2 as [|child s2 IH]; intros s1 zl m Hinv HcL HcD Hnd Hed.
  - exists m, zl. rewrite app_nil_r. done.
  - destruct (topo_child_inv D c s1 L0 zl m child) as (m1 & zl1 & Hstep & Hinv1);
      try done.
    { apply NoDup_app in Hnd as (_ & Hdis & _). intros Hin.
      apply (Hdis child Hin). by left. }
    { apply Hed. by left. }
    destruct (IH (s1 ++ [child]) zl1 m1) as (m' & zl' & Hrest & Hinv'); try done.
    { by rewrite <-app_assoc. }
    { intros x Hx. apply Hed. by right. }
    exists m', zl'. split.
    + simpl. rewrite Hstep. done.
    + by rewrite <-app_assoc in Hinv'.
Qed.

Lemma topo_node_inv D c c' L0 zl m :
  kahn_inv G D c' [] (L0 ++ zl) m → c ∈ L0 → c ∉ D →
  ∃ m' zl', topo_node G (m, zl) c = Ok (m', zl') ∧
            kahn_inv G (D ++ [c]) c' [] (L0 ++ zl') m'.
Proof.
  intros Hinv HcL HcD.
  assert (kahn_inv G D c [] (L0 ++ zl) m) as Hinv0.
  { revert Hinv. apply kahn_inv_ext. intros u v _. unfold consumed.
    rewrite !elem_of_nil. naive_solver. }
  destruct (topo_succs_inv D c L0 (successors G c) [] zl m) as (m' & zl' & Hrun & Hinv');
    try done.
  { apply NoDup_successors, Hwf. }
  { intros x. by rewrite elem_of_successors. }
  exists m', zl'. split.
  - unfold topo_node. rewrite (proj2 (has_node_true G c)); [done|].
    apply (ki_nodes _ _ _ _ _ _ Hinv). apply elem_of_app. by left.
  - revert Hinv'. apply kahn_inv_ext. intros u v Huv. unfold consumed. simpl.
    rewrite elem_of_app, list_elem_of_singleton, elem_of_nil, elem_of_successors.
    naive_solver.
Qed.

Lemma topo_generation_inv c' this : ∀ D zl m,
  kahn_inv G D c' [] (D ++ this ++ zl) m →
  ∃ m' zl', foldM (topo_node G) (m, zl) this = Ok (m', zl') ∧
            kahn_inv G (D ++ this) c' [] (D ++ this ++ zl') m'.
Proof.
  induction this as [|c this IH]; intros D zl m Hinv.
  - exists m, zl. by rewrite app_nil_r.
  - pose proof (ki_nodup _ _ _ _ _ _ Hinv) as Hnd.
    destruct (topo_node_inv D c c' (D ++ c :: this) zl m) as (m1 & zl1 & Hstep & Hinv1).
    + by rewrite <-app_assoc.
    + apply elem_of_app. right. by left.
    + apply NoDup_app in Hnd as (_ & Hdis & _). intros Hin.
      apply (Hdis c Hin). by left.
    + destruct (IH (D ++ [c]) zl1 m1) as (m' & zl' & Hrest & Hinv').
      { by rewrite <-!app_assoc in *. }
      exists m', zl'. split.
      * simpl. rewrite Hstep. done.
      * by rewrite <-!app_assoc in Hinv'.
Qed.

Lemma topo_loop_inv c' fuel : ∀ m zero gens,
  kahn_inv G (concat gens) c' [] (concat gens ++ zero) m →
  (length (nodes G) ≤ fuel + length (concat gens))%nat →
  ∃ L mf, kahn_inv G L c' [] L mf ∧
    ((mf = ∅ ∧ ∃ gens', topo_loop G fuel m zero gens = Ok gens' ∧ concat gens' = L) ∨
     (mf ≠ ∅ ∧ topo_loop G fuel m zero gens = Raise NetworkXUnfeasible)).
Proof.
  induction fuel as [|fuel IH]; intros m zero gens Hinv Hfuel.
  - destruct zero as [|z zero].
    + rewrite app_nil_r in Hinv. exists (concat gens), m. split; [done|].
      simpl. destruct (decide (m = ∅)).
      * left. split; [done|]. exists gens. by rewrite bool_decide_eq_true_2.
      * right. split; [done|]. by rewrite bool_decide_eq_false_2.
    + exfalso. pose proof (ki_nodup _ _ _ _ _ _ Hinv) as Hnd.
      apply NoDup_submseteq with (k := nodes G) in Hnd;
        [|apply (ki_nodes _ _ _ _ _ _ Hinv)].
      apply submseteq_length in Hnd. rewrite length_app in Hnd. simpl in *. lia.
  - destruct zero as [|z zero].
    + rewrite app_nil_r in Hinv. exists (concat gens), m. split; [done|].
      simpl. destruct (decide (m = ∅)).
      * left. split; [done|]. exists gens. by rewrite bool_decide_eq_true_2.
      * right. split; [done|]. by rewrite bool_decide_eq_false_2.
    + destruct (topo_generation_inv c' (z :: zero) (concat gens) [] m)
        as (m1 & zl1 & Hgen & Hinv1).
      { by rewrite app_nil_r. }
      destruct (IH m1 zl1 (gens ++ [z :: zero])) as (L & mf & HinvL & Hres).
      { rewrite concat_app. simpl. rewrite app_nil_r.
        by rewrite <-app_assoc. }
      { rewrite concat_app, length_app. simpl. lia. }
      exists L, mf. split; [done|].
      change (topo_loop G (S fuel) m (z :: zero) gens)
        with (st ← foldM (topo_node G) (m, []) (z :: zero);
              topo_loop G fuel st.1 st.2 (gens ++ [z :: zero])).
      rewrite Hgen. done.
Qed.

Lemma kahn_inv_init c' :
  kahn_inv G [] c' [] (zero_indegree_init G) (indegree_map_init G).
Proof.
  assert (∀ v, remaining G [] c' [] v = length (predecessors G v)) as Hrem.
  { intros v. unfold remaining. f_equal.
    rewrite (filter_ext_elem _ (λ _, True)).
    - induction (predecessors G v) as [|a l IHl]; [done|].
      rewrite filter_cons. simpl. by rewrite IHl.
    - intros u _. unfold consumed. rewrite !elem_of_nil. naive_solver. }
  assert (∀ l : list node,
    ((λ v, (v, Z.of_nat (length (predecessors G v)))) <$> l).*1 = l) as Hfst.
  { induction l as [|a l IHl]; [done|]. simpl. f_equal. exact IHl. }
  unfold zero_indegree_init, indegree_map_init, in_degree. split.
  - apply NoDup_filter, Hwf.
  - intros v [_ Hv]%list_elem_of_filter. done.
  - intros v Hv. rewrite Hrem, list_elem_of_filter. split; [lia|]. intros ?. split; [lia|done].
  - intros v. rewrite Hrem.
    destruct (decide (length (predecessors G v) = 0%nat)) as [Hz|Hnz].
    + apply not_elem_of_list_to_map. rewrite Hfst.
      intros [Hw _]%list_elem_of_filter. lia.
    + apply elem_of_list_to_map.
      * rewrite Hfst. apply NoDup_filter, Hwf.
      * apply list_elem_of_fmap. exists v. split; [done|].
        apply list_elem_of_filter. split; [lia|].
        destruct (predecessors G v) as [|u l] eqn:E; [done|].
        assert (u ∈ predecessors G v) as Hu by (rewrite E; by left).
        apply elem_of_predecessors in Hu. by apply (wf_ends G Hwf u v).
  - intros i v u Hi Huv. exfalso.
    apply list_elem_of_lookup_2 in Hi. apply list_elem_of_filter in Hi as [Hz _].
    apply elem_of_predecessors in Huv. destruct (predecessors G v); [by inversion Huv|].
    simpl in Hz. lia.
  - intros u v _ [[]%elem_of_nil|[_ []%elem_of_nil]].
Qed.

(** The sort never runs out of iterations and never meets a graph that
    changed under it: it ends with an order of all the nodes of [G] in
    which every edge points forward, or with [NetworkXUnfeasible] on a
    graph that has a cycle. *)
Lemma topological_sort_spec :
  (∃ L, topological_sort G = Ok L ∧ NoDup L ∧ (∀ v, v ∈ L ↔ v ∈ nodes G) ∧
        (∀ i v u, L !! i = Some v → edge G u v → ∃ j, (j < i)%nat ∧ L !! j = Some u)) ∨
  (topological_sort G = Raise NetworkXUnfeasible ∧ ∃ x, path G x x).
Proof.
  destruct (topo_loop_inv sink (length (nodes G)) (indegree_map_init G)
              (zero_indegree_init G) []) as (L & mf & Hinv & Hres).
  { apply kahn_inv_init. }
  { simpl. lia. }
  destruct Hinv as [H1 H2 H3 H4 H5 H6].
  unfold topological_sort, topological_generations.
  destruct Hres as [[-> (gens & -> & <-)]|[Hne ->]].
  - left. exists (concat gens). split; [done|]. split; [done|]. split; [|done].
    intros v. split; [apply H2|]. intros Hv. apply H3; [done|].
    specialize (H4 v). rewrite lookup_empty in H4. by case_decide.
  - right. split; [done|].
    apply map_choose in Hne as (v0 & d & Hv0).
    apply (cycle_of_closed_set G (λ v, remaining G L sink [] v ≠ 0%nat) v0).
    + intros v Hv. unfold remaining in Hv.
      destruct (filter _ (predecessors G v)) as [|u l] eqn:E; [done|].
      assert (u ∈ predecessors G v) as Hu.
      { eapply (list_elem_of_filter _ (predecessors G v)). rewrite E. by left. }
      apply elem_of_predecessors in Hu. by apply (wf_ends G Hwf u v).
    + intros v Hv. unfold remaining in Hv.
      destruct (filter _ (predecessors G v)) as [|u l] eqn:E; [done|].
      assert (u ∈ filter (λ u, ¬ consumed L sink [] u v) (predecessors G v)) as Hu
        by (rewrite E; by left).
      apply list_elem_of_filter in Hu as [Hnc Hu%elem_of_predecessors].
      exists u. split; [done|]. intros Hz. apply Hnc. left.
      apply H3; [|done]. by apply (wf_ends G Hwf u v).
    + specialize (H4 v0). rewrite Hv0 in H4. by case_decide.
Qed.
End kahn.

Lemma forward_path G (L : list node) :
  wf G →
  (∀ v, v ∈ nodes G → v ∈ L) →
  (∀ i v u, L !! i = Some v → edge G u v → ∃ j, (j < i)%nat ∧ L !! j = Some u) →
  ∀ u v, path G u v → ∃ i j, (i < j)%nat ∧ L !! i = Some u ∧ L !! j = Some v.
Proof.
  intros Hwf Hall Hfwd u v Hp.
  induction Hp as [u v Huv | u w v Huw Hp (k & j & Hkj & Hk & Hj)].
  - assert (v ∈ L) as [j Hj]%list_elem_of_lookup.
    { apply Hall. by apply (wf_ends G Hwf u v). }
    destruct (Hfwd j v u Hj Huv) as (i & Hij & Hi). by exists i, j.
  - destruct (Hfwd k w u Hk Huw) as (i & Hik & Hi). exists i, j.
    split; [lia|done].
Qed.

Lemma topological_sort_acyclic G :
  wf G → acyclic G →
  ∃ L, topological_sort G = Ok L ∧ NoDup L ∧ (∀ v, v ∈ L ↔ v ∈ nodes G) ∧
       (∀ u v, path G u v → ∃ i j, (i < j)%nat ∧ L !! i = Some u ∧ L !! j = Some v).
Proof.
  intros Hwf Hac.
  destruct (topological_sort_spec G Hwf) as [(L & HL & Hnd & Hall & Hfwd)|[_ [x Hx]]].
  - exists L. split; [done|]. split; [done|]. split; [done|].
    apply forward_path; [done| |done]. intros v. apply Hall.
  - by destruct (Hac x).
Qed.

Lemma topological_sort_Ok_acyclic G L :
  wf G → topological_sort G = Ok L → acyclic G.
Proof.
  intros Hwf HL.
  destruct (topological_sort_spec G Hwf) as [(L' & HL' & Hnd & Hall & Hfwd)|[Hr _]];
    [|congruence].
  intros x Hx.
  destruct (forward_path G L' Hwf (λ v, proj2 (Hall v)) Hfwd x x Hx) as (i & j & Hij & Hi & Hj).
  pose proof (NoDup_lookup L' i j x Hnd Hi Hj). lia.
Qed.

Lemma topological_sort_cyclic G :
  wf G → ¬ acyclic G → topological_sort G = Raise NetworkXUnfeasible.
Proof.
  intros Hwf Hcyc.
  destruct (topological_sort_spec G Hwf) as [(L & HL & _)|[Hr _]]; [|done].
  destruct Hcyc. by eapply topological_sort_Ok_acyclic.
Qed.

Lemma is_directed_acyclic_graph_true G :
  wf G → (is_directed_acyclic_graph G = Ok true ↔ acyclic G).
Proof.
  intros Hwf. unfold is_directed_acyclic_graph, has_cycle, is_directed. split.
  - destruct (topological_sort G) as [L|e|] eqn:E; [|by destruct e|done].
    intros _. by eapply topological_sort_Ok_acyclic.
  - intros Hac. destruct (topological_sort_acyclic G Hwf Hac) as (L & -> & _). done.
Qed.

Lemma is_directed_acyclic_graph_total G :
  wf G → ∃ b, is_directed_acyclic_graph G = Ok b.
Proof.
  intros Hwf. unfold is_directed_acyclic_graph, has_cycle, is_directed.
  destruct (topological_sort_spec G Hwf) as [(L & -> & _)|[-> _]]; by eexists.
Qed.

(** ** Breadth-first search *)

Section bfs.
Context (neighbors : node → list node) (dom : list node) (source : node).
Context (Hdom : ∀ x y, x ∈ dom → y ∈ neighbors x → y ∈ dom).

Lemma bfs_visit_fold cs : ∀ seen next,
  NoDup seen →
  ∃ new, foldl bfs_visit (seen, next) cs = (seen ++ new, next ++ new) ∧
         NoDup (seen ++ new) ∧ (∀ x, x ∈ new → x ∈ cs) ∧
         (∀ c, c ∈ cs → c ∈ seen ++ new).
Proof.
  induction cs as [|c cs IH]; intros seen next Hnd.
  - exists []. rewrite !app_nil_r. split; [done|]. split; [done|].
    split; intros x Hx; by inversion Hx.
  - simpl. unfold bfs_visit at 2. simpl.
    destruct (decide (c ∈ seen)) as [Hin|Hnin].
    + rewrite bool_decide_eq_true_2 by done.
      destruct (IH seen next Hnd) as (new & -> & Hnd' & Hnew & Hall).
      exists new. split; [done|]. split; [done|]. split.
      * intros x Hx. right. by apply Hnew.
      * intros x [->|Hx]%elem_of_cons; [|by apply Hall].
        apply elem_of_app. by left.
    + rewrite bool_decide_eq_false_2 by done.
      destruct (IH (seen ++ [c]) (next ++ [c])) as (new & -> & Hnd' & Hnew & Hall).
      { apply NoDup_app. split; [done|]. split; [|apply NoDup_singleton].
        by intros x Hx ->%list_elem_of_singleton. }
      exists (c :: new). rewrite <-!app_assoc in *. simpl in *.
      split; [done|]. split; [done|]. split.
      * intros x [->|Hx]%elem_of_cons; [by left|]. right. by apply Hnew.
      * intros x [->|Hx]%elem_of_cons; [|by apply Hall].
        apply elem_of_app. right. by left.
Qed.

Lemma bfs_level_fold this : ∀ seen next,
  NoDup seen →
  ∃ new, foldl (λ st parent, foldl bfs_visit st (neighbors parent)) (seen, next) this
           = (seen ++ new, next ++ new) ∧
         NoDup (seen ++ new) ∧
         (∀ x, x ∈ new → ∃ p, p ∈ this ∧ x ∈ neighbors p) ∧
         (∀ p c, p ∈ this → c ∈ neighbors p → c ∈ seen ++ new).
Proof.
  induction this as [|p this IH]; intros seen next Hnd.
  - exists []. rewrite !app_nil_r. split; [done|]. split; [done|].
    split; [intros x Hx; by inversion Hx|]. intros p c Hp. by inversion Hp.
  - simpl.
    destruct (bfs_visit_fold (neighbors p) seen next Hnd) as (n1 & -> & Hnd1 & Hn1 & Hall1).
    destruct (IH (seen ++ n1) (next ++ n1) Hnd1) as (n2 & -> & Hnd2 & Hn2 & Hall2).
    exists (n1 ++ n2). rewrite !app_assoc. split; [done|]. split; [done|]. split.
    + intros x [Hx|Hx]%elem_of_app.
      * exists p. split; [by left|]. by apply Hn1.
      * destruct (Hn2 x Hx) as (q & Hq & Hxq). exists q. split; [by right|done].
    + intros q c [->|Hq]%elem_of_cons Hc.
      * apply elem_of_app. left. by apply Hall1.
      * by apply (Hall2 q c).
Qed.

Lemma bfs_level_inv seen this :
  bfs_inv neighbors dom source seen this →
  ∃ new, bfs_level neighbors seen this = (seen ++ new, new) ∧
         bfs_inv neighbors dom source (seen ++ new) new.
Proof.
  intros [H1 H2 H3 H4 H5 H6].
  destruct (bfs_level_fold this seen [] H1) as (new & Heq & Hnd & Hnew & Hall).
  exists new. split; [done|]. split.
  - done.
  - intros x [Hx|Hx]%elem_of_app; [by apply H2|].
    destruct (Hnew x Hx) as (p & Hp & Hxp). eapply Hdom; [|done]. by apply H2, H3.
  - intros x Hx. apply elem_of_app. by right.
  - intros x [Hx|Hx]%elem_of_app; [by apply H4|].
    destruct (Hnew x Hx) as (p & Hp & Hxp). eapply rtc_r; [|exact Hxp].
    by apply H4, H3.
  - apply elem_of_app. by left.
  - intros x [Hx|Hx]%elem_of_app; [|by left].
    right. intros y Hy. destruct (H6 x Hx) as [Hthis|Hcl].
    + by apply (Hall x y).
    + apply elem_of_app. left. by apply Hcl.
Qed.

Lemma bfs_loop_inv fuel : ∀ seen this,
  bfs_inv neighbors dom source seen this →
  bfs_inv neighbors dom source (bfs_loop neighbors fuel seen this).1
                               (bfs_loop neighbors fuel seen this).2 ∧
  ((length dom + (if this is [] then 0 else 1) ≤ fuel + length seen)%nat →
   (bfs_loop neighbors fuel seen this).2 = []).
Proof.
  induction fuel as [|fuel IH]; intros seen this Hinv.
  - destruct this as [|t this]; simpl; [done|]. split; [done|]. intros Hlen. exfalso.
    pose proof (bi_nodup _ _ _ _ _ Hinv) as Hnd.
    apply NoDup_submseteq with (k := dom) in Hnd; [|apply (bi_dom _ _ _ _ _ Hinv)].
    apply submseteq_length in Hnd. lia.
  - destruct this as [|t this]; simpl; [done|].
    destruct (bfs_level_inv seen (t :: this) Hinv) as (new & Heq & Hinv').
    rewrite Heq. simpl. destruct (IH _ _ Hinv') as [Hres Hstop].
    split; [done|]. intros Hlen. apply Hstop.
    rewrite length_app. destruct new; simpl; lia.
Qed.

Lemma bfs_inv_complete seen :
  bfs_inv neighbors dom source seen [] →
  ∀ x, rtc (λ a b, b ∈ neighbors a) source x → x ∈ seen.
Proof.
  intros [H1 H2 H3 H4 H5 H6]. apply rtc_ind_r; [done|].
  intros y z Hy Hyz IH.
  destruct (H6 y IH) as [[]%elem_of_nil|Hcl]. by apply Hcl.
Qed.

Lemma bfs_inv_init : source ∈ dom → bfs_inv neighbors dom source [source] [source].
Proof.
  intros Hs. split.
  - apply NoDup_singleton.
  - by intros x ->%list_elem_of_singleton.
  - done.
  - by intros x ->%list_elem_of_singleton.
  - by left.
  - intros x Hx. by left.
Qed.
End bfs.

Lemma rtc_flip_edge G v x :
  rtc (λ a b, b ∈ predecessors G a) v x ↔ rtc (edge G) x v.
Proof.
  split.
  - induction 1 as [|a b c Hab%elem_of_predecessors _ IH]; [done|].
    by eapply rtc_r.
  - intros H. induction H as [|a b c Hab _ IH]; [done|].
    eapply rtc_r; [exact IH|]. by apply elem_of_predecessors.
Qed.

(** The reverse search from [v] finds [v] and its ancestors, and nothing
    else. *)
Lemma bfs_tree_nodes_reverse G v l :
  wf G → bfs_tree_nodes G v true = Ok l →
  NoDup l ∧ v ∈ nodes G ∧ ∀ x, x ∈ l ↔ x = v ∨ ancestor G x v.
Proof.
  intros Hwf. unfold bfs_tree_nodes.
  destruct (has_node G v) eqn:Hv; [|done]. apply has_node_true in Hv.
  intros [= <-].
  assert (∀ x y, x ∈ nodes G → y ∈ predecessors G x → y ∈ nodes G) as Hdom.
  { intros x y _ Hy%elem_of_predecessors. by apply (wf_ends G Hwf y x). }
  destruct (bfs_loop_inv (predecessors G) (nodes G) v Hdom (length (nodes G)) [v] [v])
    as [Hinv Hstop]; [by apply bfs_inv_init|].
  specialize (Hstop ltac:(simpl; lia)).
  rewrite Hstop in Hinv.
  split; [apply Hinv|]. split; [done|]. intros x. unfold ancestor, path.
  rewrite <-rtc_tc, <-rtc_flip_edge. split.
  - apply (bi_reach _ _ _ _ _ Hinv).
  - by apply (bfs_inv_complete _ _ _ _ Hinv).
Qed.

Lemma wedge_sym G u v : wedge G u v → wedge G v u.
Proof. unfold wedge. tauto. Qed.

Lemma rtc_wedge_sym G u v : rtc (wedge G) u v → rtc (wedge G) v u.
Proof.
  induction 1 as [|a b c Hab _ IH]; [done|].
  eapply rtc_r; [done|]. by apply wedge_sym.
Qed.

Lemma elem_of_both_neighbors G u v :
  v ∈ successors G u ++ predecessors G u ↔ wedge G u v.
Proof. rewrite elem_of_app, elem_of_successors, elem_of_predecessors. done. Qed.

Lemma plain_bfs_spec G v :
  wf G → v ∈ nodes G →
  ∃ c, plain_bfs G v = Ok c ∧ NoDup c ∧
       ∀ x, x ∈ c ↔ x ∈ nodes G ∧ rtc (wedge G) v x.
Proof.
  intros Hwf Hv. unfold plain_bfs.
  set (nb := λ v, successors G v ++ predecessors G v).
  assert (∀ x y, x ∈ nodes G → y ∈ nb x → y ∈ nodes G) as Hdom.
  { intros x y _ [Hy|Hy]%elem_of_both_neighbors.
    - by apply (wf_ends G Hwf x y).
    - by apply (wf_ends G Hwf y x). }
  destruct (bfs_loop_inv nb (nodes G) v Hdom (length (nodes G)) [v] [v])
    as [Hinv Hstop]; [by apply bfs_inv_init|].
  specialize (Hstop ltac:(simpl; lia)).
  destruct (bfs_loop nb (length (nodes G)) [v] [v]) as [seen rest]. simpl in *. subst rest.
  exists seen. split; [done|]. split; [apply Hinv|].
  assert (∀ x, rtc (λ a b, b ∈ nb a) v x ↔ rtc (wedge G) v x) as Hrel.
  { intros x. split; apply rtc_subrel; intros a b; by apply elem_of_both_neighbors. }
  intros x. rewrite <-Hrel. split.
  - intros Hx. split; [by apply (bi_dom _ _ _ _ _ Hinv)|by apply (bi_reach _ _ _ _ _ Hinv)].
  - intros [_ Hx]. by apply (bfs_inv_complete _ _ _ _ Hinv).
Qed.

Lemma is_weakly_connected_spec G :
  wf G → nodes G ≠ [] →
  ∃ b, is_weakly_connected G = Ok b ∧ (b = true ↔ weakly_connected G).
Proof.
  intros Hwf Hne. unfold is_weakly_connected.
  destruct (nodes G) as [|v ns] eqn:E; [done|].
  assert (v ∈ nodes G) as Hv by (rewrite E; by left).
  destruct (plain_bfs_spec G v Hwf Hv) as (c & -> & Hnd & Hc).
  eexists. split; [done|]. rewrite bool_decide_eq_true, size_list_to_set by done.
  rewrite <-E. split.
  - intros Hlen u w Hu Hw.
    assert (c ≡ₚ nodes G) as Hperm.
    { apply submseteq_length_Permutation; [|lia].
      apply NoDup_submseteq; [done|]. intros x Hx. by apply Hc. }
    assert (∀ x, x ∈ nodes G → rtc (wedge G) v x) as Hall.
    { intros x Hx. apply Hc. by rewrite Hperm. }
    etrans; [apply rtc_wedge_sym, Hall|apply Hall]; done.
  - intros Hconn. apply Permutation_length, NoDup_Permutation; [done|apply Hwf|].
    intros x. rewrite Hc. split; [tauto|]. intros Hx. split; [done|]. by apply Hconn.
Qed.

(** The verdict of the tree test on a graph with at least one node. *)
Lemma is_tree_spec G :
  wf G → nodes G ≠ [] →
  ∃ b, is_tree G = Ok b ∧
       (b = true ↔ number_of_nodes G - 1 = number_of_edges G ∧ weakly_connected G).
Proof.
  intros Hwf Hne. unfold is_tree.
  rewrite bool_decide_eq_false_2.
  2:{ unfold number_of_nodes. destruct (nodes G); [done|]. simpl. lia. }
  destruct (decide (number_of_nodes G - 1 = number_of_edges G)) as [He|He].
  - rewrite bool_decide_eq_true_2 by done.
    destruct (is_weakly_connected_spec G Hwf Hne) as (b & -> & Hb).
    exists b. split; [done|]. rewrite Hb. tauto.
  - rewrite bool_decide_eq_false_2 by done. exists false. split; [done|].
    split; [done|]. tauto.
Qed.

(** ** The representation invariant is preserved *)

Lemma wf_empty_graph : wf empty_graph.
Proof. split; [constructor|constructor|]. intros u v []%elem_of_nil. Qed.

Lemma nodes_add_node G n :
  nodes (add_node G n) = if decide (n ∈ nodes G) then nodes G else nodes G ++ [n].
Proof.
  unfold add_node, has_node. destruct (decide (n ∈ nodes G)).
  - by rewrite bool_decide_eq_true_2.
  - rewrite bool_decide_eq_false_2 by done. unfold nodes. simpl. by rewrite fmap_app.
Qed.

Lemma g_edges_add_node G n : g_edges (add_node G n) = g_edges G.
Proof. unfold add_node. by destruct (has_node G n). Qed.

Lemma elem_of_nodes_add_node G n x : x ∈ nodes (add_node G n) ↔ x ∈ nodes G ∨ x = n.
Proof.
  rewrite nodes_add_node. destruct (decide (n ∈ nodes G)).
  - naive_solver.
  - rewrite elem_of_app, list_elem_of_singleton. done.
Qed.

Lemma wf_add_node G n : wf G → wf (add_node G n).
Proof.
  intros [H1 H2 H3]. split.
  - rewrite nodes_add_node. destruct (decide (n ∈ nodes G)); [done|].
    apply NoDup_app. split; [done|]. split; [|apply NoDup_singleton].
    by intros x Hx ->%list_elem_of_singleton.
  - by rewrite g_edges_add_node.
  - intros u v. rewrite g_edges_add_node, !elem_of_nodes_add_node. naive_solver.
Qed.

Lemma nodes_add_edge G u v : nodes (add_edge G u v) = nodes (add_node (add_node G u) v).
Proof. unfold add_edge. by destruct (bool_decide _). Qed.

Lemma elem_of_nodes_add_edge G u v x :
  x ∈ nodes (add_edge G u v) ↔ x ∈ nodes G ∨ x = u ∨ x = v.
Proof. rewrite nodes_add_edge, !elem_of_nodes_add_node. tauto. Qed.

Lemma elem_of_g_edges_add_edge G u v e :
  e ∈ g_edges (add_edge G u v) ↔ e ∈ g_edges G ∨ e = (u, v).
Proof.
  unfold add_edge. destruct (bool_decide _) eqn:E.
  - apply bool_decide_eq_true in E. rewrite !g_edges_add_node in *. naive_solver.
  - simpl. rewrite !g_edges_add_node, elem_of_app, list_elem_of_singleton. done.
Qed.

Lemma wf_add_edge G u v : wf G → wf (add_edge G u v).
Proof.
  intros Hwf. pose proof (wf_add_node _ v (wf_add_node _ u Hwf)) as [H1 H2 H3].
  split.
  - by rewrite nodes_add_edge.
  - unfold add_edge. destruct (bool_decide _) eqn:E; [done|].
    apply bool_decide_eq_false in E. simpl.
    apply NoDup_app. split; [done|]. split; [|apply NoDup_singleton].
    by intros x Hx ->%list_elem_of_singleton.
  - intros a b [Hab| [= -> ->]]%elem_of_g_edges_add_edge.
    + rewrite !elem_of_nodes_add_edge. rewrite !g_edges_add_node in H3.
      destruct (wf_ends G Hwf a b Hab). tauto.
    + rewrite !elem_of_nodes_add_edge. tauto.
Qed.

Lemma wf_add_edges_from l : ∀ G, wf G → wf (add_edges_from G l).
Proof.
  unfold add_edges_from. induction l as [|e l IH]; intros G Hwf; [done|].
  simpl. apply IH. by apply wf_add_edge.
Qed.

Lemma elem_of_g_edges_add_edges_from l : ∀ G e,
  e ∈ g_edges (add_edges_from G l) ↔ e ∈ g_edges G ∨ e ∈ l.
Proof.
  unfold add_edges_from. induction l as [|[a b] l IH]; intros G e; simpl.
  - rewrite elem_of_nil. tauto.
  - rewrite IH, elem_of_g_edges_add_edge, elem_of_cons. tauto.
Qed.

Lemma elem_of_nodes_add_edges_from l : ∀ G x,
  x ∈ nodes (add_edges_from G l) ↔ x ∈ nodes G ∨ ∃ e, e ∈ l ∧ (x = e.1 ∨ x = e.2).
Proof.
  unfold add_edges_from. induction l as [|[a b] l IH]; intros G x; simpl.
  - split; [tauto|]. intros [?|(e & []%elem_of_nil & _)]; done.
  - rewrite IH, elem_of_nodes_add_edge. split.
    + intros [[?|[->| ->]]|(e & He & Hx)].
      * by left.
      * right. exists (a, b). split; [by left|]. by left.
      * right. exists (a, b). split; [by left|]. by right.
      * right. exists e. split; [by right|done].
    + intros [?|(e & [->|He]%elem_of_cons & Hx)].
      * tauto.
      * simpl in Hx. tauto.
      * right. by exists e.
Qed.

Lemma filter_fst {B} (P : node → Prop) (Q : node * B → Prop)
    `{!∀ x, Decision (P x), !∀ x, Decision (Q x)} (l : list (node * B)) :
  (∀ x, Q x ↔ P x.1) → (filter Q l).*1 = filter P (l.*1).
Proof.
  intros HPQ. induction l as [|[n a] l IH]; [done|].
  rewrite fmap_cons, !filter_cons. simpl.
  destruct (decide (P n)) as [Hp|Hp], (decide (Q (n, a))) as [Hq|Hq].
  - rewrite fmap_cons. simpl. f_equal. exact IH.
  - destruct Hq. by apply HPQ.
  - destruct Hp. by apply (HPQ (n, a)).
  - exact IH.
Qed.

Lemma nodes_subgraph_copy G ns : nodes (subgraph_copy G ns) = filter (λ n, n ∈ ns) (nodes G).
Proof. unfold nodes, subgraph_copy. simpl. by apply filter_fst. Qed.

Lemma elem_of_g_edges_subgraph_copy G ns u v :
  wf G →
  (u, v) ∈ g_edges (subgraph_copy G ns) ↔ edge G u v ∧ u ∈ ns ∧ v ∈ ns.
Proof.
  intros Hwf. unfold subgraph_copy. simpl.
  rewrite list_elem_of_filter, elem_of_edges. simpl. split; [tauto|].
  intros (He & Hu & Hv). split; [done|]. split; [|done]. by apply (wf_ends G Hwf u v).
Qed.

Lemma wf_subgraph_copy G ns : wf G → wf (subgraph_copy G ns).
Proof.
  intros Hwf. split.
  - rewrite nodes_subgraph_copy. apply NoDup_filter, Hwf.
  - simpl. apply NoDup_filter. by apply NoDup_edges.
  - intros u v (He & Hu & Hv)%elem_of_g_edges_subgraph_copy; [|done].
    rewrite nodes_subgraph_copy, !list_elem_of_filter.
    destruct (wf_ends G Hwf u v He). tauto.
Qed.

Lemma nodes_remove_node G n : nodes (remove_node G n) = filter (λ x, x ≠ n) (nodes G).
Proof. unfold nodes, remove_node. simpl. by apply filter_fst. Qed.

Lemma wf_remove_node G n : wf G → wf (remove_node G n).
Proof.
  intros [H1 H2 H3]. split.
  - rewrite nodes_remove_node. by apply NoDup_filter.
  - simpl. by apply NoDup_filter.
  - intros u v. simpl. rewrite list_elem_of_filter, nodes_remove_node, !list_elem_of_filter.
    simpl. intros [[Hu Hv] He]. destruct (H3 u v He). tauto.
Qed.

Lemma wf_remove_nodes_from ns : ∀ G, wf G → wf (remove_nodes_from G ns).
Proof.
  unfold remove_nodes_from. induction ns as [|n ns IH]; intros G Hwf; [done|].
  simpl. apply IH. by apply wf_remove_node.
Qed.

Lemma nodes_remove_nodes_from ns : ∀ G x,
  x ∈ nodes (remove_nodes_from G ns) ↔ x ∈ nodes G ∧ x ∉ ns.
Proof.
  unfold remove_nodes_from. induction ns as [|n ns IH]; intros G x; simpl.
  - rewrite elem_of_nil. tauto.
  - rewrite IH, nodes_remove_node, list_elem_of_filter, not_elem_of_cons. tauto.
Qed.

Lemma g_edges_remove_nodes_from ns : ∀ G e,
  e ∈ g_edges (remove_nodes_from G ns) → e ∈ g_edges G.
Proof.
  unfold remove_nodes_from. induction ns as [|n ns IH]; intros G e; simpl; [done|].
  intros He%IH. simpl in He. by apply list_elem_of_filter in He as [_ He].
Qed.

(** Setting attributes leaves the nodes and the edges as they are. *)
Lemma fmap_fst_attr (f : node * attrs → node * attrs) (l : list (node * attrs)) :
  (∀ na, (f na).1 = na.1) → (f <$> l).*1 = l.*1.
Proof.
  intros Hf. induction l as [|na l IH]; [done|].
  rewrite !fmap_cons, Hf. f_equal. exact IH.
Qed.

Lemma nodes_set_gauge_all G g : nodes (set_gauge_all G g) = nodes G.
Proof. unfold nodes. simpl. by apply fmap_fst_attr. Qed.

Lemma nodes_set_calibrate_all G c : nodes (set_calibrate_all G c) = nodes G.
Proof. unfold nodes. simpl. by apply fmap_fst_attr. Qed.

Lemma nodes_set_node_attrs G n g c : nodes (set_node_attrs G n g c) = nodes G.
Proof.
  unfold nodes. simpl. apply fmap_fst_attr. intros na. by destruct (decide (na.1 = n)).
Qed.

Lemma wf_same_structure G G' :
  nodes G' = nodes G → g_edges G' = g_edges G → wf G → wf G'.
Proof. intros Hn He [H1 H2 H3]. split; rewrite ?Hn, ?He; done. Qed.

(** ** Computations on the store *)

Lemma bind_Ok {A B} (m : M A) (f : A → M B) w r :
  (m ≫= f) w = Ok r ↔ ∃ a w1, m w = Ok (a, w1) ∧ f a w1 = Ok r.
Proof.
  unfold mbind, M_bind. split.
  - destruct (m w) as [[a w1]| |]; [|done|done]. intros Hf. by exists a, w1.
  - intros (a & w1 & -> & Hf). done.
Qed.

Lemma lift_Ok {A} (r : result A) w a w' : lift r w = Ok (a, w') ↔ r = Ok a ∧ w' = w.
Proof. unfold lift. destruct r; naive_solver. Qed.

Lemma read_graph_Ok l w G w' :
  read_graph l w = Ok (G, w') ↔ objs w !! l = Some (OGraph G) ∧ w' = w.
Proof. unfold read_graph. destruct (objs w !! l) as [[]|]; naive_solver. Qed.

Lemma read_dict_Ok l w d w' :
  read_dict l w = Ok (d, w') ↔ objs w !! l = Some (ODict d) ∧ w' = w.
Proof. unfold read_dict. destruct (objs w !! l) as [[]|]; naive_solver. Qed.

Lemma read_graph_lookup l w G : objs w !! l = Some (OGraph G) → read_graph l w = Ok (G, w).
Proof. intros. by apply read_graph_Ok. Qed.

Lemma read_dict_lookup l w d : objs w !! l = Some (ODict d) → read_dict l w = Ok (d, w).
Proof. intros. by apply read_dict_Ok. Qed.

Lemma check_network_eq w net G :
  objs w !! net = Some (OGraph G) →
  check_network net w =
    match is_directed_acyclic_graph G with
    | Ok true => match is_tree G with
                 | Ok b => Ok (b, w)
                 | Raise e => Raise e
                 | OutOfFuel => OutOfFuel
                 end
    | Ok false => Ok (false, w)
    | Raise e => Raise e
    | OutOfFuel => OutOfFuel
    end.
Proof.
  intros Hnet. unfold check_network, mbind, M_bind.
  rewrite (read_graph_lookup _ _ _ Hnet). unfold lift.
  destruct (is_directed_acyclic_graph G) as [[]| |]; simpl; try done.
  by destruct (is_tree G) as [[]| |].
Qed.

Lemma topological_sort_null G : nodes G = [] → topological_sort G = Ok [].
Proof.
  intros Hn. unfold topological_sort, topological_generations,
    indegree_map_init, zero_indegree_init. rewrite Hn. done.
Qed.

Lemma check_network_null w net G :
  objs w !! net = Some (OGraph G) → nodes G = [] →
  check_network net w = Raise NetworkXPointlessConcept.
Proof.
  intros Hnet Hn. rewrite (check_network_eq w net G Hnet).
  unfold is_directed_acyclic_graph, has_cycle, is_directed.
  rewrite (topological_sort_null G Hn). simpl.
  unfold is_tree, number_of_nodes. rewrite Hn. done.
Qed.

Lemma check_network_true_spec (w : world) (net : loc) (G : DiGraph) :
  objs w !! net = Some (OGraph G) → wf G →
  check_network net w = Ok (true, w) ↔
    acyclic G ∧ is_directed G = true ∧ weakly_connected G ∧
    number_of_edges G = number_of_nodes G - 1.
Proof.
  intros Hnet Hwf. destruct (decide (nodes G = [])) as [Hn|Hn].
  - rewrite (check_network_null w net G Hnet Hn). split; [done|].
    intros (_ & _ & _ & He). unfold number_of_edges, number_of_nodes in He.
    rewrite Hn in He. simpl in He. lia.
  - rewrite (check_network_eq w net G Hnet).
    destruct (is_directed_acyclic_graph_total G Hwf) as [b Hb].
    pose proof (is_directed_acyclic_graph_true G Hwf) as Hdag.
    destruct (is_tree_spec G Hwf Hn) as (t & Ht & Htree).
    rewrite Hb, Ht in *. destruct b.
    + split.
      * intros [= ->]. split; [by apply Hdag|]. split; [done|].
        assert (number_of_nodes G - 1 = number_of_edges G ∧ weakly_connected G)
          as [He Hc] by (by apply Htree).
        split; [done|lia].
      * intros (_ & _ & Hc & He).
        assert (t = true) as -> by (apply Htree; split; [lia|done]). done.
    + split; [done|]. intros (Hac & _). apply Hdag in Hac. done.
Qed.

(** C3.  On every well-formed graph object, [check_network] returns [True]
    exactly when the graph is acyclic, directed, weakly connected and has
    one edge less than it has nodes. *)
Theorem check_network_true_iff (w : world) (net : loc) (G : DiGraph) :
  objs w !! net = Some (OGraph G) → wf G →
  check_network net w = Ok (true, w) ↔
    acyclic G ∧ is_directed G = true ∧ weakly_connected G ∧
    number_of_edges G = number_of_nodes G - 1.
Proof. apply check_network_true_spec. Qed.

Lemma check_network_true_iff_witness :
  check_network 0%nat example_world = Ok (true, example_world) ↔
    acyclic example_net ∧ is_directed example_net = true ∧ weakly_connected example_net ∧
    number_of_edges example_net = number_of_nodes example_net - 1.
Proof.
  apply (check_network_true_iff example_world 0%nat example_net).
  - reflexivity.
  - apply wf_add_edges_from, wf_empty_graph.
Defined.

(** ** Reading files *)

Lemma read_edges_malformed_from lines acc :
  (∃ line, line ∈ lines ∧ (length (split line) < 2)%nat) →
  foldM (λ edges line,
           let p := split line in
           a ← getitem p 0;
           b ← getitem p 1;
           Ok (edges ++ [(NStr a, NStr b)])) acc lines = Raise IndexError.
Proof.
  revert acc. induction lines as [|line lines IH]; intros acc (bad & Hin & Hbad).
  - by inversion Hin.
  - cbn [foldM]. destruct (split line) as [|a [|b rest]] eqn:E; [done|done|].
    cbn. apply IH. exists bad. split; [|done].
    apply elem_of_cons in Hin as [->|Hin]; [|done].
    rewrite E in Hbad. simpl in Hbad. lia.
Qed.

Lemma read_edges_malformed lines :
  (∃ line, line ∈ lines ∧ (length (split line) < 2)%nat) →
  read_edges lines = Raise IndexError.
Proof. apply read_edges_malformed_from. Qed.

(** C4.  A topology file with a line of fewer than two tokens makes the
    loader raise ([IndexError], the malformed-input error); no graph is
    returned, by [get_raw_network] or by [get_network]. *)
Theorem get_raw_network_malformed (w : world) (path content : string) :
  files w !! path = Some content →
  (∃ line, line ∈ file_lines content ∧ (length (split line) < 2)%nat) →
  get_raw_network path w = Raise IndexError ∧ get_network path w = Raise IndexError.
Proof.
  intros Hfile Hbad.
  assert (get_raw_network path w = Raise IndexError) as Hraw.
  { unfold get_raw_network, mbind, M_bind, read_file. rewrite Hfile.
    rewrite (read_edges_malformed _ Hbad). done. }
  split; [done|]. unfold get_network, mbind, M_bind. by rewrite Hraw.
Qed.

Lemma get_raw_network_malformed_witness :
  get_raw_network "bad" example_world = Raise IndexError ∧
  get_network "bad" example_world = Raise IndexError.
Proof.
  apply (get_raw_network_malformed example_world "bad"
           ("1 2" +:+ String LF ("3" +:+ String LF EmptyString))).
  - reflexivity.
  - exists ("3" +:+ String LF EmptyString). split; [|vm_compute; lia].
    vm_compute. right. left.
Defined.

(** C10.  On a graph without nodes [check_network] raises
    [NetworkXPointlessConcept] (from [nx.is_tree]) instead of returning a
    verdict, and so does [get_network] on an empty topology file. *)
Theorem check_network_null_graph :
  (∀ (w : world) (net : loc) (G : DiGraph),
     objs w !! net = Some (OGraph G) → nodes G = [] →
     check_network net w = Raise NetworkXPointlessConcept) ∧
  (∀ (w : world) (path : string),
     files w !! path = Some EmptyString →
     get_network path w = Raise NetworkXPointlessConcept).
Proof.
  split; [apply check_network_null|].
  intros w path Hfile.
  unfold get_network, get_raw_network, mbind at 1 2 3, M_bind, read_file. rewrite Hfile.
  simpl. unfold alloc.
  rewrite (check_network_null _ _ empty_graph); [done| |done].
  simpl. by rewrite lookup_app_r, Nat.sub_diag.
Qed.

Lemma check_network_null_graph_witness :
  check_network 0%nat (World [OGraph empty_graph] ∅) = Raise NetworkXPointlessConcept ∧
  get_network "empty" example_world = Raise NetworkXPointlessConcept.
Proof.
  split.
  - apply (proj1 check_network_null_graph _ _ empty_graph); reflexivity.
  - apply (proj2 check_network_null_graph). reflexivity.
Defined.

(** The first two tokens of each line. *)
Lemma read_gauge_dict_pairs lines pairs :
  Forall2 (λ line kv, ∃ rest, split line = kv.1 :: kv.2 :: rest) lines pairs →
  read_gauge_dict lines = Ok (dict_of_pairs pairs).
Proof.
  unfold read_gauge_dict, dict_of_pairs. generalize (@nil (string * string)).
  intros acc H. revert acc.
  induction H as [|line [k v] lines pairs (rest & Hs) _ IH]; intros acc; [done|].
  cbn [foldM foldl]. simpl in Hs. rewrite Hs. cbn. apply IH.
Qed.

Lemma Forall2_first_two lines :
  (∀ line, line ∈ lines → (2 ≤ length (split line))%nat) →
  ∃ pairs, Forall2 (λ line (kv : string * string),
                      ∃ rest, split line = kv.1 :: kv.2 :: rest) lines pairs.
Proof.
  induction lines as [|line lines IH]; intros Hall.
  - exists []. constructor.
  - destruct IH as [pairs Hp]; [intros l Hl; apply Hall; by right|].
    specialize (Hall line ltac:(by left)).
    destruct (split line) as [|k [|v rest]] eqn:E; simpl in Hall; try lia.
    exists ((k, v) :: pairs). constructor; [|done]. exists rest. by rewrite E.
Qed.

Lemma read_gauge_dict_malformed lines :
  (∃ line, line ∈ lines ∧ (length (split line) < 2)%nat) →
  read_gauge_dict lines = Raise IndexError.
Proof.
  unfold read_gauge_dict. generalize (@nil (string * string)).
  induction lines as [|line lines IH]; intros acc (bad & Hin & Hbad).
  - by inversion Hin.
  - cbn [foldM]. destruct (split line) as [|a [|b rest]] eqn:E; [done|done|].
    cbn. apply IH. exists bad. split; [|done].
    apply elem_of_cons in Hin as [->|Hin]; [|done].
    rewrite E in Hbad. simpl in Hbad. lia.
Qed.

(** C9.  [create_stream_gauge_dictionary] opens and parses the file: a
    missing file raises [FileNotFoundError] and a line of fewer than two
    tokens raises [IndexError].  On a file whose lines all hold two
    tokens it builds the mapping from the first two tokens of every line,
    later lines overwriting earlier ones, and returns [None]: no call
    ever returns a dictionary. *)
Theorem create_stream_gauge_dictionary_returns_None (w : world) (path : string) :
  (∀ d w', create_stream_gauge_dictionary path w ≠ Ok (PyDict d, w')) ∧
  (files w !! path = None →
   create_stream_gauge_dictionary path w = Raise FileNotFoundError) ∧
  (∀ content, files w !! path = Some content →
     create_stream_gauge_dictionary path w
       = match read_gauge_dict (file_lines content) with
         | Ok _ => Ok (PyNone, w)
         | Raise e => Raise e
         | OutOfFuel => OutOfFuel
         end ∧
     ((∃ line, line ∈ file_lines content ∧ (length (split line) < 2)%nat) →
      create_stream_gauge_dictionary path w = Raise IndexError) ∧
     ((∀ line, line ∈ file_lines content → (2 ≤ length (split line))%nat) →
      ∃ pairs,
        Forall2 (λ line (kv : string * string), ∃ rest, split line = kv.1 :: kv.2 :: rest)
                (file_lines content) pairs ∧
        read_gauge_dict (file_lines content) = Ok (dict_of_pairs pairs) ∧
        create_stream_gauge_dictionary path w = Ok (PyNone, w))).
Proof.
  assert (∀ content, files w !! path = Some content →
            create_stream_gauge_dictionary path w
              = match read_gauge_dict (file_lines content) with
                | Ok _ => Ok (PyNone, w)
                | Raise e => Raise e
                | OutOfFuel => OutOfFuel
                end) as Heq.
  { intros content Hfile. unfold create_stream_gauge_dictionary, mbind, M_bind, read_file.
    rewrite Hfile. unfold lift. by destruct (read_gauge_dict _). }
  assert (files w !! path = None →
          create_stream_gauge_dictionary path w = Raise FileNotFoundError) as Hmiss.
  { intros Hfile. unfold create_stream_gauge_dictionary, mbind, M_bind, read_file.
    by rewrite Hfile. }
  split; [|split; [done|]].
  - intros d w'. destruct (files w !! path) as [content|] eqn:Hfile.
    + rewrite (Heq content eq_refl). by destruct (read_gauge_dict _).
    + by rewrite Hmiss.
  - intros content Hfile. split; [by apply Heq|]. split.
    + intros Hbad. by rewrite (Heq content Hfile), (read_gauge_dict_malformed _ Hbad).
    + intros Hall. destruct (Forall2_first_two _ Hall) as [pairs Hp].
      exists pairs. split; [done|]. split; [by apply read_gauge_dict_pairs|].
      by rewrite (Heq content Hfile), (read_gauge_dict_pairs _ _ Hp).
Qed.

Lemma create_stream_gauge_dictionary_returns_None_witness :
  create_stream_gauge_dictionary "missing" example_world = Raise FileNotFoundError ∧
  create_stream_gauge_dictionary "bad" example_world = Raise IndexError ∧
  (∃ pairs,
     Forall2 (λ line (kv : string * string), ∃ rest, split line = kv.1 :: kv.2 :: rest)
             (file_lines ("g1 1" +:+ String LF ("g2 2" +:+ String LF EmptyString))) pairs ∧
     read_gauge_dict (file_lines ("g1 1" +:+ String LF ("g2 2" +:+ String LF EmptyString)))
       = Ok (dict_of_pairs pairs) ∧
     create_stream_gauge_dictionary "gauges" example_world = Ok (PyNone, example_world)) ∧
  ∀ d w', create_stream_gauge_dictionary "gauges" example_world ≠ Ok (PyDict d, w').
Proof.
  split; [|split; [|split]].
  - destruct (create_stream_gauge_dictionary_returns_None example_world "missing")
      as (_ & H & _).
    apply H. reflexivity.
  - destruct (create_stream_gauge_dictionary_returns_None example_world "bad")
      as (_ & _ & H).
    destruct (H ("1 2" +:+ String LF ("3" +:+ String LF EmptyString)) eq_refl)
      as (_ & Hbad & _).
    apply Hbad. exists ("3" +:+ String LF EmptyString). split; [|vm_compute; lia].
    vm_compute. right. left.
  - destruct (create_stream_gauge_dictionary_returns_None example_world "gauges")
      as (_ & _ & H).
    destruct (H ("g1 1" +:+ String LF ("g2 2" +:+ String LF EmptyString)) eq_refl)
      as (_ & _ & Hok).
    apply Hok. intros line Hin. vm_compute in Hin.
    repeat (apply elem_of_cons in Hin as [->|Hin]; [vm_compute; lia|]).
    by inversion Hin.
  - apply (create_stream_gauge_dictionary_returns_None example_world "gauges").
Defined.

(** ** Sorting by position in the topological order *)

Section sorted_props.
Context {A : Type} (key : A → nat).

Lemma insert_by_perm x l : insert_by key x l ≡ₚ x :: l.
Proof.
  induction l as [|y l IH]; [done|]. simpl.
  destruct (decide (key x ≤ key y)%nat); [done|].
  rewrite IH. apply perm_swap.
Qed.

Lemma sorted_by_perm l : sorted_by key l ≡ₚ l.
Proof.
  induction l as [|x l IH]; [done|]. simpl.
  rewrite insert_by_perm. by rewrite IH.
Qed.

Lemma insert_by_sorted x l :
  StronglySorted (λ a b, key a ≤ key b)%nat l →
  StronglySorted (λ a b, key a ≤ key b)%nat (insert_by key x l).
Proof.
  induction 1 as [|y l Hs IH Hall]; simpl.
  - repeat constructor.
  - destruct (decide (key x ≤ key y)%nat) as [Hle|Hgt].
    + constructor; [by constructor|]. constructor; [done|].
      eapply Forall_impl; [exact Hall|]. simpl. intros z Hz. lia.
    + constructor; [done|].
      apply Forall_forall. intros z Hz. rewrite insert_by_perm in Hz.
      apply elem_of_cons in Hz as [->|Hz]; [lia|].
      by eapply Forall_forall in Hall.
Qed.

Lemma sorted_by_sorted l : StronglySorted (λ a b, key a ≤ key b)%nat (sorted_by key l).
Proof.
  induction l as [|x l IH]; simpl; [constructor|]. by apply insert_by_sorted.
Qed.

Lemma StronglySorted_lookup (l : list A) i j x y :
  StronglySorted (λ a b, key a ≤ key b)%nat l →
  l !! i = Some x → l !! j = Some y → (i < j)%nat → (key x ≤ key y)%nat.
Proof.
  intros Hs. revert i j. induction Hs as [|a l Hs IH Hall]; intros i j Hi Hj Hij.
  - by rewrite lookup_nil in Hi.
  - destruct j as [|j]; [lia|]. simpl in Hj. destruct i as [|i].
    + simpl in Hi. injection Hi as ->.
      eapply Forall_forall in Hall; [exact Hall|]. by eapply list_elem_of_lookup_2.
    + simpl in Hi. apply (IH i j); [done|done|lia].
Qed.
End sorted_props.

Lemma list_index_lookup (L : list node) i x :
  NoDup L → L !! i = Some x → list_index L x = Ok i.
Proof.
  intros Hnd. revert i. induction Hnd as [|y L Hy Hnd IH]; intros i Hi.
  - by rewrite lookup_nil in Hi.
  - simpl. destruct i as [|i]; simpl in Hi.
    + injection Hi as ->. by rewrite decide_True.
    + rewrite decide_False.
      * by rewrite (IH i Hi).
      * intros ->. apply Hy. by eapply list_elem_of_lookup_2.
Qed.

Lemma mapM_keyed (L ns : list node) :
  NoDup L → (∀ x, x ∈ ns → x ∈ L) →
  ∃ keyed, mapM (λ x, i ← list_index L x; Ok (i, x)) ns = Ok keyed ∧
           keyed.*2 = ns ∧
           ∀ i x, (i, x) ∈ keyed → L !! i = Some x.
Proof.
  intros Hnd. induction ns as [|x ns IH]; intros Hall.
  - exists []. split; [done|]. split; [done|]. intros i x []%elem_of_nil.
  - destruct IH as (keyed & Hk & Hsnd & Hlk); [intros y Hy; apply Hall; by right|].
    destruct (proj1 (list_elem_of_lookup L x)) as [i Hi]; [apply Hall; by left|].
    exists ((i, x) :: keyed). split; [|split].
    + cbn [mapM]. rewrite (list_index_lookup L i x Hnd Hi).
      cbn [mbind result_bind]. fold (mapM (λ x, i ← list_index L x; Ok (i, x)) ns).
      by rewrite Hk.
    + rewrite fmap_cons. simpl. f_equal. exact Hsnd.
    + intros j y [[= -> ->]|Hin]%elem_of_cons; [done|]. by apply Hlk.
Qed.

Lemma sort_node_eq w net G ns :
  objs w !! net = Some (OGraph G) →
  sort_node net ns w =
    match topological_sort G with
    | Ok L =>
        match mapM (λ x, i ← list_index L x; Ok (i, x)) ns with
        | Ok keyed => Ok ((sorted_by fst keyed).*2, w)
        | Raise e => Raise e
        | OutOfFuel => OutOfFuel
        end
    | Raise e => Raise e
    | OutOfFuel => OutOfFuel
    end.
Proof.
  intros Hnet. unfold sort_node, mbind at 1 2 3, M_bind.
  rewrite (read_graph_lookup _ _ _ Hnet). unfold lift.
  destruct (topological_sort G) as [L| |]; [|done|done].
  by destruct (mapM _ ns).
Qed.

(** C7.  On an acyclic network [sort_node] returns the given nodes
    reordered so that [a] comes before [b] whenever the network has a
    directed path from [a] to [b]; on a network with a cycle it raises
    [NetworkXUnfeasible]. *)
Theorem sort_node_topological (w : world) (net : loc) (G : DiGraph) (ns : list node) :
  objs w !! net = Some (OGraph G) → wf G → (∀ x, x ∈ ns → x ∈ nodes G) →
  (acyclic G →
   ∃ res, sort_node net ns w = Ok (res, w) ∧ res ≡ₚ ns ∧
          ∀ a b i j, path G a b → res !! i = Some a → res !! j = Some b → (i < j)%nat) ∧
  (¬ acyclic G → sort_node net ns w = Raise NetworkXUnfeasible).
Proof.
  intros Hnet Hwf Hns. rewrite (sort_node_eq w net G ns Hnet). split.
  - intros Hac. destruct (topological_sort_acyclic G Hwf Hac) as (L & -> & Hnd & Hall & Hfwd).
    destruct (mapM_keyed L ns Hnd) as (keyed & -> & Hsnd & Hlk).
    { intros x Hx. by apply Hall, Hns. }
    eexists. split; [done|]. split.
    { rewrite sorted_by_perm. by rewrite Hsnd. }
    intros a b i j Hab Hi Hj.
    apply list_lookup_fmap_Some in Hi as ([ka a'] & ? & Hi); simpl in *; subst a'.
    apply list_lookup_fmap_Some in Hj as ([kb b'] & ? & Hj); simpl in *; subst b'.
    assert (L !! ka = Some a) as Hka.
    { apply Hlk. rewrite <-(sorted_by_perm fst keyed). by eapply list_elem_of_lookup_2. }
    assert (L !! kb = Some b) as Hkb.
    { apply Hlk. rewrite <-(sorted_by_perm fst keyed). by eapply list_elem_of_lookup_2. }
    destruct (Hfwd a b Hab) as (ia & ib & Hlt & Hia & Hib).
    pose proof (NoDup_lookup L _ _ _ Hnd Hka Hia). subst ia.
    pose proof (NoDup_lookup L _ _ _ Hnd Hkb Hib). subst ib.
    destruct (decide (i < j)%nat) as [|Hge]; [done|]. exfalso.
    destruct (decide (i = j)) as [->|Hne].
    + rewrite Hi in Hj. injection Hj as -> _. lia.
    + pose proof (StronglySorted_lookup fst _ j i _ _ (sorted_by_sorted fst keyed) Hj Hi) as Hle.
      simpl in Hle. lia.
  - intros Hcyc. by rewrite (topological_sort_cyclic G Hwf Hcyc).
Qed.

Lemma sort_node_topological_witness :
  ∃ res, sort_node 0%nat [NInt 3; NInt 5; NInt 1] example_world = Ok (res, example_world) ∧
         res ≡ₚ [NInt 3; NInt 5; NInt 1] ∧
         ∀ a b i j, path example_net a b → res !! i = Some a → res !! j = Some b →
                    (i < j)%nat.
Proof.
  assert (wf example_net) as Hwf by apply wf_add_edges_from, wf_empty_graph.
  apply (sort_node_topological example_world 0%nat example_net).
  - reflexivity.
  - exact Hwf.
  - intros x Hx. vm_compute.
    repeat (apply elem_of_cons in Hx as [->|Hx]; [set_solver|]). by inversion Hx.
  - apply (topological_sort_Ok_acyclic example_net
             [NInt 1; NInt 2; NInt 3; NInt 5; NInt 4] Hwf).
    vm_compute. reflexivity.
Defined.

(** ** Upstream and downstream subnetworks *)

Lemma get_up_streem_network_eq w net G v :
  objs w !! net = Some (OGraph G) →
  get_up_streem_network net v w =
    match bfs_tree_nodes G v true with
    | Ok up => Ok (length (objs w),
                   World (objs w ++ [OGraph (subgraph_copy G up)]) (files w))
    | Raise e => Raise e
    | OutOfFuel => OutOfFuel
    end.
Proof.
  intros Hnet. unfold get_up_streem_network, mbind, M_bind.
  rewrite (read_graph_lookup _ _ _ Hnet). unfold lift.
  by destruct (bfs_tree_nodes G v true).
Qed.

Lemma bfs_tree_nodes_total G v :
  v ∈ nodes G → ∃ up, bfs_tree_nodes G v true = Ok up.
Proof.
  intros Hv. unfold bfs_tree_nodes. rewrite (proj2 (has_node_true G v) Hv). by eexists.
Qed.

(** The nodes of the upstream subgraph of [v]: [v] and its ancestors. *)
Lemma upstream_nodes G v up :
  wf G → bfs_tree_nodes G v true = Ok up →
  ∀ x, x ∈ nodes (subgraph_copy G up) ↔ x = v ∨ ancestor G x v.
Proof.
  intros Hwf Hup x.
  destruct (bfs_tree_nodes_reverse G v up Hwf Hup) as (_ & Hv & Hmem).
  rewrite nodes_subgraph_copy, list_elem_of_filter, Hmem. split; [tauto|].
  intros H. split; [done|]. destruct H as [->|Hanc]; [done|].
  by apply (path_nodes G x v Hwf).
Qed.

(** C1.  For a node [v] of the network the upstream subnetwork is
    returned and holds [v] and nothing but [v] and its ancestors; the
    downstream operation, however, subtracts the upstream graph object
    from a set of nodes and raises [TypeError]: it returns no graph. *)
Theorem get_downstream_network_raises (w : world) (net : loc) (G : DiGraph) (v : node) :
  objs w !! net = Some (OGraph G) → wf G → v ∈ nodes G →
  (∃ r w' U, get_up_streem_network net v w = Ok (r, w') ∧
             objs w' !! r = Some (OGraph U) ∧ v ∈ nodes U ∧
             ∀ x, x ∈ nodes U → x = v ∨ ancestor G x v) ∧
  get_downstream_network net v w = Raise TypeError.
Proof.
  intros Hnet Hwf Hv.
  destruct (bfs_tree_nodes_total G v Hv) as [up Hup].
  pose proof (get_up_streem_network_eq w net G v Hnet) as Heq. rewrite Hup in Heq.
  split.
  - eexists _, _, (subgraph_copy G up). split; [exact Heq|]. split.
    + simpl. by rewrite lookup_app_r, Nat.sub_diag.
    + split; [apply (upstream_nodes G v up Hwf Hup); by left|].
      intros x. by rewrite (upstream_nodes G v up Hwf Hup).
  - unfold get_downstream_network, mbind at 1, M_bind.
    rewrite (read_graph_lookup _ _ _ Hnet).
    rewrite (proj2 (has_node_true G v) Hv). simpl.
    unfold mbind at 1, M_bind. rewrite Heq.
    unfold mbind at 1, M_bind, read_obj. simpl.
    by rewrite lookup_app_r, Nat.sub_diag.
Qed.

Lemma get_downstream_network_raises_witness :
  (∃ r w' U, get_up_streem_network 0%nat (NInt 2) example_world = Ok (r, w') ∧
             objs w' !! r = Some (OGraph U) ∧ NInt 2 ∈ nodes U ∧
             ∀ x, x ∈ nodes U → x = NInt 2 ∨ ancestor example_net x (NInt 2)) ∧
  get_downstream_network 0%nat (NInt 2) example_world = Raise TypeError.
Proof.
  apply (get_downstream_network_raises example_world 0%nat example_net (NInt 2)).
  - reflexivity.
  - apply wf_add_edges_from, wf_empty_graph.
  - vm_compute. set_solver.
Defined.

(** ** The example of [get_subgraph] *)

(** C2 as stated fails: on the docstring example with gauge ['g2'] the
    result does not have the node set {2, 3, 4, 5, '0'}. *)
Lemma get_subgraph_example_not_downstream :
  ¬ ∃ r w' R,
      get_subgraph 0%nat 1%nat "g2" false example_world = Ok (r, w') ∧
      objs w' !! r = Some (OGraph R) ∧
      (list_to_set (nodes R) : gset node)
        = {[ NInt 2; NInt 3; NInt 4; NInt 5; NStr "0" ]}.
Proof.
  intros (r & w' & R & Hrun & HR & Hset).
  vm_compute in Hrun. injection Hrun as <- <-.
  vm_compute in HR. injection HR as <-.
  assert (NInt 3 ∈ ({[ NInt 2; NInt 3; NInt 4; NInt 5; NStr "0" ]} : gset node)) as Hin
    by set_solver.
  rewrite <-Hset in Hin. apply elem_of_list_to_set in Hin.
  unfold nodes in Hin. simpl in Hin. set_solver.
Qed.

(** C2, amended.  On the network with edges (1,2), (2,3), (3,4), (2,5),
    the gauge map {g1: 1, g2: 2, g3: 3}, gauge ['g2'] and
    [is_calibration = False], [get_subgraph] returns a graph whose node
    set is exactly {1, 2, '0'}: the outlet 2, the node 1 that drains into
    it, and the sink. *)
Theorem get_subgraph_example_nodes :
  ∃ r w' R,
    get_subgraph 0%nat 1%nat "g2" false example_world = Ok (r, w') ∧
    objs w' !! r = Some (OGraph R) ∧
    (list_to_set (nodes R) : gset node) = {[ NInt 1; NInt 2; NStr "0" ]}.
Proof.
  eexists _, _, _. split; [vm_compute; reflexivity|].
  split; [vm_compute; reflexivity|].
  apply set_eq. intros x. set_solver.
Qed.

(** ** The loops of [get_subgraph] on the store *)

Lemma put_put_eq l o o' w : put l o (put l o' w) = put l o w.
Proof. unfold put. simpl. by rewrite list_insert_insert_eq. Qed.

Lemma put_id l o w : objs w !! l = Some o → put l o w = w.
Proof. intros H. unfold put. rewrite list_insert_id by done. by destruct w. Qed.

Lemma lookup_put_eq l o w : (l < length (objs w))%nat → objs (put l o w) !! l = Some o.
Proof. intros. simpl. by apply list_lookup_insert_eq. Qed.

Lemma lookup_put_ne l l' o w : l ≠ l' → objs (put l o w) !! l' = objs w !! l'.
Proof. intros. simpl. by apply list_lookup_insert_ne. Qed.

Lemma files_put l o w : files (put l o w) = files w.
Proof. done. Qed.

Lemma store_eq l o w : store l o w = Ok (tt, put l o w).
Proof. done. Qed.

Lemma update_graph_eq l f w G :
  objs w !! l = Some (OGraph G) → update_graph l f w = Ok (tt, put l (OGraph (f G)) w).
Proof.
  intros Hl. unfold update_graph, mbind, M_bind. by rewrite (read_graph_lookup _ _ _ Hl).
Qed.

Lemma calibrate_body_eq w net G outlet value :
  objs w !! net = Some (OGraph G) →
  (G ← read_graph net;
   if has_node G value && bool_decide (value ≠ outlet) then
     up ← lift (bfs_tree_nodes G value true);
     let to_delete := filter (λ n, n ≠ value) up in
     store net (OGraph (remove_nodes_from G to_delete))
   else mret tt) w = Ok (tt, put net (OGraph (calibrate_step outlet G value)) w).
Proof.
  intros Hnet. unfold mbind at 1, M_bind at 1.
  rewrite (read_graph_lookup _ _ _ Hnet). unfold calibrate_step, bfs_tree_nodes.
  destruct (has_node G value); simpl.
  - destruct (bool_decide (value ≠ outlet)); simpl; [done|].
    unfold mret, M_ret. by rewrite put_id.
  - unfold mret, M_ret. by rewrite put_id.
Qed.

Lemma filter_to_calibrate_eq ns : ∀ w net G outlet,
  objs w !! net = Some (OGraph G) →
  filter_to_calibrate net ns outlet w =
    Ok (net, put net (OGraph (foldl (calibrate_step outlet) G ns)) w).
Proof.
  unfold filter_to_calibrate.
  induction ns as [|value ns IH]; intros w net G outlet Hnet.
  - simpl. unfold mbind, M_bind, mret, M_ret. by rewrite put_id.
  - assert (net < length (objs w))%nat as Hlt by (by eapply lookup_lt_Some).
    specialize (IH (put net (OGraph (calibrate_step outlet G value)) w) net
                   (calibrate_step outlet G value) outlet
                   (lookup_put_eq _ _ _ Hlt)).
    rewrite put_put_eq in IH.
    cbn [for_each foldl]. unfold mbind at 1 2, M_bind at 1 2.
    pose proof (calibrate_body_eq w net G outlet value Hnet) as Hbody.
    cbv zeta in Hbody. rewrite Hbody. exact IH.
Qed.

Lemma bind_unfold {A B} (m : M A) (f : A → M B) w :
  (m ≫= f) w = match m w with
               | Ok (a, w') => f a w'
               | Raise e => Raise e
               | OutOfFuel => OutOfFuel
               end.
Proof. done. Qed.

(** A loop whose body updates one object of the store runs like the
    fold of its pure counterpart. *)
Lemma for_fold_put {A S T} (l : list A) (body : S → A → M S)
    (step : S * T → A → result (S * T)) (loc : loc) (inj : T → obj) :
  (∀ w s t x, objs w !! loc = Some (inj t) →
     body s x w = match step (s, t) x with
                  | Ok st => Ok (st.1, put loc (inj st.2) w)
                  | Raise e => Raise e
                  | OutOfFuel => OutOfFuel
                  end) →
  ∀ w s t, objs w !! loc = Some (inj t) →
    for_fold l s body w = match foldM step (s, t) l with
                          | Ok st => Ok (st.1, put loc (inj st.2) w)
                          | Raise e => Raise e
                          | OutOfFuel => OutOfFuel
                          end.
Proof.
  intros Hbody. induction l as [|x l IH]; intros w s t Hl.
  - simpl. unfold mret, M_ret. by rewrite put_id.
  - assert (loc < length (objs w))%nat as Hlt by (by eapply lookup_lt_Some).
    cbn [for_fold foldM]. rewrite bind_unfold, (Hbody w s t x Hl).
    destruct (step (s, t) x) as [[s1 t1]| |]; [|done|done]. cbn.
    rewrite (IH _ s1 t1 (lookup_put_eq _ _ _ Hlt)).
    destruct (foldM step (s1, t1) l); try done. by rewrite put_put_eq.
Qed.

Lemma for_each_put {A T} (l : list A) (body : A → M unit)
    (step : T → A → result T) (loc : loc) (inj : T → obj) (I : world → Prop) :
  (∀ w o, I w → I (put loc o w)) →
  (∀ w t x, I w → objs w !! loc = Some (inj t) →
     body x w = match step t x with
                | Ok t' => Ok (tt, put loc (inj t') w)
                | Raise e => Raise e
                | OutOfFuel => OutOfFuel
                end) →
  ∀ w t, I w → objs w !! loc = Some (inj t) →
    for_each l body w = match foldM step t l with
                        | Ok t' => Ok (tt, put loc (inj t') w)
                        | Raise e => Raise e
                        | OutOfFuel => OutOfFuel
                        end.
Proof.
  intros HI Hbody. induction l as [|x l IH]; intros w t Hw Hl.
  - simpl. unfold mret, M_ret. by rewrite put_id.
  - assert (loc < length (objs w))%nat as Hlt by (by eapply lookup_lt_Some).
    cbn [for_each foldM]. rewrite bind_unfold, (Hbody w t x Hw Hl).
    destruct (step t x) as [t1| |]; [|done|done]. cbn.
    rewrite (IH _ t1 (HI _ _ Hw) (lookup_put_eq _ _ _ Hlt)).
    destruct (foldM step t1 l); try done. by rewrite put_put_eq.
Qed.

Lemma prune_body_eq gauge w rd gd key :
  objs w !! gauge = Some (ODict gd) →
  (popped ← lift (dict_pop rd key);
   gd ← read_dict gauge;
   popped' ← lift (dict_pop gd popped.1);
   store gauge (ODict popped'.2);;
   mret popped.2) w =
    match prune_step (rd, gd) key with
    | Ok st => Ok (st.1, put gauge (ODict st.2) w)
    | Raise e => Raise e
    | OutOfFuel => OutOfFuel
    end.
Proof.
  intros Hg. unfold prune_step. simpl. rewrite bind_unfold. unfold lift at 1.
  destruct (dict_pop rd key) as [[value rd1]| |]; [|done|done]. cbn.
  rewrite bind_unfold, (read_dict_lookup _ _ _ Hg), bind_unfold. unfold lift at 1.
  by destruct (dict_pop gd value) as [[n gd1]| |].
Qed.

Lemma annotate_node_eq w net_up gauge gd rd outlet G n :
  objs w !! gauge = Some (ODict gd) → objs w !! net_up = Some (OGraph G) →
  annotate_node net_up gauge rd outlet n w =
    match annotate_step gd rd outlet G n with
    | Ok G' => Ok (tt, put net_up (OGraph G') w)
    | Raise e => Raise e
    | OutOfFuel => OutOfFuel
    end.
Proof.
  intros Hg Hn. unfold annotate_node, annotate_step.
  rewrite bind_unfold, (read_dict_lookup _ _ _ Hg).
  rewrite bind_unfold, (read_graph_lookup _ _ _ Hn).
  rewrite bind_unfold.
  destruct (bool_decide (n ∈ dict_values gd)).
  - unfold mbind, M_bind, result_bind, lift, mret, M_ret.
    by destruct (dict_get rd n).
  - unfold mbind, M_bind, result_bind, lift, mret, M_ret.
    destruct (predecessors_checked G n) as [[|p ps]| |]; try done.
    destruct (node_calibrate G p); try done.
    by destruct (node_gauge G p).
Qed.

(** What a successful call of [get_subgraph] did, step by step. *)
Lemma get_subgraph_inv w net gauge G gd gauge_id is_calibration r w' :
  objs w !! net = Some (OGraph G) → objs w !! gauge = Some (ODict gd) →
  get_subgraph net gauge gauge_id is_calibration w = Ok (r, w') →
  ∃ outlet up rd' gd' L R,
    dict_get gd gauge_id = Some outlet ∧
    bfs_tree_nodes G outlet true = Ok up ∧
    foldM prune_step (dict_of_pairs ((λ kv, (kv.2, kv.1)) <$> gd), gd)
      (filter (λ key, ¬ has_node (subgraph_copy G up) key)
              (dict_keys (dict_of_pairs ((λ kv, (kv.2, kv.1)) <$> gd))))
      = Ok (rd', gd') ∧
    topological_sort
      (set_calibrate_all
         (set_gauge_all
            (add_edges_from
               (if is_calibration
                then foldl (calibrate_step outlet) (subgraph_copy G up) (dict_keys rd')
                else subgraph_copy G up)
               [(outlet, NStr "0")])
            (Some gauge_id)) "True") = Ok L ∧
    foldM (annotate_step gd' rd' outlet)
      (set_calibrate_all
         (set_gauge_all
            (add_edges_from
               (if is_calibration
                then foldl (calibrate_step outlet) (subgraph_copy G up) (dict_keys rd')
                else subgraph_copy G up)
               [(outlet, NStr "0")])
            (Some gauge_id)) "True") L = Ok R ∧
    r = length (objs w) ∧
    w' = put r (OGraph R)
           (put gauge (ODict gd')
              (World (objs w ++ [OGraph (subgraph_copy G up)]) (files w))).
Proof.
  intros Hnet Hg. unfold get_subgraph.
  assert (gauge < length (objs w))%nat as Hlt by (by eapply lookup_lt_Some).
  rewrite bind_unfold, (read_dict_lookup _ _ _ Hg).
  rewrite bind_unfold. unfold lift at 1.
  destruct (dict_get gd gauge_id) as [outlet|]; [|done].
  rewrite bind_unfold, (get_up_streem_network_eq w net G outlet Hnet).
  destruct (bfs_tree_nodes G outlet true) as [up| |] eqn:Hup; [|done|done].
  set (Gup := subgraph_copy G up).
  set (w1 := World (objs w ++ [OGraph Gup]) (files w)).
  set (r0 := length (objs w)).
  assert (objs w1 !! r0 = Some (OGraph Gup)) as Hr0.
  { simpl. subst r0. by rewrite lookup_app_r, Nat.sub_diag. }
  assert (objs w1 !! gauge = Some (ODict gd)) as Hg1.
  { simpl. by rewrite lookup_app_l. }
  assert (gauge ≠ r0) as Hne by (subst r0; lia).
  cbv zeta. rewrite bind_unfold, (read_graph_lookup _ _ _ Hr0).
  rewrite bind_unfold.
  rewrite (for_fold_put _ _ prune_step gauge ODict
             (λ w s t x Ht, prune_body_eq gauge w s t x Ht) w1 _ gd Hg1).
  destruct (foldM prune_step _ _) as [[rd' gd']| |] eqn:Hprune; [|done|done].
  cbn [fst snd].
  set (w2 := put gauge (ODict gd') w1).
  assert (objs w2 !! r0 = Some (OGraph Gup)) as Hr2.
  { subst w2. by rewrite lookup_put_ne. }
  assert (objs w2 !! gauge = Some (ODict gd')) as Hg2.
  { subst w2. apply lookup_put_eq. simpl. rewrite length_app. lia. }
  assert (r0 < length (objs w2))%nat as Hlt2 by (by eapply lookup_lt_Some).
  rewrite bind_unfold.
  set (Gf := if is_calibration
             then foldl (calibrate_step outlet) Gup (dict_keys rd') else Gup).
  assert ((if is_calibration
           then filter_to_calibrate r0 (dict_keys rd') outlet
           else @mret M _ loc r0) w2 = Ok (r0, put r0 (OGraph Gf) w2)) as ->.
  { subst Gf. destruct is_calibration.
    - by apply filter_to_calibrate_eq.
    - unfold mret, M_ret. by rewrite put_id. }
  rewrite bind_unfold. erewrite update_graph_eq by (by apply lookup_put_eq).
  rewrite put_put_eq.
  rewrite bind_unfold. erewrite update_graph_eq by (by apply lookup_put_eq).
  rewrite put_put_eq.
  rewrite bind_unfold. erewrite update_graph_eq by (by apply lookup_put_eq).
  rewrite put_put_eq.
  rewrite bind_unfold. erewrite read_graph_lookup by (by apply lookup_put_eq).
  rewrite bind_unfold. unfold lift at 1.
  destruct (topological_sort _) as [L| |] eqn:HL; [|done|done].
  rewrite bind_unfold.
  erewrite (for_each_put L _ (annotate_step gd' rd' outlet) r0 OGraph
              (λ w, objs w !! gauge = Some (ODict gd'))).
  2:{ intros w0 o Hw0. by rewrite lookup_put_ne by done. }
  2:{ intros w0 t x Hw0 Ht. by apply annotate_node_eq. }
  2:{ by rewrite lookup_put_ne by done. }
  2:{ by apply lookup_put_eq. }
  destruct (foldM (annotate_step gd' rd' outlet) _ L) as [R| |] eqn:HR; [|done|done].
  rewrite put_put_eq. unfold mret, M_ret. intros [= <- <-].
  exists outlet, up, rd', gd', L, R. done.
Qed.

(** ** Dictionaries *)

Section pydict_props.
Context {K V : Type} `{EqDecision K}.
Implicit Types d : list (K * V).

Lemma dict_get_elem d k v : dict_get d k = Some v → (k, v) ∈ d.
Proof.
  induction d as [|[k' v'] d IH]; simpl; [done|].
  destruct (decide (k' = k)) as [->|]; [intros [= ->]; by left|].
  intros H. right. by apply IH.
Qed.

Lemma dict_get_NoDup d k v : NoDup (dict_keys d) → (k, v) ∈ d → dict_get d k = Some v.
Proof.
  unfold dict_keys. induction d as [|[k' v'] d IH]; intros Hnd Hin; [by inversion Hin|].
  rewrite fmap_cons in Hnd. apply NoDup_cons in Hnd as [Hk Hnd]. simpl in *.
  apply elem_of_cons in Hin as [[= -> ->]|Hin].
  - by rewrite decide_True.
  - rewrite decide_False; [by apply IH|].
    intros ->. apply Hk. apply list_elem_of_fmap. by exists (k, v).
Qed.

Lemma elem_of_dict_set d k v k' v' :
  (k', v') ∈ dict_set d k v → (k', v') ∈ d ∨ (k', v') = (k, v).
Proof.
  induction d as [|[k0 v0] d IH]; simpl.
  - intros ->%list_elem_of_singleton. by right.
  - destruct (decide (k0 = k)) as [->|].
    + intros [->|Hin]%elem_of_cons; [by right|]. left. by right.
    + intros [->|Hin]%elem_of_cons; [left; by left|].
      destruct (IH Hin) as [?|?]; [left; by right|by right].
Qed.

Lemma dict_keys_dict_set d k v :
  dict_keys (dict_set d k v) =
    if decide (k ∈ dict_keys d) then dict_keys d else dict_keys d ++ [k].
Proof.
  unfold dict_keys. induction d as [|[k0 v0] d IH]; [done|].
  cbn [dict_set]. rewrite !fmap_cons. cbn [fst].
  destruct (decide (k0 = k)) as [->|Hne].
  - rewrite fmap_cons. cbn [fst]. rewrite decide_True; [done|]. by left.
  - rewrite fmap_cons, IH. cbn [fst].
    destruct (decide (k ∈ d.*1)).
    + rewrite decide_True; [done|]. by right.
    + rewrite decide_False; [done|]. rewrite elem_of_cons. naive_solver.
Qed.

Lemma NoDup_dict_set d k v : NoDup (dict_keys d) → NoDup (dict_keys (dict_set d k v)).
Proof.
  intros Hnd. rewrite dict_keys_dict_set. case_decide; [done|].
  apply NoDup_app. split; [done|]. split; [|apply NoDup_singleton].
  by intros x Hx ->%list_elem_of_singleton.
Qed.

Lemma dict_of_pairs_spec (l : list (K * V)) :
  NoDup (dict_keys (dict_of_pairs l)) ∧ ∀ k v, (k, v) ∈ dict_of_pairs l → (k, v) ∈ l.
Proof.
  unfold dict_of_pairs.
  assert (∀ d, NoDup (dict_keys d) →
            NoDup (dict_keys (foldl (λ d kv, dict_set d kv.1 kv.2) d l)) ∧
            ∀ k v, (k, v) ∈ foldl (λ d kv, dict_set d kv.1 kv.2) d l →
                   (k, v) ∈ d ∨ (k, v) ∈ l) as Hgen.
  { induction l as [|[k0 v0] l IH]; intros d Hnd; simpl.
    - split; [done|]. intros k v ?. by left.
    - destruct (IH (dict_set d k0 v0)) as [H1 H2]; [by apply NoDup_dict_set|].
      split; [done|]. intros k v Hin.
      destruct (H2 k v Hin) as [[?| ->]%elem_of_dict_set|?].
      + by left.
      + right. by left.
      + right. by right. }
  destruct (Hgen []) as [H1 H2]; [constructor|]. split; [done|].
  intros k v Hin. destruct (H2 k v Hin) as [[]%elem_of_nil|?]. done.
Qed.

(** Without repeated keys to overwrite, [dict] keeps the pairs as they
    come. *)
Lemma dict_of_pairs_NoDup (l : list (K * V)) : NoDup l.*1 → dict_of_pairs l = l.
Proof.
  unfold dict_of_pairs.
  assert (∀ d, NoDup (d ++ l).*1 →
            foldl (λ d kv, dict_set d kv.1 kv.2) d l = d ++ l) as Hgen.
  { induction l as [|[k0 v0] l IH]; intros d Hnd; simpl.
    - by rewrite app_nil_r.
    - assert (dict_set d k0 v0 = d ++ [(k0, v0)]) as ->.
      { rewrite fmap_app in Hnd. apply NoDup_app in Hnd as (_ & Hdis & _).
        assert (k0 ∉ d.*1) as Hk.
        { intros Hin. apply (Hdis k0 Hin). by left. }
        clear -Hk. induction d as [|[k1 v1] d IHd]; [done|].
        simpl in *. rewrite not_elem_of_cons in Hk. destruct Hk as [Hne Hk].
        rewrite decide_False by done. f_equal. by apply IHd. }
      rewrite IH; [by rewrite <-app_assoc|]. by rewrite <-app_assoc. }
  intros Hnd. by rewrite (Hgen []).
Qed.

Lemma dict_del_elem d k k' v' : (k', v') ∈ dict_del d k ↔ k' ≠ k ∧ (k', v') ∈ d.
Proof. unfold dict_del. by rewrite list_elem_of_filter. Qed.
End pydict_props.

Lemma NoDup_filter_fmap {A B} (f : A → B) (P : A → Prop) `{!∀ x, Decision (P x)}
    (l : list A) :
  NoDup (f <$> l) → NoDup (f <$> filter P l).
Proof.
  intros Hnd. eapply sublist_NoDup; [exact Hnd|].
  apply fmap_sublist, sublist_filter.
Qed.

(** ** Pruning the gauge map *)

Section prune.
Context (gd : list (string * node)) (U : list node).
Context (Hkeys : NoDup (dict_keys gd)).

(** Entries whose node is in [U] survive the pruning loop, whatever the
    map. *)
Lemma prune_keeps keys : ∀ rd gdc rd' gd',
  (∀ key, key ∈ keys → key ∉ U) →
  (∀ n g, (n, g) ∈ rd → (g, n) ∈ gd) →
  (∀ g n, (g, n) ∈ gdc → (g, n) ∈ gd) →
  foldM prune_step (rd, gdc) keys = Ok (rd', gd') →
  ∀ g n, (g, n) ∈ gdc → n ∈ U → (g, n) ∈ gd'.
Proof.
  induction keys as [|key keys IH]; intros rd gdc rd' gd' HU Hrd Hgdc Hrun g n Hin Hn.
  - simpl in Hrun. by injection Hrun as <- <-.
  - cbn [foldM] in Hrun. unfold prune_step at 2 in Hrun. unfold dict_pop in Hrun.
    cbn [fst snd] in Hrun.
    destruct (dict_get rd key) as [value|] eqn:Hv; [|done]. cbn in Hrun.
    destruct (dict_get gdc value) as [n'|] eqn:Hn'; [|done]. cbn in Hrun.
    apply (IH _ _ _ _ (λ k Hk, HU k (list_elem_of_further _ _ _ Hk))) with (g := g) (n := n) in Hrun;
      try done.
    + intros n0 g0 [_ H0]%dict_del_elem. by apply Hrd.
    + intros g0 n0 [_ H0]%dict_del_elem. by apply Hgdc.
    + apply dict_del_elem. split; [|done]. intros ->.
      apply dict_get_elem, Hrd in Hv.
      assert (n = key) as ->.
      { apply Hgdc in Hin.
        pose proof (dict_get_NoDup gd value n Hkeys Hin) as H1.
        pose proof (dict_get_NoDup gd value key Hkeys Hv) as H2. congruence. }
      apply (HU key); [by left|done].
Qed.

(** On a map that sends distinct gauges to distinct nodes, the loop
    removes exactly the entries of the nodes it is given. *)
Lemma prune_exact (Hvalues : NoDup (dict_values gd)) keys : ∀ done,
  NoDup (done ++ keys) → (∀ k, k ∈ keys → k ∈ dict_values gd) →
  foldM prune_step
    (filter (λ ng, ng.1 ∉ done) ((λ kv, (kv.2, kv.1)) <$> gd),
     filter (λ gn, gn.2 ∉ done) gd) keys
  = Ok (filter (λ ng, ng.1 ∉ done ++ keys) ((λ kv, (kv.2, kv.1)) <$> gd),
        filter (λ gn, gn.2 ∉ done ++ keys) gd).
Proof.
  induction keys as [|key keys IH]; intros done Hnd Hin.
  - by rewrite app_nil_r.
  - assert (key ∉ done) as Hkd.
    { apply NoDup_app in Hnd as (_ & Hdis & _). intros Hk. apply (Hdis key Hk). by left. }
    destruct (proj1 (list_elem_of_fmap _ _ _) (Hin key ltac:(by left)))
      as ([g n] & Hkn & Hgn). simpl in Hkn. subst n.
    assert (∀ g' n', (g', n') ∈ gd → (g' = g ↔ n' = key)) as Hinj.
    { intros g' n' Hin'. split; intros ->.
      - pose proof (dict_get_NoDup gd g n' Hkeys Hin') as H1.
        pose proof (dict_get_NoDup gd g key Hkeys Hgn) as H2. congruence.
      - destruct (proj1 (list_elem_of_lookup _ _) Hin') as [i Hi].
        destruct (proj1 (list_elem_of_lookup _ _) Hgn) as [j Hj].
        assert (i = j); [|congruence].
        apply (NoDup_lookup (dict_values gd) i j key Hvalues);
          unfold dict_values; rewrite list_lookup_fmap; [by rewrite Hi|by rewrite Hj]. }
    cbn [foldM]. unfold prune_step at 2. unfold dict_pop. cbn [fst snd].
    rewrite (dict_get_NoDup _ key g).
    2:{ unfold dict_keys. apply NoDup_filter_fmap.
        rewrite <-list_fmap_compose. exact Hvalues. }
    2:{ apply list_elem_of_filter. split; [done|].
        apply list_elem_of_fmap. by exists (g, key). }
    cbn. rewrite (dict_get_NoDup _ g key).
    2:{ unfold dict_keys. by apply NoDup_filter_fmap. }
    2:{ apply list_elem_of_filter. split; [done|]. done. }
    cbn. specialize (IH (done ++ [key])).
    rewrite <-!app_assoc in IH. simpl in IH. rewrite <-IH.
    + f_equal. f_equal.
      * unfold dict_del. rewrite list_filter_filter. apply list_filter_iff.
        intros [n' g']. simpl. rewrite elem_of_app, list_elem_of_singleton. naive_solver.
      * unfold dict_del. rewrite list_filter_filter. apply filter_ext_elem.
        intros [g' n'] Hin'. simpl. rewrite elem_of_app, list_elem_of_singleton.
        rewrite (Hinj g' n' Hin'). naive_solver.
    + done.
    + intros k Hk. apply Hin. by right.
Qed.
End prune.

Lemma filter_all {A} (P : A → Prop) `{!∀ x, Decision (P x)} (l : list A) :
  (∀ x, x ∈ l → P x) → filter P l = l.
Proof.
  induction l as [|a l IH]; intros HP; [done|].
  rewrite filter_cons, decide_True by (apply HP; by left).
  f_equal. apply IH. intros x Hx. apply HP. by right.
Qed.



(** The pruning loop of [get_subgraph] keeps every entry whose node is in
    the upstream graph. *)
Lemma prune_keeps_present (gd : list (string * node)) (Gup : DiGraph) rd' gd' :
  NoDup (dict_keys gd) →
  foldM prune_step (dict_of_pairs ((λ kv, (kv.2, kv.1)) <$> gd), gd)
    (filter (λ key, ¬ has_node Gup key)
            (dict_keys (dict_of_pairs ((λ kv, (kv.2, kv.1)) <$> gd))))
    = Ok (rd', gd') →
  ∀ g n, (g, n) ∈ gd → n ∈ nodes Gup → (g, n) ∈ gd'.
Proof.
  intros Hkeys Hprune g n Hin Hn.
  apply (prune_keeps gd (nodes Gup) Hkeys _ _ _ _ _) with (g := g) (n := n)
    in Hprune; try done.
  - intros key [Hkey _]%list_elem_of_filter. unfold has_node in Hkey.
    by rewrite bool_decide_spec in Hkey.
  - intros n0 g0 Hin0%(proj2 (dict_of_pairs_spec _)).
    apply list_elem_of_fmap in Hin0 as ([g' n'] & [= -> ->] & Hin0). done.
Qed.







(** ** The annotation pass of [get_subgraph] *)

Lemma node_calibrate_set_ne G n g c x :
  x ≠ n → node_calibrate (set_node_attrs G n g c) x = node_calibrate G x.
Proof.
  intros Hne. unfold node_calibrate, set_node_attrs. simpl.
  induction (g_node G) as [|[y a] l IH]; [done|].
  rewrite fmap_cons. simpl. destruct (decide (y = n)) as [->|Hy]; simpl.
  - rewrite !decide_False by done. exact IH.
  - destruct (decide (y = x)); [done|]. exact IH.
Qed.

Lemma node_calibrate_set_eq G n g c :
  n ∈ nodes G → node_calibrate (set_node_attrs G n g c) n = Ok c.
Proof.
  unfold node_calibrate, set_node_attrs, nodes. simpl.
  induction (g_node G) as [|[y a] l IH]; intros Hin; [by inversion Hin|].
  rewrite fmap_cons in *. simpl in *. destruct (decide (y = n)) as [->|Hy]; simpl.
  - by rewrite decide_True.
  - rewrite decide_False by done. apply IH.
    apply elem_of_cons in Hin as [?|?]; [congruence|done].
Qed.

Lemma topological_sort_Ok_spec G L :
  wf G → topological_sort G = Ok L →
  NoDup L ∧ (∀ v, v ∈ L ↔ v ∈ nodes G) ∧
  (∀ i v u, L !! i = Some v → edge G u v → ∃ j, (j < i)%nat ∧ L !! j = Some u).
Proof.
  intros Hwf HL.
  destruct (topological_sort_spec G Hwf) as [(L' & HL' & H)|[Hr _]]; [|congruence].
  rewrite HL in HL'. by injection HL' as <-.
Qed.

Section annotate.
Context (R0 : DiGraph) (gd : list (string * node)) (rd : list (node * string)).
Context (outlet : node) (L : list node).
Context (Hnd : NoDup L) (Hnodes : ∀ x, x ∈ L → x ∈ nodes R0).
Context (Hfwd : ∀ i v u, L !! i = Some v → edge R0 u v →
                         ∃ j, (j < i)%nat ∧ L !! j = Some u).
Context (Hout : outlet ∈ dict_values gd).

Lemma annotate_step_inv L1 n L2 Gc G1 :
  L = L1 ++ n :: L2 →
  nodes Gc = nodes R0 → g_edges Gc = g_edges R0 →
  (∀ x, x ∈ L1 → ∃ c, node_calibrate Gc x = Ok c ∧ flag_ok R0 outlet x c) →
  annotate_step gd rd outlet Gc n = Ok G1 →
  nodes G1 = nodes R0 ∧ g_edges G1 = g_edges R0 ∧
  ∀ x, x ∈ L1 ++ [n] → ∃ c, node_calibrate G1 x = Ok c ∧ flag_ok R0 outlet x c.
Proof.
  intros HL Hn He Hinv Hstep.
  assert (n ∈ nodes Gc) as HnG.
  { rewrite Hn. apply Hnodes. rewrite HL. apply elem_of_app. right. by left. }
  assert (n ∉ L1) as HnL1.
  { rewrite HL in Hnd. apply NoDup_app in Hnd as (_ & Hdis & _).
    intros Hin. apply (Hdis n Hin). by left. }
  assert (∃ g c, G1 = set_node_attrs Gc n g c ∧ flag_ok R0 outlet n c) as (g & c & -> & Hc).
  { unfold annotate_step in Hstep.
    destruct (bool_decide (n ∈ dict_values gd)) eqn:Hgv.
    - destruct (dict_get rd n) as [g|]; [|done]. cbn in Hstep.
      injection Hstep as <-. eexists _, _. split; [done|].
      split.
      + intros Hc. case_bool_decide; [by subst|done].
      + intros ->. by rewrite bool_decide_eq_true_2.
    - apply bool_decide_eq_false in Hgv.
      unfold predecessors_checked in Hstep.
      rewrite (proj2 (has_node_true Gc n) HnG) in Hstep. cbn in Hstep.
      destruct (predecessors Gc n) as [|p ps] eqn:Hp.
      + cbn in Hstep. injection Hstep as <-. eexists _, _. split; [done|].
        split; [done|]. by intros ->.
      + destruct (node_calibrate Gc p) as [c| |] eqn:Hcp; [|done|done]. cbn in Hstep.
        destruct (node_gauge Gc p) as [g| |]; [|done|done]. cbn in Hstep.
        injection Hstep as <-. eexists _, _. split; [done|].
        assert (edge R0 p n) as Hpn.
        { unfold edge. rewrite <-He. apply elem_of_predecessors. rewrite Hp. by left. }
        assert (p ∈ L1) as HpL1.
        { destruct (Hfwd (length L1) n p) as (j & Hj & Hlk); [|done|].
          - rewrite HL. by rewrite list_lookup_middle.
          - rewrite HL, lookup_app_l in Hlk by done. by eapply list_elem_of_lookup_2. }
        destruct (Hinv p HpL1) as (c' & Hc' & [Hreach _]).
        rewrite Hcp in Hc'. injection Hc' as <-.
        split; [|by intros ->].
        intros Hc. eapply rtc_r; [by apply Hreach|done]. }
  split; [by rewrite nodes_set_node_attrs|]. split; [done|].
  intros x [Hx| ->%list_elem_of_singleton]%elem_of_app.
  - destruct (Hinv x Hx) as (c' & Hc' & Hok). exists c'. split; [|done].
    rewrite node_calibrate_set_ne; [done|]. by intros ->.
  - exists c. split; [|done]. by apply node_calibrate_set_eq.
Qed.

Lemma annotate_loop_inv L2 : ∀ L1 Gc R,
  L = L1 ++ L2 →
  nodes Gc = nodes R0 → g_edges Gc = g_edges R0 →
  (∀ x, x ∈ L1 → ∃ c, node_calibrate Gc x = Ok c ∧ flag_ok R0 outlet x c) →
  foldM (annotate_step gd rd outlet) Gc L2 = Ok R →
  nodes R = nodes R0 ∧ g_edges R = g_edges R0 ∧
  ∀ x, x ∈ L → ∃ c, node_calibrate R x = Ok c ∧ flag_ok R0 outlet x c.
Proof.
  induction L2 as [|n L2 IH]; intros L1 Gc R HL Hn He Hinv Hrun.
  - simpl in Hrun. injection Hrun as <-. rewrite app_nil_r in HL. by subst L1.
  - cbn [foldM] in Hrun.
    destruct (annotate_step gd rd outlet Gc n) as [G1| |] eqn:Hstep; [|done|done].
    cbn in Hrun.
    destruct (annotate_step_inv L1 n L2 Gc G1 HL Hn He Hinv Hstep) as (Hn1 & He1 & Hinv1).
    apply (IH (L1 ++ [n]) G1 R); try done. by rewrite <-app_assoc.
Qed.
End annotate.

Lemma wf_calibrate_step outlet G value : wf G → wf (calibrate_step outlet G value).
Proof.
  intros Hwf. unfold calibrate_step.
  destruct (has_node G value && bool_decide (value ≠ outlet)); [|done].
  by apply wf_remove_nodes_from.
Qed.

Lemma wf_calibrate_loop outlet ns : ∀ G, wf G → wf (foldl (calibrate_step outlet) G ns).
Proof.
  induction ns as [|n ns IH]; intros G Hwf; [done|].
  simpl. apply IH. by apply wf_calibrate_step.
Qed.

Lemma walk_same_edges G G' l : g_edges G' = g_edges G → walk G l → walk G' l.
Proof.
  intros He. induction l as [|a [|b l] IH]; simpl; try done.
  intros [Hab Hw]. split; [|by apply IH]. unfold edge in *. by rewrite He.
Qed.

(** C6.  In the graph that [get_subgraph] returns with
    [is_calibration = True], the outlet carries [calibrate = 'True'], and
    along any directed path that ends at the outlet exactly one node
    does. *)
Theorem get_subgraph_calibrate_once (w : world) (net gauge : loc) (G : DiGraph)
    (gd : list (string * node)) (gauge_id : string) (r : loc) (w' : world) :
  objs w !! net = Some (OGraph G) → objs w !! gauge = Some (ODict gd) →
  wf G → NoDup (dict_keys gd) →
  get_subgraph net gauge gauge_id true w = Ok (r, w') →
  ∃ R outlet,
    objs w' !! r = Some (OGraph R) ∧ dict_get gd gauge_id = Some outlet ∧
    node_calibrate R outlet = Ok "True" ∧
    ∀ p, walk R p → last p = Some outlet →
         length (filter (λ x, node_calibrate R x = Ok "True") p) = 1%nat.
Proof.
  intros Hnet Hg Hwf Hkeys Hrun.
  destruct (get_subgraph_inv _ _ _ _ _ _ _ _ _ Hnet Hg Hrun)
    as (outlet & up & rd' & gd' & L & R & Hout & Hup & Hprune & HL & HR & -> & ->).
  set (Gup := subgraph_copy G up) in *.
  set (R0 := set_calibrate_all _ _) in *.
  assert (gauge < length (objs w))%nat as Hlt by (by eapply lookup_lt_Some).
  assert (wf R0) as HwfR0.
  { subst R0. eapply wf_same_structure; [apply nodes_set_calibrate_all|done|].
    eapply wf_same_structure; [apply nodes_set_gauge_all|done|].
    apply wf_add_edges_from, wf_calibrate_loop. by apply wf_subgraph_copy. }
  destruct (topological_sort_Ok_spec R0 L HwfR0 HL) as (Hnd & Hall & Hfwd).
  assert (acyclic R0) as Hac by (by eapply topological_sort_Ok_acyclic).
  assert (outlet ∈ nodes R0) as HoutR0.
  { subst R0. rewrite nodes_set_calibrate_all, nodes_set_gauge_all.
    apply elem_of_nodes_add_edges_from. right. exists (outlet, NStr "0").
    split; [by left|by left]. }
  assert (outlet ∈ dict_values gd') as Hval.
  { apply list_elem_of_fmap. exists (gauge_id, outlet). split; [done|].
    apply (prune_keeps_present gd Gup rd' gd' Hkeys Hprune).
    - by apply dict_get_elem.
    - apply (upstream_nodes G outlet up Hwf Hup). by left. }
  destruct (annotate_loop_inv R0 gd' rd' outlet L Hnd (λ x, proj1 (Hall x)) Hfwd Hval
              L [] R0 R) as (HnR & HeR & Hflags); try done.
  { intros x []%elem_of_nil. }
  assert (∀ x, x ∈ nodes R0 → ∃ c, node_calibrate R x = Ok c ∧ flag_ok R0 outlet x c)
    as Hflag.
  { intros x Hx. by apply Hflags, Hall. }
  exists R, outlet. split.
  { apply lookup_put_eq. simpl. rewrite length_insert, length_app. simpl. lia. }
  split; [done|].
  assert (node_calibrate R outlet = Ok "True") as HoutT.
  { destruct (Hflag outlet HoutR0) as (c & Hc & _ & Hc'). by rewrite Hc, Hc'. }
  split; [done|].
  intros p Hw [p' ->]%last_Some.
  rewrite filter_app, length_app.
  rewrite (filter_cons _ outlet), decide_True by done. simpl.
  assert (filter (λ x, node_calibrate R x = Ok "True") p' = []) as ->; [|done].
  apply (walk_same_edges R R0) in Hw; [|done].
  destruct (filter _ p') as [|x l] eqn:E; [done|]. exfalso.
  assert (x ∈ filter (λ x, node_calibrate R x = Ok "True") p') as Hx
    by (rewrite E; by left).
  apply list_elem_of_filter in Hx as [HxT Hx].
  apply list_elem_of_split in Hx as (l1 & l2 & ->).
  rewrite <-app_assoc in Hw. apply walk_app_inv in Hw.
  rewrite <-app_comm_cons in Hw. apply walk_path in Hw.
  destruct (Hflag x) as (c & Hc & Hreach & _).
  { by apply (path_nodes R0 x outlet HwfR0). }
  rewrite Hc in HxT. injection HxT as ->.
  apply (Hac x). eapply tc_rtc_r; [exact Hw|]. by apply Hreach.
Qed.

Lemma get_subgraph_calibrate_once_witness :
  ∃ r w', get_subgraph 0%nat 1%nat "g3" true example_world = Ok (r, w') ∧
    ∃ R outlet,
      objs w' !! r = Some (OGraph R) ∧ dict_get example_gauge "g3" = Some outlet ∧
      node_calibrate R outlet = Ok "True" ∧
      ∀ p, walk R p → last p = Some outlet →
           length (filter (λ x, node_calibrate R x = Ok "True") p) = 1%nat.
Proof.
  eexists _, _. split; [vm_compute; reflexivity|].
  apply (get_subgraph_calibrate_once example_world 0%nat 1%nat example_net example_gauge "g3").
  - reflexivity.
  - reflexivity.
  - apply wf_add_edges_from, wf_empty_graph.
  - apply (bool_decide_unpack _). vm_compute. exact I.
  - vm_compute. reflexivity.
Defined.

(** ** Writing a topology file and reading it back *)

Lemma token_char_not_space c : token_char c = true → py_isspace c = false.
Proof.
  unfold token_char, py_isspace. intros H.
  apply andb_prop in H as [[H1 H2]%andb_prop H3]. apply Nat.leb_le in H1.
  assert ((nat_of_ascii c <=? 13)%nat = false) as -> by (apply Nat.leb_gt; lia).
  assert ((nat_of_ascii c <=? 32)%nat = false) as -> by (apply Nat.leb_gt; lia).
  by rewrite !andb_false_r.
Qed.

Lemma token_char_not c0 c :
  token_char c0 = false → token_char c = true → c ≠ c0.
Proof. intros H0 H ->. congruence. Qed.

Lemma token_char_not_special c : token_char c = true → csv_special c = false.
Proof.
  intros H. unfold csv_special.
  rewrite !bool_decide_eq_false_2; [done|..]; by apply token_char_not.
Qed.

Lemma append_cons c (s1 s2 : string) : String c s1 +:+ s2 = String c (s1 +:+ s2).
Proof. done. Qed.

Lemma append_nil_l (s : string) : EmptyString +:+ s = s.
Proof. done. Qed.

Lemma append_assoc (s1 s2 s3 : string) : (s1 +:+ s2) +:+ s3 = s1 +:+ (s2 +:+ s3).
Proof. induction s1 as [|c s1 IH]; [done|]. rewrite !append_cons. by rewrite IH. Qed.

Lemma append_nil_r (s : string) : s +:+ EmptyString = s.
Proof. induction s as [|c s IH]; [done|]. rewrite append_cons. by rewrite IH. Qed.

Lemma csv_field_token s : all_chars token_char s = true → csv_field s = s.
Proof.
  intros H. unfold csv_field.
  assert (string_exists csv_special s = false) as ->; [|done].
  induction s as [|c s IH]; [done|]. simpl in *.
  apply andb_prop in H as [Hc Hs]. by rewrite token_char_not_special, IH.
Qed.

Lemma split_from_chars t : ∀ cur rest,
  all_chars (λ c, negb (py_isspace c)) t = true →
  split_from (t +:+ rest) cur = split_from rest (cur +:+ t).
Proof.
  induction t as [|c t IH]; intros cur rest H.
  - by rewrite append_nil_l, append_nil_r.
  - simpl in H. apply andb_prop in H as [Hc Ht]. apply negb_true_iff in Hc.
    rewrite append_cons. cbn [split_from]. rewrite Hc.
    rewrite IH by done. by rewrite append_assoc.
Qed.

Lemma all_chars_impl (p q : ascii → bool) s :
  (∀ c, p c = true → q c = true) → all_chars p s = true → all_chars q s = true.
Proof.
  intros Hpq. induction s as [|c s IH]; [done|]. simpl.
  intros [Hc Hs]%andb_prop. by rewrite Hpq, IH.
Qed.

(** A line of two tokens splits into the two tokens. *)
Lemma split_row_line a b :
  token a → token b →
  split (a +:+ String SP (b +:+ String LF EmptyString)) = [a; b].
Proof.
  intros [Ha Hta] [Hb Htb]. unfold split.
  assert (∀ s, all_chars token_char s = true →
               all_chars (λ c, negb (py_isspace c)) s = true) as Hsp.
  { intros s. apply all_chars_impl. intros c Hc. by rewrite token_char_not_space. }
  rewrite split_from_chars by auto. rewrite append_nil_l. cbn [split_from].
  change (py_isspace SP) with true. cbn match.
  rewrite decide_False by done.
  rewrite split_from_chars by auto. rewrite append_nil_l. cbn [split_from].
  change (py_isspace LF) with true. cbn match.
  rewrite decide_False by done. done.
Qed.

Lemma universal_newlines_chars t rest :
  all_chars (λ c, negb (bool_decide (c = CR))) t = true →
  universal_newlines (t +:+ rest) = t +:+ universal_newlines rest.
Proof.
  induction t as [|c t IH]; intros H; [done|]. simpl in H.
  apply andb_prop in H as [Hc Ht]. apply negb_true_iff, bool_decide_eq_false in Hc.
  rewrite !append_cons. cbn [universal_newlines].
  rewrite decide_False by done. by rewrite IH.
Qed.

Lemma lines_from_chars t : ∀ cur rest,
  all_chars (λ c, negb (bool_decide (c = LF))) t = true →
  lines_from (t +:+ rest) cur = lines_from rest (cur +:+ t).
Proof.
  induction t as [|c t IH]; intros cur rest H.
  - by rewrite append_nil_l, append_nil_r.
  - simpl in H. apply andb_prop in H as [Hc Ht].
    apply negb_true_iff, bool_decide_eq_false in Hc.
    rewrite append_cons. cbn [lines_from].
    rewrite decide_False by done. rewrite IH by done. by rewrite append_assoc.
Qed.

(** The lines read back from what [csv_writerows] wrote, for rows of
    tokens. *)
Lemma file_lines_writerows (rows : list (node * node)) :
  (∀ r, r ∈ rows → token (py_str r.1) ∧ token (py_str r.2)) →
  file_lines (csv_writerows rows) =
    (λ r, py_str r.1 +:+ String SP (py_str r.2 +:+ String LF EmptyString)) <$> rows.
Proof.
  unfold file_lines.
  assert (∀ s, all_chars token_char s = true →
               all_chars (λ c, negb (bool_decide (c = CR))) s = true) as Hcr.
  { intros s. apply all_chars_impl. intros c Hc.
    apply negb_true_iff, bool_decide_eq_false. by apply token_char_not. }
  assert (∀ s, all_chars token_char s = true →
               all_chars (λ c, negb (bool_decide (c = LF))) s = true) as Hlf.
  { intros s. apply all_chars_impl. intros c Hc.
    apply negb_true_iff, bool_decide_eq_false. by apply token_char_not. }
  induction rows as [|[a b] rows IH]; intros Htok; [done|].
  destruct (Htok (a, b)) as [[Ha Hta] [Hb Htb]]; [by left|]. cbn [fst snd] in *.
  cbn [csv_writerows foldr]. unfold csv_row. cbn [fst snd].
  rewrite !csv_field_token by done.
  rewrite append_assoc. rewrite universal_newlines_chars by auto.
  rewrite append_cons. cbn [universal_newlines].
  rewrite (decide_False (P := SP = CR)) by done.
  rewrite append_assoc. rewrite universal_newlines_chars by auto.
  rewrite !append_cons, append_nil_l. cbn [universal_newlines].
  rewrite (decide_True (P := CR = CR)) by done.
  rewrite (decide_True (P := LF = LF)) by done.
  rewrite lines_from_chars by auto. rewrite append_nil_l. cbn [lines_from].
  rewrite (decide_False (P := SP = LF)) by done.
  rewrite lines_from_chars by auto. cbn [lines_from].
  rewrite (decide_True (P := LF = LF)) by done.
  rewrite fmap_cons. cbn [fst snd]. f_equal.
  - rewrite !append_assoc. by rewrite !append_cons, append_nil_l.
  - apply IH. intros r Hr. apply Htok. by right.
Qed.

Lemma read_edges_rows (rows : list (node * node)) : ∀ acc,
  (∀ r, r ∈ rows → token (py_str r.1) ∧ token (py_str r.2)) →
  foldM (λ edges line,
           let p := split line in
           a ← getitem p 0;
           b ← getitem p 1;
           Ok (edges ++ [(NStr a, NStr b)])) acc
        ((λ r, py_str r.1 +:+ String SP (py_str r.2 +:+ String LF EmptyString)) <$> rows)
    = Ok (acc ++ ((λ r, (NStr (py_str r.1), NStr (py_str r.2))) <$> rows)).
Proof.
  induction rows as [|[a b] rows IH]; intros acc Htok.
  - simpl. by rewrite app_nil_r.
  - destruct (Htok (a, b)) as [Ha Hb]; [by left|]. simpl in Ha, Hb.
    rewrite !fmap_cons. cbn [foldM fst snd].
    rewrite (split_row_line _ _ Ha Hb). cbn.
    rewrite IH by (intros r Hr; apply Htok; by right).
    by rewrite <-app_assoc.
Qed.

Lemma edge_rev_graph G u v : edge (rev_graph G) u v ↔ edge G v u.
Proof.
  unfold edge, rev_graph. simpl. rewrite list_elem_of_fmap. split.
  - intros ([a b] & [= -> ->] & Hin). done.
  - intros Hin. by exists (v, u).
Qed.

Lemma path_rev_graph G u v : path (rev_graph G) u v → path G v u.
Proof.
  induction 1 as [x y Hxy|x y z Hxy _ IH].
  - apply tc_once. by apply edge_rev_graph.
  - eapply tc_r; [exact IH|]. by apply edge_rev_graph.
Qed.

(** In an acyclic network in which every other node has an outgoing edge,
    the sink has none. *)
Lemma sink_terminal T :
  wf T → acyclic T →
  (∀ n, n ∈ nodes T → n ≠ NStr "0" → ∃ v, successors T n = [v]) →
  successors T (NStr "0") = [].
Proof.
  intros Hwf Hac Hout.
  destruct (successors T (NStr "0")) as [|v l] eqn:E; [done|]. exfalso.
  assert (edge T (NStr "0") v) as Hsv.
  { apply elem_of_successors. rewrite E. by left. }
  destruct (cycle_of_closed_set (rev_graph T) (λ x, x ∈ nodes T) (NStr "0")) as [x Hx].
  - done.
  - intros x Hx. destruct (decide (x = NStr "0")) as [->|Hne].
    + exists v. split; [by apply edge_rev_graph|]. by apply (wf_ends T Hwf _ _ Hsv).
    + destruct (Hout x Hx Hne) as [u Hu].
      assert (edge T x u) as Hxu.
      { apply elem_of_successors. rewrite Hu. by left. }
      exists u. split; [by apply edge_rev_graph|]. by apply (wf_ends T Hwf _ _ Hxu).
  - by apply (wf_ends T Hwf _ _ Hsv).
  - by apply path_rev_graph, Hac in Hx.
Qed.

Lemma write_network_eq w net T path :
  objs w !! net = Some (OGraph T) →
  write_network net path w =
    Ok (tt, World (objs w)
              (<[path := csv_writerows
                   ((λ n, (n, match successors T n with
                              | nb :: _ => nb
                              | [] => NStr "0"
                              end)) <$> filter (λ n, n ≠ NStr "0") (nodes T))]>
                 (files w))).
Proof.
  intros Hnet. unfold write_network. rewrite bind_unfold.
  by rewrite (read_graph_lookup _ _ _ Hnet).
Qed.

(** C5 as stated fails: a valid tree over integer identifiers, with the
    sink attached, is read back as a graph over strings. *)
Lemma write_load_int_tree_differs :
  let w := World [OGraph int_tree] ∅ in
  check_network 0%nat w = Ok (true, w) ∧
  (∀ n, n ∈ nodes int_tree → n ≠ NStr "0" → ∃ v, successors int_tree n = [v]) ∧
  ∃ r w' T',
    (write_network 0%nat "topology" ≫= λ _, get_raw_network "topology") w = Ok (r, w') ∧
    objs w' !! r = Some (OGraph T') ∧
    ¬ (∀ e, e ∈ g_edges T' ↔ e ∈ g_edges int_tree).
Proof.
  split; [vm_compute; reflexivity|]. split.
  - intros n Hn Hne. vm_compute in Hn.
    apply elem_of_cons in Hn as [->|Hn]; [by exists (NStr "0")|].
    apply elem_of_cons in Hn as [->|Hn]; [done|]. by inversion Hn.
  - eexists _, _, _. split; [vm_compute; reflexivity|].
    split; [vm_compute; reflexivity|].
    intros H. specialize (H (NInt 1, NStr "0")). vm_compute in H.
    destruct H as [_ H]. specialize (H ltac:(by left)).
    apply elem_of_cons in H as [?|H]; [done|]. by inversion H.
Qed.

(** C5, amended.  For every valid tree with the sink convention applied
    (every node other than ['0'] has exactly one outgoing edge) whose node
    identifiers are string tokens (non-empty, printable ASCII without
    blanks and double quotes), writing the tree with [write_network] and
    loading the file with [get_raw_network] yields a graph with the same
    edge set. *)
Theorem write_load_roundtrip (w : world) (net : loc) (T : DiGraph) (path : string) :
  objs w !! net = Some (OGraph T) → wf T →
  check_network net w = Ok (true, w) →
  (∀ n, n ∈ nodes T → ∃ s, n = NStr s ∧ token s) →
  (∀ n, n ∈ nodes T → n ≠ NStr "0" → ∃ v, successors T n = [v]) →
  ∃ r w' T',
    (write_network net path ≫= λ _, get_raw_network path) w = Ok (r, w') ∧
    objs w' !! r = Some (OGraph T') ∧
    ∀ e, e ∈ g_edges T' ↔ e ∈ g_edges T.
Proof.
  intros Hnet Hwf Hvalid Htok Hout.
  assert (acyclic T) as Hac by (by apply (check_network_true_spec w net T Hnet Hwf)).
  pose proof (sink_terminal T Hwf Hac Hout) as Hsink.
  set (rows := (λ n, (n, match successors T n with
                         | nb :: _ => nb
                         | [] => NStr "0"
                         end)) <$> filter (λ n, n ≠ NStr "0") (nodes T)).
  assert (∀ e, e ∈ rows ↔ e ∈ g_edges T) as Hrows.
  { intros [u v]. subst rows. rewrite list_elem_of_fmap. split.
    - intros (n & [= -> ->] & [Hne Hn]%list_elem_of_filter).
      destruct (Hout n Hn Hne) as [v Hv]. rewrite Hv.
      apply (elem_of_successors T n v). rewrite Hv. by left.
    - intros He. assert (u ∈ nodes T) as Hu by apply (wf_ends T Hwf u v He).
      assert (u ≠ NStr "0") as Hne.
      { intros ->. apply elem_of_successors in He. rewrite Hsink in He. by inversion He. }
      exists u. split; [|by apply list_elem_of_filter].
      destruct (Hout u Hu Hne) as [v' Hv']. rewrite Hv'. f_equal.
      apply elem_of_successors in He. rewrite Hv' in He.
      by apply list_elem_of_singleton in He. }
  assert (∀ r, r ∈ rows → ∃ a b, r = (NStr a, NStr b) ∧ token a ∧ token b) as Hrt.
  { intros [u v] He%Hrows. destruct (wf_ends T Hwf u v He) as [Hu Hv].
    destruct (Htok u Hu) as (a & -> & Ha). destruct (Htok v Hv) as (b & -> & Hb).
    by exists a, b. }
  assert ((λ r : node * node, (NStr (py_str r.1), NStr (py_str r.2))) <$> rows = rows)
    as Hid.
  { rewrite <-(list_fmap_id rows) at 2. apply list_fmap_ext.
    intros i r Hr%list_elem_of_lookup_2. by destruct (Hrt r Hr) as (a & b & -> & _). }
  assert (∀ r, r ∈ rows → token (py_str r.1) ∧ token (py_str r.2)) as Hrt'.
  { intros r Hr. by destruct (Hrt r Hr) as (a & b & -> & Ha & Hb). }
  exists (length (objs w)),
    (World (objs w ++ [OGraph (add_edges_from empty_graph rows)])
           (<[path := csv_writerows rows]> (files w))),
    (add_edges_from empty_graph rows).
  split; [|split].
  - rewrite bind_unfold, (write_network_eq w net T path Hnet). fold rows.
    unfold get_raw_network. rewrite bind_unfold. unfold read_file. cbn [files].
    rewrite lookup_insert_eq. rewrite bind_unfold.
    rewrite (file_lines_writerows rows Hrt'). unfold read_edges.
    pose proof (read_edges_rows rows [] Hrt') as Hread. cbv zeta in Hread.
    rewrite Hread, app_nil_l, Hid. done.
  - simpl. by rewrite lookup_app_r, Nat.sub_diag.
  - intros e. rewrite elem_of_g_edges_add_edges_from, <-Hrows. simpl.
    rewrite elem_of_nil. tauto.
Qed.

Lemma write_load_roundtrip_witness :
  ∃ r w' T',
    (write_network 0%nat "topology" ≫= λ _, get_raw_network "topology")
      (World [OGraph str_tree] ∅) = Ok (r, w') ∧
    objs w' !! r = Some (OGraph T') ∧
    ∀ e, e ∈ g_edges T' ↔ e ∈ g_edges str_tree.
Proof.
  apply (write_load_roundtrip (World [OGraph str_tree] ∅) 0%nat str_tree "topology").
  - reflexivity.
  - apply wf_add_edges_from, wf_empty_graph.
  - vm_compute. reflexivity.
  - intros n Hn. vm_compute in Hn.
    repeat (apply elem_of_cons in Hn as [->|Hn];
            [eexists; split; [reflexivity|]; split; [done|vm_compute; reflexivity]|]).
    by inversion Hn.
  - intros n Hn Hne. vm_compute in Hn.
    apply elem_of_cons in Hn as [->|Hn]; [by exists (NStr "2")|].
    apply elem_of_cons in Hn as [->|Hn]; [by exists (NStr "0")|].
    apply elem_of_cons in Hn as [->|Hn]; [done|]. by inversion Hn.
Defined.

(** * Further properties of the module *)

(** ** The loader *)

Lemma read_edges_from_ok lines : ∀ acc,
  (∀ line, line ∈ lines → (2 ≤ length (split line))%nat) →
  ∃ es,
    foldM (λ edges line,
             let p := split line in
             a ← getitem p 0;
             b ← getitem p 1;
             Ok (edges ++ [(NStr a, NStr b)])) acc lines = Ok (acc ++ es) ∧
    ∀ e, e ∈ es ↔ ∃ line a b rest, line ∈ lines ∧ split line = a :: b :: rest ∧
                                    e = (NStr a, NStr b).
Proof.
  induction lines as [|line lines IH]; intros acc Hall.
  - exists []. rewrite app_nil_r. split; [done|]. intros e. split.
    + by intros ?%elem_of_nil.
    + by intros (line & a & b & rest & ?%elem_of_nil & _).
  - pose proof (Hall line ltac:(by left)) as Hlen.
    destruct (split line) as [|a [|b rest]] eqn:E; simpl in Hlen; try lia.
    destruct (IH (acc ++ [(NStr a, NStr b)])) as (es & Hrun & Hes).
    { intros l Hl. apply Hall. by right. }
    exists ((NStr a, NStr b) :: es). split.
    + cbn [foldM]. rewrite E. cbn. cbv zeta in Hrun. rewrite Hrun.
      by rewrite <-app_assoc.
    + intros e. rewrite elem_of_cons, Hes. split.
      * intros [->|(l & a' & b' & r' & Hl & Hs & ->)].
        -- exists line, a, b, rest. split; [by left|done].
        -- exists l, a', b', r'. split; [by right|done].
      * intros (l & a' & b' & r' & [->|Hl]%elem_of_cons & Hs & ->).
        -- left. rewrite E in Hs. by injection Hs as -> -> _.
        -- right. by exists l, a', b', r'.
Qed.

Lemma get_raw_network_spec (w : world) (path content : string) :
  files w !! path = Some content →
  (∀ line, line ∈ file_lines content → (2 ≤ length (split line))%nat) →
  ∃ G,
    get_raw_network path w
      = Ok (length (objs w), World (objs w ++ [OGraph G]) (files w)) ∧
    wf G ∧
    (∀ u v, edge G u v ↔
            ∃ line a b rest, line ∈ file_lines content ∧ split line = a :: b :: rest ∧
                             u = NStr a ∧ v = NStr b) ∧
    (∀ n, n ∈ nodes G ↔ ∃ m, edge G n m ∨ edge G m n) ∧
    (∀ n, n ∈ nodes G → ∃ s, n = NStr s).
Proof.
  intros Hfile Hall.
  destruct (read_edges_from_ok (file_lines content) [] Hall) as (es & Hrun & Hes).
  exists (add_edges_from empty_graph es).
  assert (∀ u v, edge (add_edges_from empty_graph es) u v ↔
            ∃ line a b rest, line ∈ file_lines content ∧ split line = a :: b :: rest ∧
                             u = NStr a ∧ v = NStr b) as Hedges.
  { intros u v. unfold edge. rewrite elem_of_g_edges_add_edges_from, Hes. simpl.
    rewrite elem_of_nil. split.
    - intros [[]|(l & a & b & r & Hl & Hs & [= -> ->])]. by exists l, a, b, r.
    - intros (l & a & b & r & Hl & Hs & -> & ->). right. by exists l, a, b, r. }
  assert (∀ n, n ∈ nodes (add_edges_from empty_graph es) ↔
               ∃ m, edge (add_edges_from empty_graph es) n m ∨
                    edge (add_edges_from empty_graph es) m n) as Hnodes.
  { intros n. rewrite elem_of_nodes_add_edges_from. unfold edge.
    setoid_rewrite elem_of_g_edges_add_edges_from. simpl. split.
    - intros [[]%elem_of_nil|([a b] & He & [->| ->])]; simpl.
      + exists b. left. by right.
      + exists a. right. by right.
    - intros [m [[[]%elem_of_nil|He]|[[]%elem_of_nil|He]]]; right.
      + exists (n, m). split; [done|by left].
      + exists (m, n). split; [done|by right]. }
  split; [|split; [|split; [|split]]].
  - unfold get_raw_network. rewrite bind_unfold. unfold read_file. rewrite Hfile.
    rewrite bind_unfold. unfold read_edges. cbv zeta in Hrun. rewrite Hrun. done.
  - apply wf_add_edges_from, wf_empty_graph.
  - exact Hedges.
  - exact Hnodes.
  - intros n [m [He|He]]%Hnodes; apply Hedges in He
      as (l & a & b & r & _ & _ & -> & ->); by eexists.
Qed.

(** X1.  On a file whose lines all hold at least two tokens the loader
    returns a new graph and changes nothing else.  The graph is
    well formed; its edges are exactly the pairs made of the first two
    tokens of a line (further tokens are ignored, repeated lines give one
    edge); its nodes are the [str] endpoints of its edges. *)
Theorem get_raw_network_edges (w : world) (path content : string) :
  files w !! path = Some content →
  (∀ line, line ∈ file_lines content → (2 ≤ length (split line))%nat) →
  ∃ G,
    get_raw_network path w
      = Ok (length (objs w), World (objs w ++ [OGraph G]) (files w)) ∧
    wf G ∧
    (∀ u v, edge G u v ↔
            ∃ line a b rest, line ∈ file_lines content ∧ split line = a :: b :: rest ∧
                             u = NStr a ∧ v = NStr b) ∧
    (∀ n, n ∈ nodes G ↔ ∃ m, edge G n m ∨ edge G m n) ∧
    (∀ n, n ∈ nodes G → ∃ s, n = NStr s).
Proof. apply get_raw_network_spec. Qed.

Lemma get_raw_network_edges_witness :
  ∃ G,
    get_raw_network "gauges" example_world
      = Ok (length (objs example_world),
            World (objs example_world ++ [OGraph G]) (files example_world)) ∧
    wf G ∧
    (∀ u v, edge G u v ↔
            ∃ line a b rest,
              line ∈ file_lines ("g1 1" +:+ String LF ("g2 2" +:+ String LF EmptyString)) ∧
              split line = a :: b :: rest ∧ u = NStr a ∧ v = NStr b) ∧
    (∀ n, n ∈ nodes G ↔ ∃ m, edge G n m ∨ edge G m n) ∧
    (∀ n, n ∈ nodes G → ∃ s, n = NStr s).
Proof.
  apply (get_raw_network_edges example_world "gauges"
           ("g1 1" +:+ String LF ("g2 2" +:+ String LF EmptyString))).
  - reflexivity.
  - intros line Hin. vm_compute in Hin.
    repeat (apply elem_of_cons in Hin as [->|Hin]; [vm_compute; lia|]).
    by inversion Hin.
Defined.

(** ** The validator *)

Lemma check_network_false_spec (w : world) (net : loc) (G : DiGraph) :
  objs w !! net = Some (OGraph G) → wf G →
  check_network net w = Ok (false, w) ↔
    nodes G ≠ [] ∧
    ¬ (acyclic G ∧ weakly_connected G ∧ number_of_edges G = number_of_nodes G - 1).
Proof.
  intros Hnet Hwf. destruct (decide (nodes G = [])) as [Hn|Hn].
  - rewrite (check_network_null w net G Hnet Hn). split; [done|]. by intros [? _].
  - rewrite (check_network_eq w net G Hnet).
    destruct (is_directed_acyclic_graph_total G Hwf) as [b Hb].
    pose proof (is_directed_acyclic_graph_true G Hwf) as Hdag.
    destruct (is_tree_spec G Hwf Hn) as (t & Ht & Htree).
    rewrite Hb, Ht in *. destruct b.
    + split.
      * intros [= ->]. split; [done|]. intros (_ & Hc & He).
        assert (false = true); [|done]. apply Htree. split; [lia|done].
      * intros [_ Hnot]. destruct t; [|done]. destruct Hnot.
        split; [by apply Hdag|].
        assert (number_of_nodes G - 1 = number_of_edges G ∧ weakly_connected G)
          as [He Hc] by (by apply Htree).
        split; [done|lia].
    + split; [|done]. intros _. split; [done|]. intros (Hac & _).
      apply Hdag in Hac. done.
Qed.

Lemma check_network_total (w : world) (net : loc) (G : DiGraph) :
  objs w !! net = Some (OGraph G) → wf G → nodes G ≠ [] →
  ∃ b, check_network net w = Ok (b, w).
Proof.
  intros Hnet Hwf Hn. rewrite (check_network_eq w net G Hnet).
  destruct (is_directed_acyclic_graph_total G Hwf) as [b Hb].
  destruct (is_tree_spec G Hwf Hn) as (t & Ht & _).
  rewrite Hb, Ht. destruct b; by eexists.
Qed.

(** X2.  On a network that has nodes [check_network] never raises: it
    returns a verdict and leaves the store as it is, and the verdict is
    [False] exactly when the network has a cycle, is not weakly
    connected, or does not have one edge less than it has nodes. *)
Theorem check_network_false_iff (w : world) (net : loc) (G : DiGraph) :
  objs w !! net = Some (OGraph G) → wf G → nodes G ≠ [] →
  (∃ b, check_network net w = Ok (b, w)) ∧
  (check_network net w = Ok (false, w) ↔
   ¬ (acyclic G ∧ weakly_connected G ∧ number_of_edges G = number_of_nodes G - 1)).
Proof.
  intros Hnet Hwf Hn. split; [by apply (check_network_total w net G)|].
  rewrite (check_network_false_spec w net G Hnet Hwf). tauto.
Qed.

Lemma check_network_false_iff_witness :
  (∃ b, check_network 0%nat example_world = Ok (b, example_world)) ∧
  (check_network 0%nat example_world = Ok (false, example_world) ↔
   ¬ (acyclic example_net ∧ weakly_connected example_net ∧
      number_of_edges example_net = number_of_nodes example_net - 1)).
Proof.
  apply (check_network_false_iff example_world 0%nat example_net).
  - reflexivity.
  - apply wf_add_edges_from, wf_empty_graph.
  - vm_compute. done.
Defined.

Lemma nodes_rev_graph G : nodes (rev_graph G) = nodes G.
Proof. done. Qed.

Lemma wf_rev_graph G : wf G → wf (rev_graph G).
Proof.
  intros [H1 H2 H3]. split; [done| |].
  - simpl. apply NoDup_fmap_2; [|done]. intros [a b] [c d] [= -> ->]. done.
  - intros u v Huv. apply (proj1 (edge_rev_graph G u v)) in Huv.
    destruct (H3 v u Huv). done.
Qed.

Lemma path_rev_graph_iff G u v : path (rev_graph G) u v ↔ path G v u.
Proof.
  split; [apply path_rev_graph|].
  induction 1 as [x y Hxy|x y z Hxy _ IH].
  - apply tc_once. by apply edge_rev_graph.
  - eapply tc_r; [exact IH|]. by apply edge_rev_graph.
Qed.

Lemma acyclic_rev_graph G : acyclic (rev_graph G) ↔ acyclic G.
Proof. unfold acyclic. by setoid_rewrite path_rev_graph_iff. Qed.

Lemma weakly_connected_rev_graph G : weakly_connected (rev_graph G) ↔ weakly_connected G.
Proof.
  assert (∀ u v, wedge (rev_graph G) u v ↔ wedge G u v) as Hw.
  { intros u v. unfold wedge. rewrite !edge_rev_graph. tauto. }
  unfold weakly_connected. rewrite nodes_rev_graph.
  split; intros H u v Hu Hv; specialize (H u v Hu Hv);
    revert H; apply rtc_subrel; intros a b; apply Hw.
Qed.

Lemma number_of_edges_rev_graph G : number_of_edges (rev_graph G) = number_of_edges G.
Proof. unfold number_of_edges. simpl. by rewrite length_fmap. Qed.

(** X3.  [check_network] does not see the direction of flow: a network
    and the network with every edge turned around get the same verdict. *)
Theorem check_network_reversed (w w' : world) (net net' : loc) (G : DiGraph) (b : bool) :
  objs w !! net = Some (OGraph G) → objs w' !! net' = Some (OGraph (rev_graph G)) →
  wf G →
  check_network net w = Ok (b, w) ↔ check_network net' w' = Ok (b, w').
Proof.
  intros Hnet Hnet' Hwf. pose proof (wf_rev_graph G Hwf) as Hwf'.
  destruct b.
  - rewrite (check_network_true_spec w net G Hnet Hwf).
    rewrite (check_network_true_spec w' net' _ Hnet' Hwf').
    rewrite acyclic_rev_graph, weakly_connected_rev_graph, number_of_edges_rev_graph.
    done.
  - rewrite (check_network_false_spec w net G Hnet Hwf).
    rewrite (check_network_false_spec w' net' _ Hnet' Hwf').
    rewrite acyclic_rev_graph, weakly_connected_rev_graph, number_of_edges_rev_graph.
    done.
Qed.

Lemma check_network_reversed_witness :
  check_network 0%nat example_world = Ok (true, example_world) ↔
  check_network 0%nat (World [OGraph (rev_graph example_net)] ∅)
    = Ok (true, World [OGraph (rev_graph example_net)] ∅).
Proof.
  apply (check_network_reversed example_world (World [OGraph (rev_graph example_net)] ∅)
           0%nat 0%nat example_net true).
  - reflexivity.
  - reflexivity.
  - apply wf_add_edges_from, wf_empty_graph.
Defined.

(** X4.  On a topology file with at least one line, all lines of at least
    two tokens, [get_network] returns the loaded network when it is
    acyclic, weakly connected and has one edge less than nodes, and
    [None] otherwise; it does not raise. *)
Theorem get_network_verdict (w : world) (path content : string) :
  files w !! path = Some content →
  file_lines content ≠ [] →
  (∀ line, line ∈ file_lines content → (2 ≤ length (split line))%nat) →
  ∃ r w' G,
    get_raw_network path w = Ok (r, w') ∧ objs w' !! r = Some (OGraph G) ∧
    (acyclic G ∧ weakly_connected G ∧ number_of_edges G = number_of_nodes G - 1 →
     get_network path w = Ok (Some r, w')) ∧
    (¬ (acyclic G ∧ weakly_connected G ∧ number_of_edges G = number_of_nodes G - 1) →
     get_network path w = Ok (None, w')).
Proof.
  intros Hfile Hne Hall.
  destruct (get_raw_network_spec w path content Hfile Hall)
    as (G & Hraw & Hwf & Hedges & Hnodes & _).
  set (w' := World (objs w ++ [OGraph G]) (files w)) in *.
  assert (objs w' !! length (objs w) = Some (OGraph G)) as Hr.
  { simpl. by rewrite lookup_app_r, Nat.sub_diag. }
  assert (nodes G ≠ []) as Hnn.
  { destruct (file_lines content) as [|line lines] eqn:E; [done|].
    pose proof (Hall line ltac:(by left)) as Hlen.
    destruct (split line) as [|a [|b rest]] eqn:Es; simpl in Hlen; try lia.
    assert (NStr a ∈ nodes G) as Hin.
    { apply Hnodes. exists (NStr b). left. apply Hedges.
      exists line, a, b, rest. split; [by left|done]. }
    intros Hnil. rewrite Hnil in Hin. by inversion Hin. }
  exists (length (objs w)), w', G. split; [done|]. split; [done|].
  unfold get_network. rewrite bind_unfold, Hraw. split.
  - intros (Hac & Hc & He). rewrite bind_unfold.
    rewrite (proj2 (check_network_true_spec w' _ G Hr Hwf)); [done|]. done.
  - intros Hnot. rewrite bind_unfold.
    rewrite (proj2 (check_network_false_spec w' _ G Hr Hwf)); [done|]. done.
Qed.

Lemma get_network_verdict_witness :
  ∃ r w' G,
    get_raw_network "gauges" example_world = Ok (r, w') ∧
    objs w' !! r = Some (OGraph G) ∧
    (acyclic G ∧ weakly_connected G ∧ number_of_edges G = number_of_nodes G - 1 →
     get_network "gauges" example_world = Ok (Some r, w')) ∧
    (¬ (acyclic G ∧ weakly_connected G ∧ number_of_edges G = number_of_nodes G - 1) →
     get_network "gauges" example_world = Ok (None, w')).
Proof.
  apply (get_network_verdict example_world "gauges"
           ("g1 1" +:+ String LF ("g2 2" +:+ String LF EmptyString))).
  - reflexivity.
  - vm_compute. done.
  - intros line Hin. vm_compute in Hin.
    repeat (apply elem_of_cons in Hin as [->|Hin]; [vm_compute; lia|]).
    by inversion Hin.
Defined.

(** ** The upstream subnetwork *)

Lemma upstream_edges G v up :
  wf G → bfs_tree_nodes G v true = Ok up →
  ∀ a b, edge (subgraph_copy G up) a b ↔ edge G a b ∧ (b = v ∨ ancestor G b v).
Proof.
  intros Hwf Hup a b.
  destruct (bfs_tree_nodes_reverse G v up Hwf Hup) as (_ & Hv & Hmem).
  unfold edge at 1. rewrite elem_of_g_edges_subgraph_copy by done. rewrite !Hmem.
  split; [tauto|].
  intros [He Hb]. split; [done|]. split; [|done]. right.
  destruct Hb as [->|Hb]; [by apply tc_once|]. by eapply tc_l.
Qed.

Lemma upstream_path G v up :
  wf G → bfs_tree_nodes G v true = Ok up →
  ∀ x y, path (subgraph_copy G up) x y ↔ path G x y ∧ (y = v ∨ ancestor G y v).
Proof.
  intros Hwf Hup x y. split.
  - induction 1 as [x y He|x y z He _ IH].
    + apply (upstream_edges G v up Hwf Hup) in He as [He Hy]. split; [by apply tc_once|done].
    + apply (upstream_edges G v up Hwf Hup) in He as [He _].
      destruct IH as [IH Hz]. split; [by eapply tc_l|done].
  - intros [Hp Hy]. induction Hp as [x y He|x y z He Hp IH].
    + apply tc_once. by apply (upstream_edges G v up Hwf Hup).
    + eapply tc_l; [|by apply IH].
      apply (upstream_edges G v up Hwf Hup). split; [done|]. right.
      destruct Hy as [->|Hz]; [done|]. by eapply tc_transitive.
Qed.

Lemma get_up_streem_network_spec (w : world) (net : loc) (G : DiGraph) (v : node) :
  objs w !! net = Some (OGraph G) → wf G → v ∈ nodes G →
  ∃ up,
    bfs_tree_nodes G v true = Ok up ∧
    get_up_streem_network net v w
      = Ok (length (objs w), World (objs w ++ [OGraph (subgraph_copy G up)]) (files w)).
Proof.
  intros Hnet Hwf Hv. destruct (bfs_tree_nodes_total G v Hv) as [up Hup].
  exists up. split; [done|].
  by rewrite (get_up_streem_network_eq w net G v Hnet), Hup.
Qed.

(** X5.  For a node [v] of the network, [get_up_streem_network] returns
    the subgraph induced by [v] and its ancestors: its nodes are exactly
    these, its edges are exactly the edges of the network that end at one
    of them, and every node has its in-degree of the network. *)
Theorem get_up_streem_network_induced (w : world) (net : loc) (G : DiGraph) (v : node) :
  objs w !! net = Some (OGraph G) → wf G → v ∈ nodes G →
  ∃ r w' U,
    get_up_streem_network net v w = Ok (r, w') ∧
    objs w' !! r = Some (OGraph U) ∧ wf U ∧
    (∀ x, x ∈ nodes U ↔ x = v ∨ ancestor G x v) ∧
    (∀ a b, edge U a b ↔ edge G a b ∧ (b = v ∨ ancestor G b v)) ∧
    (∀ x, x ∈ nodes U → in_degree U x = in_degree G x).
Proof.
  intros Hnet Hwf Hv.
  destruct (get_up_streem_network_spec w net G v Hnet Hwf Hv) as (up & Hup & Hrun).
  eexists _, _, (subgraph_copy G up). split; [exact Hrun|].
  split; [simpl; by rewrite lookup_app_r, Nat.sub_diag|].
  split; [by apply wf_subgraph_copy|].
  split; [apply (upstream_nodes G v up Hwf Hup)|].
  split; [apply (upstream_edges G v up Hwf Hup)|].
  intros x Hx%(upstream_nodes G v up Hwf Hup). unfold in_degree. f_equal.
  apply Permutation_length, NoDup_Permutation.
  - apply NoDup_predecessors, wf_subgraph_copy, Hwf.
  - apply NoDup_predecessors, Hwf.
  - intros a. rewrite !elem_of_predecessors, (upstream_edges G v up Hwf Hup). tauto.
Qed.

Lemma get_up_streem_network_induced_witness :
  ∃ r w' U,
    get_up_streem_network 0%nat (NInt 3) example_world = Ok (r, w') ∧
    objs w' !! r = Some (OGraph U) ∧ wf U ∧
    (∀ x, x ∈ nodes U ↔ x = NInt 3 ∨ ancestor example_net x (NInt 3)) ∧
    (∀ a b, edge U a b ↔ edge example_net a b ∧ (b = NInt 3 ∨ ancestor example_net b (NInt 3))) ∧
    (∀ x, x ∈ nodes U → in_degree U x = in_degree example_net x).
Proof.
  apply (get_up_streem_network_induced example_world 0%nat example_net (NInt 3)).
  - reflexivity.
  - apply wf_add_edges_from, wf_empty_graph.
  - vm_compute. set_solver.
Defined.

(** X6.  Upstream subnetworks nest: for a node [u] of the upstream
    subnetwork of [v], the upstream subnetwork of [u] taken in that
    subnetwork has the nodes and the edges of the upstream subnetwork of
    [u] taken in the whole network.  With [u = v], taking the upstream
    subnetwork twice gives the nodes and edges of taking it once. *)
Theorem get_up_streem_network_nested (w : world) (net : loc) (G : DiGraph) (v u : node)
    (r1 : loc) (w1 : world) :
  objs w !! net = Some (OGraph G) → wf G →
  get_up_streem_network net v w = Ok (r1, w1) →
  u = v ∨ ancestor G u v →
  ∃ r2 w2 r3 w3 U2 U3,
    get_up_streem_network r1 u w1 = Ok (r2, w2) ∧
    get_up_streem_network net u w = Ok (r3, w3) ∧
    objs w2 !! r2 = Some (OGraph U2) ∧ objs w3 !! r3 = Some (OGraph U3) ∧
    (∀ x, x ∈ nodes U2 ↔ x ∈ nodes U3) ∧
    (∀ a b, edge U2 a b ↔ edge U3 a b).
Proof.
  intros Hnet Hwf Hrun Hu.
  rewrite (get_up_streem_network_eq w net G v Hnet) in Hrun.
  destruct (bfs_tree_nodes G v true) as [up| |] eqn:Hup; [|done|done].
  injection Hrun as <- <-.
  set (U := subgraph_copy G up).
  assert (wf U) as HwfU by (by apply wf_subgraph_copy).
  assert (u ∈ nodes U) as HuU by (by apply (upstream_nodes G v up Hwf Hup)).
  assert (u ∈ nodes G) as HuG.
  { unfold U in HuU. rewrite nodes_subgraph_copy in HuU.
    by apply list_elem_of_filter in HuU as [_ ?]. }
  set (w1 := World (objs w ++ [OGraph U]) (files w)).
  assert (objs w1 !! length (objs w) = Some (OGraph U)) as Hr1.
  { simpl. by rewrite lookup_app_r, Nat.sub_diag. }
  destruct (get_up_streem_network_spec w1 _ U u Hr1 HwfU HuU) as (up2 & Hup2 & Hrun2).
  destruct (get_up_streem_network_spec w net G u Hnet Hwf HuG) as (up3 & Hup3 & Hrun3).
  eexists _, _, _, _, (subgraph_copy U up2), (subgraph_copy G up3).
  split; [exact Hrun2|]. split; [exact Hrun3|].
  split; [simpl; by rewrite lookup_app_r, Nat.sub_diag|].
  split; [simpl; by rewrite lookup_app_r, Nat.sub_diag|].
  assert (∀ x, ancestor U x u ↔ ancestor G x u) as Hanc.
  { intros x. unfold ancestor, U. rewrite (upstream_path G v up Hwf Hup). tauto. }
  assert (∀ b, b = u ∨ ancestor G b u → b = v ∨ ancestor G b v) as Hin.
  { intros b [->|Hb]; [done|]. right.
    destruct Hu as [->|Hu]; [done|]. by eapply tc_transitive. }
  split.
  - intros x. rewrite (upstream_nodes U u up2 HwfU Hup2), (upstream_nodes G u up3 Hwf Hup3).
    by rewrite Hanc.
  - intros a b. rewrite (upstream_edges U u up2 HwfU Hup2), (upstream_edges G u up3 Hwf Hup3).
    rewrite Hanc. unfold U. rewrite (upstream_edges G v up Hwf Hup). split; [tauto|].
    intros [He Hb]. split; [|done]. split; [done|]. by apply Hin.
Qed.

Lemma get_up_streem_network_nested_witness :
  ∃ r1 w1, get_up_streem_network 0%nat (NInt 3) example_world = Ok (r1, w1) ∧
  ∃ r2 w2 r3 w3 U2 U3,
    get_up_streem_network r1 (NInt 2) w1 = Ok (r2, w2) ∧
    get_up_streem_network 0%nat (NInt 2) example_world = Ok (r3, w3) ∧
    objs w2 !! r2 = Some (OGraph U2) ∧ objs w3 !! r3 = Some (OGraph U3) ∧
    (∀ x, x ∈ nodes U2 ↔ x ∈ nodes U3) ∧
    (∀ a b, edge U2 a b ↔ edge U3 a b).
Proof.
  eexists _, _. split; [vm_compute; reflexivity|].
  apply (get_up_streem_network_nested example_world 0%nat example_net (NInt 3) (NInt 2)).
  - reflexivity.
  - apply wf_add_edges_from, wf_empty_graph.
  - vm_compute. reflexivity.
  - right. apply tc_once. vm_compute. set_solver.
Defined.

(** X7.  [get_downstream_network] returns no graph, whatever the node:
    for a node that is not in the network it raises [NetworkXError], as
    [get_up_streem_network] does, and for a node of the network it raises
    [TypeError]. *)
Theorem get_downstream_network_never_returns (w : world) (net : loc) (G : DiGraph)
    (v : node) :
  objs w !! net = Some (OGraph G) →
  (v ∉ nodes G →
   get_up_streem_network net v w = Raise NetworkXError ∧
   get_downstream_network net v w = Raise NetworkXError) ∧
  (v ∈ nodes G → get_downstream_network net v w = Raise TypeError) ∧
  ∀ r w', get_downstream_network net v w ≠ Ok (r, w').
Proof.
  intros Hnet.
  assert (v ∉ nodes G → get_downstream_network net v w = Raise NetworkXError) as Hout.
  { intros Hv. unfold get_downstream_network. rewrite bind_unfold.
    rewrite (read_graph_lookup _ _ _ Hnet).
    by rewrite (proj2 (has_node_false G v) Hv). }
  assert (v ∈ nodes G → get_downstream_network net v w = Raise TypeError) as Hin.
  { intros Hv. destruct (bfs_tree_nodes_total G v Hv) as [up Hup].
    pose proof (get_up_streem_network_eq w net G v Hnet) as Heq. rewrite Hup in Heq.
    unfold get_downstream_network. rewrite bind_unfold.
    rewrite (read_graph_lookup _ _ _ Hnet).
    rewrite (proj2 (has_node_true G v) Hv). simpl.
    rewrite bind_unfold, Heq, bind_unfold. unfold read_obj. simpl.
    by rewrite lookup_app_r, Nat.sub_diag. }
  split; [|split; [done|]].
  - intros Hv. split; [|by apply Hout].
    rewrite (get_up_streem_network_eq w net G v Hnet). unfold bfs_tree_nodes.
    by rewrite (proj2 (has_node_false G v) Hv).
  - intros r w' Hrun. destruct (decide (v ∈ nodes G)) as [Hv|Hv].
    + by rewrite (Hin Hv) in Hrun.
    + by rewrite (Hout Hv) in Hrun.
Qed.

Lemma get_downstream_network_never_returns_witness :
  (get_up_streem_network 0%nat (NInt 9) example_world = Raise NetworkXError ∧
   get_downstream_network 0%nat (NInt 9) example_world = Raise NetworkXError) ∧
  get_downstream_network 0%nat (NInt 2) example_world = Raise TypeError ∧
  ∀ r w', get_downstream_network 0%nat (NInt 9) example_world ≠ Ok (r, w').
Proof.
  destruct (get_downstream_network_never_returns example_world 0%nat example_net (NInt 9))
    as (H1 & _ & H3); [reflexivity|].
  destruct (get_downstream_network_never_returns example_world 0%nat example_net (NInt 2))
    as (_ & H2 & _); [reflexivity|].
  split; [|split; [|done]].
  - apply H1. apply (bool_decide_unpack _). vm_compute. exact I.
  - apply H2. apply (bool_decide_unpack _). vm_compute. exact I.
Defined.

(** ** Cutting the network at the gauges *)

Lemma elem_of_g_edges_remove_nodes_from ns : ∀ G u v,
  (u, v) ∈ g_edges (remove_nodes_from G ns) ↔ (u, v) ∈ g_edges G ∧ (u ∉ ns) ∧ (v ∉ ns).
Proof.
  unfold remove_nodes_from. induction ns as [|n ns IH]; intros G u v; simpl.
  - rewrite !elem_of_nil. tauto.
  - rewrite IH. simpl. rewrite list_elem_of_filter, !not_elem_of_cons. simpl. tauto.
Qed.

Lemma calibrate_step_nodes outlet G value x :
  wf G →
  x ∈ nodes (calibrate_step outlet G value) ↔
    x ∈ nodes G ∧
    ¬ (value ∈ nodes G ∧ value ≠ outlet ∧ x ≠ value ∧ ancestor G x value).
Proof.
  intros Hwf. unfold calibrate_step.
  destruct (has_node G value) eqn:Hv; simpl.
  - apply has_node_true in Hv.
    destruct (bool_decide_reflect (value ≠ outlet)) as [Hne|Heq]; simpl.
    + destruct (bfs_tree_nodes_reverse G value _ Hwf
                  ltac:(unfold bfs_tree_nodes; by rewrite (proj2 (has_node_true G value) Hv)))
        as (_ & _ & Hmem).
      rewrite nodes_remove_nodes_from, list_elem_of_filter, Hmem.
      destruct (decide (x = value)); tauto.
    + tauto.
  - apply has_node_false in Hv. tauto.
Qed.

Lemma calibrate_step_edges outlet G value a b :
  wf G →
  edge (calibrate_step outlet G value) a b ↔
    edge G a b ∧ a ∈ nodes (calibrate_step outlet G value)
               ∧ b ∈ nodes (calibrate_step outlet G value).
Proof.
  intros Hwf. split.
  - intros He. split.
    + unfold calibrate_step in He.
      destruct (has_node G value && bool_decide (value ≠ outlet)); [|done].
      by apply g_edges_remove_nodes_from in He.
    + by apply (wf_ends _ (wf_calibrate_step outlet G value Hwf)).
  - intros (He & Ha & Hb). unfold calibrate_step in *.
    destruct (has_node G value && bool_decide (value ≠ outlet)); [|done].
    apply nodes_remove_nodes_from in Ha as [_ Ha].
    apply nodes_remove_nodes_from in Hb as [_ Hb].
    by apply elem_of_g_edges_remove_nodes_from.
Qed.

Lemma calibrate_loop_spec outlet ns : ∀ G,
  wf G →
  (∀ x, x ∈ nodes (foldl (calibrate_step outlet) G ns) → x ∈ nodes G) ∧
  (∀ a b, edge (foldl (calibrate_step outlet) G ns) a b ↔
          edge G a b ∧ a ∈ nodes (foldl (calibrate_step outlet) G ns)
                     ∧ b ∈ nodes (foldl (calibrate_step outlet) G ns)) ∧
  (∀ value u, value ∈ ns → value ≠ outlet →
              edge (foldl (calibrate_step outlet) G ns) u value → u = value) ∧
  (∀ x, x ∈ nodes G →
        (∀ value, value ∈ ns → value ≠ outlet → x ≠ value → ¬ ancestor G x value) →
        x ∈ nodes (foldl (calibrate_step outlet) G ns)).
Proof.
  induction ns as [|value ns IH]; intros G Hwf.
  - simpl. split; [done|]. split; [|split].
    + intros a b. split; [|tauto]. intros He. split; [done|]. by apply (wf_ends G Hwf).
    + by intros value u ?%elem_of_nil.
    + done.
  - simpl. set (G1 := calibrate_step outlet G value).
    assert (wf G1) as Hwf1 by (by apply wf_calibrate_step).
    destruct (IH G1 Hwf1) as (Hsub & Hedges & Hcut & Hkeep).
    set (F := foldl (calibrate_step outlet) G1 ns) in *.
    assert (wf F) as HwfF by (by apply wf_calibrate_loop).
    assert (∀ a b, path G1 a b → path G a b) as Hpath.
    { intros a b. induction 1 as [a b He|a b c He _ IHp].
      - apply tc_once. by apply (calibrate_step_edges outlet G value a b Hwf).
      - eapply tc_l; [|exact IHp]. by apply (calibrate_step_edges outlet G value a b Hwf). }
    split; [|split; [|split]].
    + intros x Hx%Hsub. by apply (calibrate_step_nodes outlet G value x Hwf) in Hx as [? _].
    + intros a b. rewrite Hedges. unfold G1.
      rewrite (calibrate_step_edges outlet G value a b Hwf). split; [tauto|].
      intros (He & Ha & Hb). split; [|done]. split; [done|]. split; by apply Hsub.
    + intros val u [->|Hin]%elem_of_cons Hne He.
      * apply Hedges in He as (He & Hu & _).
        pose proof (wf_ends G1 Hwf1 u value He) as [_ Hv1].
        apply (calibrate_step_edges outlet G value u value Hwf) in He as (He & Hu1 & _).
        apply (calibrate_step_nodes outlet G value u Hwf) in Hu1 as [_ Hnot].
        apply (calibrate_step_nodes outlet G value value Hwf) in Hv1 as [Hv _].
        destruct (decide (u = value)) as [|Hneq]; [done|].
        destruct Hnot. split; [done|]. split; [done|]. split; [done|]. by apply tc_once.
      * by apply (Hcut val u).
    + intros x Hx Hall. apply Hkeep.
      * apply (calibrate_step_nodes outlet G value x Hwf). split; [done|].
        intros (_ & Hne & Hxv & Hanc). apply (Hall value); [by left|done|done|done].
      * intros val Hin Hne Hxv Hanc%Hpath. apply (Hall val); [by right|done|done|done].
Qed.

(** X8.  [filter_to_calibrate] mutates the graph it is given into an
    induced subgraph of itself.  In the result no listed node other than
    the outlet has an incoming edge from another node, and every node that
    is not a strict ancestor of a listed node other than the outlet is
    kept. *)
Theorem filter_to_calibrate_cut (w : world) (net : loc) (G : DiGraph) (ns : list node)
    (outlet : node) :
  objs w !! net = Some (OGraph G) → wf G →
  ∃ F,
    filter_to_calibrate net ns outlet w = Ok (net, put net (OGraph F) w) ∧
    wf F ∧
    (∀ x, x ∈ nodes F → x ∈ nodes G) ∧
    (∀ a b, edge F a b ↔ edge G a b ∧ a ∈ nodes F ∧ b ∈ nodes F) ∧
    (∀ value u, value ∈ ns → value ≠ outlet → edge F u value → u = value) ∧
    (∀ x, x ∈ nodes G →
          (∀ value, value ∈ ns → value ≠ outlet → x ≠ value → ¬ ancestor G x value) →
          x ∈ nodes F).
Proof.
  intros Hnet Hwf. exists (foldl (calibrate_step outlet) G ns).
  split; [by apply filter_to_calibrate_eq|].
  split; [by apply wf_calibrate_loop|].
  by apply calibrate_loop_spec.
Qed.

Lemma filter_to_calibrate_cut_witness :
  ∃ F,
    filter_to_calibrate 0%nat [NInt 2; NInt 3] (NInt 2) example_world
      = Ok (0%nat, put 0%nat (OGraph F) example_world) ∧
    wf F ∧
    (∀ x, x ∈ nodes F → x ∈ nodes example_net) ∧
    (∀ a b, edge F a b ↔ edge example_net a b ∧ a ∈ nodes F ∧ b ∈ nodes F) ∧
    (∀ value u, value ∈ [NInt 2; NInt 3] → value ≠ NInt 2 → edge F u value → u = value) ∧
    (∀ x, x ∈ nodes example_net →
          (∀ value, value ∈ [NInt 2; NInt 3] → value ≠ NInt 2 → x ≠ value →
                    ¬ ancestor example_net x value) →
          x ∈ nodes F).
Proof.
  apply (filter_to_calibrate_cut example_world 0%nat example_net [NInt 2; NInt 3] (NInt 2)).
  - reflexivity.
  - apply wf_add_edges_from, wf_empty_graph.
Defined.

(** ** The graph returned by [get_subgraph] *)

Lemma annotate_step_structure gd rd outlet G n G1 :
  annotate_step gd rd outlet G n = Ok G1 →
  nodes G1 = nodes G ∧ g_edges G1 = g_edges G.
Proof.
  unfold annotate_step. intros Hstep.
  destruct (if bool_decide (n ∈ dict_values gd) then _ else _) as [gc| |];
    [|done|done].
  cbn in Hstep. injection Hstep as <-. by rewrite nodes_set_node_attrs.
Qed.

Lemma annotate_loop_structure gd rd outlet L : ∀ G R,
  foldM (annotate_step gd rd outlet) G L = Ok R →
  nodes R = nodes G ∧ g_edges R = g_edges G.
Proof.
  induction L as [|n L IH]; intros G R Hrun.
  - simpl in Hrun. by injection Hrun as <-.
  - cbn [foldM] in Hrun.
    destruct (annotate_step gd rd outlet G n) as [G1| |] eqn:Hstep; [|done|done].
    cbn in Hrun. destruct (annotate_step_structure _ _ _ _ _ _ Hstep) as [Hn He].
    destruct (IH G1 R Hrun) as [Hn' He']. by rewrite Hn', He', Hn, He.
Qed.

Lemma path_same_edges G G' a b : g_edges G' = g_edges G → path G a b → path G' a b.
Proof.
  intros He. induction 1 as [a b Hab|a b c Hab _ IH].
  - apply tc_once. unfold edge in *. by rewrite He.
  - eapply tc_l; [|exact IH]. unfold edge in *. by rewrite He.
Qed.

Lemma get_subgraph_result (w : world) (net gauge : loc) (G : DiGraph)
    (gd : list (string * node)) (gauge_id : string) (is_calibration : bool)
    (r : loc) (w' : world) :
  objs w !! net = Some (OGraph G) → objs w !! gauge = Some (ODict gd) → wf G →
  get_subgraph net gauge gauge_id is_calibration w = Ok (r, w') →
  ∃ R outlet,
    objs w' !! r = Some (OGraph R) ∧ dict_get gd gauge_id = Some outlet ∧
    wf R ∧ acyclic R ∧
    outlet ∈ nodes R ∧ NStr "0" ∈ nodes R ∧ edge R outlet (NStr "0") ∧
    (∀ x, x ∈ nodes R → x = outlet ∨ ancestor G x outlet ∨ x = NStr "0") ∧
    (∀ a b, edge R a b → edge G a b ∨ (a = outlet ∧ b = NStr "0")) ∧
    (is_calibration = false →
     (∀ x, x = outlet ∨ ancestor G x outlet → x ∈ nodes R) ∧
     (∀ a b, edge G a b → b = outlet ∨ ancestor G b outlet → edge R a b)).
Proof.
  intros Hnet Hg Hwf Hrun.
  destruct (get_subgraph_inv _ _ _ _ _ _ _ _ _ Hnet Hg Hrun)
    as (outlet & up & rd' & gd' & L & R & Hout & Hup & Hprune & HL & HR & -> & ->).
  set (Gup := subgraph_copy G up) in *.
  set (X := if is_calibration then foldl (calibrate_step outlet) Gup (dict_keys rd')
            else Gup) in *.
  set (R0 := set_calibrate_all _ _) in *.
  assert (wf Gup) as HwfU by (by apply wf_subgraph_copy).
  assert (wf X) as HwfX.
  { unfold X. destruct is_calibration; [by apply wf_calibrate_loop|done]. }
  assert (nodes R0 = nodes (add_edges_from X [(outlet, NStr "0")])) as HnR0.
  { unfold R0. by rewrite nodes_set_calibrate_all, nodes_set_gauge_all. }
  assert (g_edges R0 = g_edges (add_edges_from X [(outlet, NStr "0")])) as HeR0 by done.
  assert (wf R0) as HwfR0.
  { eapply wf_same_structure; [exact HnR0|exact HeR0|]. by apply wf_add_edges_from. }
  destruct (annotate_loop_structure _ _ _ _ _ _ HR) as [HnR HeR].
  assert (wf R) as HwfR by (by eapply wf_same_structure).
  assert (∀ x, x ∈ nodes X → x ∈ nodes Gup) as HXn.
  { unfold X. destruct is_calibration; [|done].
    apply (calibrate_loop_spec outlet (dict_keys rd') Gup HwfU). }
  assert (∀ a b, edge X a b → edge Gup a b) as HXe.
  { unfold X. destruct is_calibration; [|done]. intros a b He.
    by apply (calibrate_loop_spec outlet (dict_keys rd') Gup HwfU) in He as [? _]. }
  assert (gauge < length (objs w))%nat as Hlt by (by eapply lookup_lt_Some).
  exists R, outlet.
  split.
  { apply lookup_put_eq. simpl. rewrite length_insert, length_app. simpl. lia. }
  split; [done|]. split; [done|]. split.
  { intros x Hx. apply (topological_sort_Ok_acyclic R0 L HwfR0 HL x).
    by apply (path_same_edges R R0). }
  split.
  { rewrite HnR, HnR0. apply elem_of_nodes_add_edges_from. right.
    exists (outlet, NStr "0"). split; [by left|by left]. }
  split.
  { rewrite HnR, HnR0. apply elem_of_nodes_add_edges_from. right.
    exists (outlet, NStr "0"). split; [by left|by right]. }
  split.
  { unfold edge. rewrite HeR, HeR0. apply elem_of_g_edges_add_edges_from. right. by left. }
  split.
  { intros x. rewrite HnR, HnR0, elem_of_nodes_add_edges_from.
    intros [Hx%HXn|(e & ->%list_elem_of_singleton & Hx)].
    - apply (upstream_nodes G outlet up Hwf Hup) in Hx. tauto.
    - simpl in Hx. tauto. }
  split.
  { intros a b. unfold edge at 1. rewrite HeR, HeR0, elem_of_g_edges_add_edges_from.
    intros [He%HXe|[= -> ->]%list_elem_of_singleton]; [|by right].
    left. by apply (upstream_edges G outlet up Hwf Hup) in He as [? _]. }
  intros ->. unfold X in *. split.
  - intros x Hx. rewrite HnR, HnR0, elem_of_nodes_add_edges_from. left.
    by apply (upstream_nodes G outlet up Hwf Hup).
  - intros a b He Hb. unfold edge. rewrite HeR, HeR0, elem_of_g_edges_add_edges_from.
    left. by apply (upstream_edges G outlet up Hwf Hup).
Qed.

(** X9.  A graph returned by [get_subgraph] is acyclic and holds the
    gauged node, the sink ['0'] and the edge from the one to the other.
    Each of its nodes is the gauged node, one of its ancestors in the
    network, or the sink; each of its edges is an edge of the network or
    the edge to the sink.  Without calibration the graph holds the gauged
    node with all its ancestors and every edge of the network that ends at
    one of them. *)
Theorem get_subgraph_upstream_with_sink (w : world) (net gauge : loc) (G : DiGraph)
    (gd : list (string * node)) (gauge_id : string) (is_calibration : bool)
    (r : loc) (w' : world) :
  objs w !! net = Some (OGraph G) → objs w !! gauge = Some (ODict gd) → wf G →
  get_subgraph net gauge gauge_id is_calibration w = Ok (r, w') →
  ∃ R outlet,
    objs w' !! r = Some (OGraph R) ∧ dict_get gd gauge_id = Some outlet ∧
    wf R ∧ acyclic R ∧
    outlet ∈ nodes R ∧ NStr "0" ∈ nodes R ∧ edge R outlet (NStr "0") ∧
    (∀ x, x ∈ nodes R → x = outlet ∨ ancestor G x outlet ∨ x = NStr "0") ∧
    (∀ a b, edge R a b → edge G a b ∨ (a = outlet ∧ b = NStr "0")) ∧
    (is_calibration = false →
     (∀ x, x = outlet ∨ ancestor G x outlet → x ∈ nodes R) ∧
     (∀ a b, edge G a b → b = outlet ∨ ancestor G b outlet → edge R a b)).
Proof. apply get_subgraph_result. Qed.

Lemma get_subgraph_upstream_with_sink_witness :
  ∃ r w', get_subgraph 0%nat 1%nat "g3" false example_world = Ok (r, w') ∧
  ∃ R outlet,
    objs w' !! r = Some (OGraph R) ∧ dict_get example_gauge "g3" = Some outlet ∧
    wf R ∧ acyclic R ∧
    outlet ∈ nodes R ∧ NStr "0" ∈ nodes R ∧ edge R outlet (NStr "0") ∧
    (∀ x, x ∈ nodes R → x = outlet ∨ ancestor example_net x outlet ∨ x = NStr "0") ∧
    (∀ a b, edge R a b → edge example_net a b ∨ (a = outlet ∧ b = NStr "0")) ∧
    (false = false →
     (∀ x, x = outlet ∨ ancestor example_net x outlet → x ∈ nodes R) ∧
     (∀ a b, edge example_net a b → b = outlet ∨ ancestor example_net b outlet → edge R a b)).
Proof.
  eexists _, _. split; [vm_compute; reflexivity|].
  apply (get_subgraph_upstream_with_sink example_world 0%nat 1%nat example_net
           example_gauge "g3" false).
  - reflexivity.
  - reflexivity.
  - apply wf_add_edges_from, wf_empty_graph.
  - vm_compute. reflexivity.
Defined.

(** ** Running [get_subgraph] *)

Lemma get_subgraph_eq w net gauge G gd gauge_id is_calibration :
  objs w !! net = Some (OGraph G) → objs w !! gauge = Some (ODict gd) →
  get_subgraph net gauge gauge_id is_calibration w =
    match subgraph_run G gd gauge_id is_calibration with
    | Ok res =>
        Ok (length (objs w),
            put (length (objs w)) (OGraph res.2)
              (put gauge (ODict res.1.2)
                 (World (objs w ++ [OGraph res.1.1]) (files w))))
    | Raise e => Raise e
    | OutOfFuel => OutOfFuel
    end.
Proof.
  intros Hnet Hg. unfold get_subgraph, subgraph_run.
  assert (gauge < length (objs w))%nat as Hlt by (by eapply lookup_lt_Some).
  rewrite bind_unfold, (read_dict_lookup _ _ _ Hg).
  rewrite bind_unfold. unfold lift at 1.
  destruct (dict_get gd gauge_id) as [outlet|]; [|done]. cbn [mbind result_bind].
  rewrite bind_unfold, (get_up_streem_network_eq w net G outlet Hnet).
  destruct (bfs_tree_nodes G outlet true) as [up| |] eqn:Hup; [|done|done].
  cbn [mbind result_bind].
  set (Gup := subgraph_copy G up).
  set (w1 := World (objs w ++ [OGraph Gup]) (files w)).
  set (r0 := length (objs w)).
  assert (objs w1 !! r0 = Some (OGraph Gup)) as Hr0.
  { simpl. subst r0. by rewrite lookup_app_r, Nat.sub_diag. }
  assert (objs w1 !! gauge = Some (ODict gd)) as Hg1.
  { simpl. by rewrite lookup_app_l. }
  assert (gauge ≠ r0) as Hne by (subst r0; lia).
  cbv zeta. rewrite bind_unfold, (read_graph_lookup _ _ _ Hr0).
  rewrite bind_unfold.
  rewrite (for_fold_put _ _ prune_step gauge ODict
             (λ w s t x Ht, prune_body_eq gauge w s t x Ht) w1 _ gd Hg1).
  destruct (foldM prune_step _ _) as [[rd' gd']| |] eqn:Hprune; [|done|done].
  cbn [fst snd mbind result_bind].
  set (w2 := put gauge (ODict gd') w1).
  assert (objs w2 !! r0 = Some (OGraph Gup)) as Hr2.
  { subst w2. by rewrite lookup_put_ne. }
  assert (objs w2 !! gauge = Some (ODict gd')) as Hg2.
  { subst w2. apply lookup_put_eq. simpl. rewrite length_app. lia. }
  assert (r0 < length (objs w2))%nat as Hlt2 by (by eapply lookup_lt_Some).
  rewrite bind_unfold.
  set (Gf := if is_calibration
             then foldl (calibrate_step outlet) Gup (dict_keys rd') else Gup).
  assert ((if is_calibration
           then filter_to_calibrate r0 (dict_keys rd') outlet
           else @mret M _ loc r0) w2 = Ok (r0, put r0 (OGraph Gf) w2)) as ->.
  { subst Gf. destruct is_calibration.
    - by apply filter_to_calibrate_eq.
    - unfold mret, M_ret. by rewrite put_id. }
  rewrite bind_unfold. erewrite update_graph_eq by (by apply lookup_put_eq).
  rewrite put_put_eq.
  rewrite bind_unfold. erewrite update_graph_eq by (by apply lookup_put_eq).
  rewrite put_put_eq.
  rewrite bind_unfold. erewrite update_graph_eq by (by apply lookup_put_eq).
  rewrite put_put_eq.
  rewrite bind_unfold. erewrite read_graph_lookup by (by apply lookup_put_eq).
  rewrite bind_unfold. unfold lift at 1.
  destruct (topological_sort _) as [L| |] eqn:HL; [|done|done].
  cbn [mbind result_bind].
  rewrite bind_unfold.
  erewrite (for_each_put L _ (annotate_step gd' rd' outlet) r0 OGraph
              (λ w, objs w !! gauge = Some (ODict gd'))).
  2:{ intros w0 o Hw0. by rewrite lookup_put_ne by done. }
  2:{ intros w0 t x Hw0 Ht. by apply annotate_node_eq. }
  2:{ by rewrite lookup_put_ne by done. }
  2:{ by apply lookup_put_eq. }
  destruct (foldM (annotate_step gd' rd' outlet) _ L) as [R| |] eqn:HR; [|done|done].
  rewrite put_put_eq. done.
Qed.

(** ** When [get_subgraph] returns *)

Lemma prune_run (gd : list (string * node)) (Gup : DiGraph) :
  NoDup (dict_keys gd) → NoDup (dict_values gd) →
  foldM prune_step (dict_of_pairs ((λ kv, (kv.2, kv.1)) <$> gd), gd)
    (filter (λ key, ¬ has_node Gup key)
            (dict_keys (dict_of_pairs ((λ kv, (kv.2, kv.1)) <$> gd))))
    = Ok (filter (λ ng, ng.1 ∈ nodes Gup) ((λ kv, (kv.2, kv.1)) <$> gd),
          filter (λ gn, gn.2 ∈ nodes Gup) gd).
Proof.
  intros Hk Hv.
  assert (((λ kv : string * node, (kv.2, kv.1)) <$> gd).*1 = dict_values gd) as Hfst.
  { unfold dict_values. rewrite <-list_fmap_compose. done. }
  rewrite dict_of_pairs_NoDup by (by rewrite Hfst).
  unfold dict_keys at 1. rewrite Hfst.
  pose proof (prune_exact gd Hk Hv (filter (λ key, ¬ has_node Gup key) (dict_values gd)) [])
    as Hex.
  rewrite (filter_all (λ ng : node * string, ng.1 ∉ [])) in Hex
    by (intros x _; apply not_elem_of_nil).
  rewrite (filter_all (λ gn : string * node, gn.2 ∉ [])) in Hex
    by (intros x _; apply not_elem_of_nil).
  rewrite Hex.
  - simpl. f_equal. f_equal.
    + apply filter_ext_elem. intros [n g] Hin. simpl.
      rewrite list_elem_of_filter. unfold has_node. rewrite bool_decide_spec.
      assert (n ∈ dict_values gd) as Hn.
      { rewrite <-Hfst. apply list_elem_of_fmap. by exists (n, g). }
      split; [|tauto]. intros Hnot. destruct (decide (n ∈ nodes Gup)) as [|Hnn]; [done|].
      by destruct Hnot.
    + apply filter_ext_elem. intros [g n] Hin. simpl.
      rewrite list_elem_of_filter. unfold has_node. rewrite bool_decide_spec.
      assert (n ∈ dict_values gd) as Hn.
      { apply list_elem_of_fmap. by exists (g, n). }
      split; [|tauto]. intros Hnot. destruct (decide (n ∈ nodes Gup)) as [|Hnn]; [done|].
      by destruct Hnot.
  - simpl. by apply NoDup_filter.
  - by intros k [_ ?]%list_elem_of_filter.
Qed.

Lemma dict_get_is_Some {K V : Type} `{EqDecision K} (d : list (K * V)) (k : K) :
  k ∈ d.*1 → ∃ v, dict_get d k = Some v ∧ (k, v) ∈ d.
Proof.
  induction d as [|[k' v'] d IH]; intros Hin; [by inversion Hin|].
  rewrite fmap_cons in Hin. simpl in *. destruct (decide (k' = k)) as [->|Hne].
  - exists v'. split; [done|by left].
  - apply elem_of_cons in Hin as [?|Hin]; [congruence|].
    destruct (IH Hin) as (v & Hv & Hd). exists v. split; [done|by right].
Qed.

Lemma attrs_set_init X g c : attrs_set (set_calibrate_all (set_gauge_all X g) c).
Proof.
  intros n a. unfold set_calibrate_all, set_gauge_all. simpl.
  rewrite <-list_fmap_compose.
  intros ([n' a'] & [= -> ->] & _)%list_elem_of_fmap. simpl. by split.
Qed.

Lemma attrs_set_set_node_attrs G n g c :
  attrs_set G → attrs_set (set_node_attrs G n g c).
Proof.
  intros HG m a. unfold set_node_attrs. simpl.
  intros ([n' a'] & Heq & Hin)%list_elem_of_fmap. simpl in Heq.
  destruct (decide (n' = n)); injection Heq as -> ->; [by split|].
  by apply (HG n' a').
Qed.

Lemma node_attrs_total G p :
  attrs_set G → p ∈ nodes G →
  (∃ c, node_calibrate G p = Ok c) ∧ (∃ g, node_gauge G p = Ok g).
Proof.
  intros HG Hp. destruct (dict_get_is_Some (g_node G) p Hp) as (a & Ha & Hin).
  destruct (HG p a Hin) as [[g Hg] [c Hc]].
  unfold node_calibrate, node_gauge. rewrite Ha, Hg, Hc. split; by eexists.
Qed.

Lemma annotate_step_total gd rd outlet G n :
  wf G → attrs_set G → n ∈ nodes G →
  (n ∈ dict_values gd → is_Some (dict_get rd n)) →
  ∃ G1, annotate_step gd rd outlet G n = Ok G1 ∧ attrs_set G1 ∧
        nodes G1 = nodes G ∧ g_edges G1 = g_edges G.
Proof.
  intros Hwf HG Hn Hrd.
  assert (∃ gc, annotate_step gd rd outlet G n = Ok (set_node_attrs G n gc.1 gc.2))
    as [gc Hstep].
  { unfold annotate_step.
    destruct (bool_decide_reflect (n ∈ dict_values gd)) as [Hin|Hin].
    - destruct (Hrd Hin) as [g Hg]. rewrite Hg. cbn. by eexists (_, _).
    - unfold predecessors_checked. rewrite (proj2 (has_node_true G n) Hn). cbn.
      destruct (predecessors G n) as [|p ps] eqn:Hp; [by eexists (_, _)|].
      assert (p ∈ nodes G) as HpG.
      { assert (edge G p n) as He by (apply elem_of_predecessors; rewrite Hp; by left).
        by apply (wf_ends G Hwf p n). }
      destruct (node_attrs_total G p HG HpG) as [[c Hc] [g Hg]].
      rewrite Hc. cbn. rewrite Hg. cbn. by eexists (_, _). }
  eexists. split; [exact Hstep|]. split; [by apply attrs_set_set_node_attrs|].
  by rewrite nodes_set_node_attrs.
Qed.

Lemma annotate_loop_total gd rd outlet L : ∀ G,
  wf G → attrs_set G → (∀ n, n ∈ L → n ∈ nodes G) →
  (∀ n, n ∈ dict_values gd → is_Some (dict_get rd n)) →
  ∃ R, foldM (annotate_step gd rd outlet) G L = Ok R.
Proof.
  induction L as [|n L IH]; intros G Hwf HG HL Hrd; [by eexists|].
  destruct (annotate_step_total gd rd outlet G n Hwf HG (HL n ltac:(by left)) (Hrd n))
    as (G1 & Hstep & HG1 & Hn1 & He1).
  destruct (IH G1) as [R HR].
  - by eapply wf_same_structure.
  - done.
  - intros m Hm. rewrite Hn1. apply HL. by right.
  - done.
  - exists R. cbn [foldM]. rewrite Hstep. cbn. exact HR.
Qed.

Lemma path_mono (X G : DiGraph) a b :
  (∀ a b, edge X a b → edge G a b) → path X a b → path G a b.
Proof.
  intros Hsub. induction 1 as [a b He|a b c He _ IH].
  - by apply tc_once, Hsub.
  - eapply tc_l; [by apply Hsub|exact IH].
Qed.

(** Attaching the sink to a subgraph of an acyclic network that does not
    hold it keeps the graph acyclic. *)
Lemma acyclic_with_sink (X G : DiGraph) (outlet : node) :
  wf X → (∀ a b, edge X a b → edge G a b) → acyclic G →
  NStr "0" ∉ nodes X → outlet ≠ NStr "0" →
  acyclic (add_edges_from X [(outlet, NStr "0")]).
Proof.
  intros HwfX Hsub Hac Hsink Hne.
  set (R := add_edges_from X [(outlet, NStr "0")]).
  assert (∀ a b, edge R a b → edge X a b ∨ (a = outlet ∧ b = NStr "0")) as HeR.
  { intros a b. unfold edge at 1, R. rewrite elem_of_g_edges_add_edges_from.
    intros [?|[= -> ->]%list_elem_of_singleton]; [by left|by right]. }
  assert (∀ a b, path R a b → a ≠ NStr "0") as Hfrom.
  { intros a b Hp ->.
    assert (∃ c, edge R (NStr "0") c) as [c [He|[? _]]%HeR].
    { inversion Hp; by eexists. }
    - by apply Hsink, (wf_ends X HwfX _ _ He).
    - by apply Hne. }
  assert (∀ a b, path R a b → path X a b ∨ b = NStr "0") as Hpath.
  { intros a b. induction 1 as [a b He|a b c He Hp IH].
    - apply HeR in He as [He|[_ ->]]; [left; by apply tc_once|by right].
    - apply HeR in He as [He|[_ ->]].
      + destruct IH as [IH| ->]; [left; by eapply tc_l|by right].
      + by apply Hfrom in Hp. }
  intros x Hx. destruct (Hpath x x Hx) as [HX| ->].
  - apply (Hac x). by apply (path_mono X G).
  - by apply (Hfrom _ _ Hx).
Qed.

Lemma subgraph_run_total G gd gauge_id is_calibration outlet :
  wf G → acyclic G → NoDup (dict_keys gd) → NoDup (dict_values gd) →
  dict_get gd gauge_id = Some outlet → outlet ∈ nodes G →
  outlet ≠ NStr "0" → ¬ ancestor G (NStr "0") outlet →
  ∃ res, subgraph_run G gd gauge_id is_calibration = Ok res.
Proof.
  intros Hwf Hac Hk Hv Hget Hout Hne Hsink. unfold subgraph_run.
  rewrite Hget. cbn [mbind result_bind].
  destruct (bfs_tree_nodes_total G outlet Hout) as [up Hup]. rewrite Hup.
  cbn [mbind result_bind]. cbv zeta.
  set (Gup := subgraph_copy G up).
  rewrite (prune_run gd Gup Hk Hv). cbn [mbind result_bind fst snd].
  set (rd' := filter (λ ng, ng.1 ∈ nodes Gup) ((λ kv, (kv.2, kv.1)) <$> gd)).
  set (gd' := filter (λ gn, gn.2 ∈ nodes Gup) gd).
  set (X := if is_calibration then foldl (calibrate_step outlet) Gup (dict_keys rd')
            else Gup).
  set (R0 := set_calibrate_all _ _).
  assert (wf Gup) as HwfU by (by apply wf_subgraph_copy).
  assert (wf X) as HwfX.
  { unfold X. destruct is_calibration; [by apply wf_calibrate_loop|done]. }
  assert (∀ x, x ∈ nodes X → x ∈ nodes Gup) as HXn.
  { unfold X. destruct is_calibration; [|done].
    apply (calibrate_loop_spec outlet (dict_keys rd') Gup HwfU). }
  assert (∀ a b, edge X a b → edge G a b) as HXe.
  { intros a b He.
    assert (edge Gup a b) as HeU.
    { revert He. unfold X. destruct is_calibration; [|done]. intros He.
      by apply (calibrate_loop_spec outlet (dict_keys rd') Gup HwfU) in He as [? _]. }
    by apply (upstream_edges G outlet up Hwf Hup) in HeU as [? _]. }
  assert (NStr "0" ∉ nodes X) as HsinkX.
  { intros Hin%HXn. apply (upstream_nodes G outlet up Hwf Hup) in Hin as [?|?]; [|done].
    by apply Hne. }
  assert (wf R0) as HwfR0.
  { eapply (wf_same_structure (add_edges_from X [(outlet, NStr "0")])).
    - unfold R0. by rewrite nodes_set_calibrate_all, nodes_set_gauge_all.
    - done.
    - by apply wf_add_edges_from. }
  assert (acyclic R0) as HacR0.
  { intros x Hx. apply (acyclic_with_sink X G outlet HwfX HXe Hac HsinkX Hne x).
    by apply (path_same_edges R0). }
  destruct (topological_sort_acyclic R0 HwfR0 HacR0) as (L & HL & _).
  rewrite HL. cbn [mbind result_bind].
  destruct (topological_sort_Ok_spec R0 L HwfR0 HL) as (_ & Hall & _).
  destruct (annotate_loop_total gd' rd' outlet L R0 HwfR0) as [R HR].
  - apply attrs_set_init.
  - intros n. apply Hall.
  - intros n ([g n'] & -> & [HnU Hin]%list_elem_of_filter)%list_elem_of_fmap.
    simpl in *.
    assert (n' ∈ rd'.*1) as Hkey.
    { apply list_elem_of_fmap. exists (n', g). split; [done|].
      apply list_elem_of_filter. split; [done|].
      apply list_elem_of_fmap. by exists (g, n'). }
    destruct (dict_get_is_Some rd' n' Hkey) as (v & -> & _). by eexists.
  - rewrite HR. cbn. by eexists.
Qed.

(** X10.  [get_subgraph] returns a graph for every gauge of the map whose
    node is in the network, when the network is acyclic, the sink ['0'] is
    neither that node nor upstream of it, and the map sends distinct
    gauges to distinct nodes. *)
Theorem get_subgraph_returns (w : world) (net gauge : loc) (G : DiGraph)
    (gd : list (string * node)) (gauge_id : string) (is_calibration : bool)
    (outlet : node) :
  objs w !! net = Some (OGraph G) → objs w !! gauge = Some (ODict gd) →
  wf G → acyclic G → NoDup (dict_keys gd) → NoDup (dict_values gd) →
  dict_get gd gauge_id = Some outlet → outlet ∈ nodes G →
  outlet ≠ NStr "0" → ¬ ancestor G (NStr "0") outlet →
  ∃ w', get_subgraph net gauge gauge_id is_calibration w = Ok (length (objs w), w').
Proof.
  intros Hnet Hg Hwf Hac Hk Hv Hget Hout Hne Hsink.
  rewrite (get_subgraph_eq w net gauge G gd gauge_id is_calibration Hnet Hg).
  destruct (subgraph_run_total G gd gauge_id is_calibration outlet) as [res ->]; try done.
  by eexists.
Qed.

Lemma example_net_acyclic : acyclic example_net.
Proof.
  apply (check_network_true_spec example_world 0%nat example_net).
  - reflexivity.
  - apply wf_add_edges_from, wf_empty_graph.
  - vm_compute. reflexivity.
Qed.

Lemma get_subgraph_returns_witness :
  ∃ w', get_subgraph 0%nat 1%nat "g2" true example_world
          = Ok (length (objs example_world), w').
Proof.
  apply (get_subgraph_returns example_world 0%nat 1%nat example_net example_gauge
           "g2" true (NInt 2)).
  - reflexivity.
  - reflexivity.
  - apply wf_add_edges_from, wf_empty_graph.
  - apply example_net_acyclic.
  - apply (bool_decide_unpack _). vm_compute. exact I.
  - apply (bool_decide_unpack _). vm_compute. exact I.
  - reflexivity.
  - apply (bool_decide_unpack _). vm_compute. exact I.
  - done.
  - intros [Hin _]%path_nodes; [|apply wf_add_edges_from, wf_empty_graph].
    revert Hin. apply (bool_decide_unpack _). vm_compute. exact I.
Defined.

(** ** When [get_subgraph] raises *)

(** X11.  [get_subgraph] raises [KeyError] for a gauge that is not in
    the map and [NetworkXError] for a gauge whose node is not in the
    network.  On a map that sends distinct gauges to distinct nodes it
    raises [NetworkXUnfeasible] when the gauged node is the sink ['0']
    itself and, without calibration, when the sink is upstream of the
    gauged node: the edge to the sink closes a cycle. *)
Theorem get_subgraph_raises (w : world) (net gauge : loc) (G : DiGraph)
    (gd : list (string * node)) (gauge_id : string) (is_calibration : bool) :
  objs w !! net = Some (OGraph G) → objs w !! gauge = Some (ODict gd) →
  (dict_get gd gauge_id = None →
   get_subgraph net gauge gauge_id is_calibration w = Raise KeyError) ∧
  (∀ outlet, dict_get gd gauge_id = Some outlet → outlet ∉ nodes G →
   get_subgraph net gauge gauge_id is_calibration w = Raise NetworkXError) ∧
  (wf G → NoDup (dict_keys gd) → NoDup (dict_values gd) →
   dict_get gd gauge_id = Some (NStr "0") → NStr "0" ∈ nodes G →
   get_subgraph net gauge gauge_id is_calibration w = Raise NetworkXUnfeasible) ∧
  (∀ outlet, wf G → NoDup (dict_keys gd) → NoDup (dict_values gd) →
   dict_get gd gauge_id = Some outlet → ancestor G (NStr "0") outlet →
   get_subgraph net gauge gauge_id false w = Raise NetworkXUnfeasible).
Proof.
  intros Hnet Hg.
  assert (∀ (cal : bool) (outlet : node), wf G → NoDup (dict_keys gd) → NoDup (dict_values gd) →
            dict_get gd gauge_id = Some outlet → outlet ∈ nodes G →
            (∀ up (rd' : list (node * string)), bfs_tree_nodes G outlet true = Ok up →
               path (add_edges_from
                       (if cal then foldl (calibrate_step outlet) (subgraph_copy G up)
                                     (dict_keys rd')
                        else subgraph_copy G up) [(outlet, NStr "0")])
                    (NStr "0") (NStr "0")) →
            get_subgraph net gauge gauge_id cal w = Raise NetworkXUnfeasible) as Hcyc.
  { intros cal outlet Hwf Hk Hv Hget Hout Hloop.
    rewrite (get_subgraph_eq w net gauge G gd gauge_id cal Hnet Hg).
    unfold subgraph_run. rewrite Hget. cbn [mbind result_bind].
    destruct (bfs_tree_nodes_total G outlet Hout) as [up Hup]. rewrite Hup.
    cbn [mbind result_bind]. cbv zeta.
    rewrite (prune_run gd (subgraph_copy G up) Hk Hv). cbn [mbind result_bind fst snd].
    set (rd' := filter _ (_ <$> gd)).
    specialize (Hloop up rd' Hup).
    set (X := if cal then _ else _) in *.
    assert (wf X) as HwfX.
    { unfold X. destruct cal; [apply wf_calibrate_loop|]; by apply wf_subgraph_copy. }
    rewrite topological_sort_cyclic; [done| |].
    - eapply (wf_same_structure (add_edges_from X [(outlet, NStr "0")])).
      + by rewrite nodes_set_calibrate_all, nodes_set_gauge_all.
      + done.
      + by apply wf_add_edges_from.
    - intros Hac. apply (Hac (NStr "0")).
      by apply (path_same_edges (add_edges_from X [(outlet, NStr "0")])). }
  split; [|split; [|split]].
  - intros Hget. rewrite (get_subgraph_eq w net gauge G gd gauge_id _ Hnet Hg).
    unfold subgraph_run. by rewrite Hget.
  - intros outlet Hget Hout.
    rewrite (get_subgraph_eq w net gauge G gd gauge_id _ Hnet Hg).
    unfold subgraph_run. rewrite Hget. cbn [mbind result_bind].
    unfold bfs_tree_nodes. by rewrite (proj2 (has_node_false G outlet) Hout).
  - intros Hwf Hk Hv Hget Hout. apply (Hcyc _ (NStr "0")); try done.
    intros up rd' _. apply tc_once. unfold edge.
    apply elem_of_g_edges_add_edges_from. right. by left.
  - intros outlet Hwf Hk Hv Hget Hanc.
    assert (outlet ∈ nodes G) as Hout by (by apply (path_nodes G _ _ Hwf Hanc)).
    apply (Hcyc false outlet); try done.
    intros up rd' Hup. eapply tc_r.
    + apply (path_mono (subgraph_copy G up)).
      * intros a b He. unfold edge. apply elem_of_g_edges_add_edges_from. by left.
      * apply (upstream_path G outlet up Hwf Hup). split; [done|by left].
    + unfold edge. apply elem_of_g_edges_add_edges_from. right. by left.
Qed.

Lemma get_subgraph_raises_witness :
  get_subgraph 0%nat 1%nat "g9" true example_world = Raise KeyError ∧
  get_subgraph 0%nat 1%nat "g9" true (World [OGraph example_net; ODict [("g9", NInt 9)]] ∅)
    = Raise NetworkXError ∧
  get_subgraph 0%nat 1%nat "g0" true (World [OGraph str_tree; ODict [("g0", NStr "0")]] ∅)
    = Raise NetworkXUnfeasible ∧
  get_subgraph 0%nat 1%nat "g1" false
    (World [OGraph (rev_graph str_tree); ODict [("g1", NStr "1")]] ∅)
    = Raise NetworkXUnfeasible.
Proof.
  split; [|split; [|split]].
  - destruct (get_subgraph_raises example_world 0%nat 1%nat example_net example_gauge
                "g9" true) as (H & _); [reflexivity|reflexivity|].
    by apply H.
  - destruct (get_subgraph_raises (World [OGraph example_net; ODict [("g9", NInt 9)]] ∅)
                0%nat 1%nat example_net [("g9", NInt 9)] "g9" true) as (_ & H & _);
      [reflexivity|reflexivity|].
    apply (H (NInt 9)); [reflexivity|].
    apply (bool_decide_unpack _). vm_compute. exact I.
  - destruct (get_subgraph_raises (World [OGraph str_tree; ODict [("g0", NStr "0")]] ∅)
                0%nat 1%nat str_tree [("g0", NStr "0")] "g0" true) as (_ & _ & H & _);
      [reflexivity|reflexivity|].
    apply H.
    + apply wf_add_edges_from, wf_empty_graph.
    + apply (bool_decide_unpack _). vm_compute. exact I.
    + apply (bool_decide_unpack _). vm_compute. exact I.
    + reflexivity.
    + apply (bool_decide_unpack _). vm_compute. exact I.
  - destruct (get_subgraph_raises
                (World [OGraph (rev_graph str_tree); ODict [("g1", NStr "1")]] ∅)
                0%nat 1%nat (rev_graph str_tree) [("g1", NStr "1")] "g1" false)
      as (_ & _ & _ & H); [reflexivity|reflexivity|].
    apply (H (NStr "1")).
    + apply wf_rev_graph, wf_add_edges_from, wf_empty_graph.
    + apply (bool_decide_unpack _). vm_compute. exact I.
    + apply (bool_decide_unpack _). vm_compute. exact I.
    + reflexivity.
    + apply (tc_l _ _ (NStr "2")); [|apply tc_once]; unfold edge.
      * apply (bool_decide_unpack _). vm_compute. exact I.
      * apply (bool_decide_unpack _). vm_compute. exact I.
Defined.

(** ** What a written topology file holds *)

Lemma NoDup_singleton_iff {A} (l : list A) (a : A) :
  NoDup l → (∀ x, x ∈ l ↔ x = a) → l = [a].
Proof.
  intros Hnd Hl. destruct l as [|x l].
  - by pose proof (proj2 (Hl a) eq_refl) as ?%elem_of_nil.
  - assert (x = a) as -> by (apply Hl; by left).
    destruct l as [|y l]; [done|].
    assert (y = a) as -> by (apply Hl; right; by left).
    apply NoDup_cons in Hnd as [Hni _]. destruct Hni. by left.
Qed.

Lemma token_sink : token "0".
Proof. split; [done|]. vm_compute. reflexivity. Qed.

(** Writing a graph over string tokens and loading the file. *)
Lemma write_load_run (w : world) (net : loc) (T : DiGraph) (path : string) :
  objs w !! net = Some (OGraph T) → wf T →
  (∀ n, n ∈ nodes T → ∃ s, n = NStr s ∧ token s) →
  (write_network net path ≫= λ _, get_raw_network path) w
    = Ok (length (objs w),
          World (objs w ++ [OGraph (add_edges_from empty_graph
                   ((λ n, (n, match successors T n with
                              | nb :: _ => nb
                              | [] => NStr "0"
                              end)) <$> filter (λ n, n ≠ NStr "0") (nodes T)))])
                (<[path := csv_writerows
                     ((λ n, (n, match successors T n with
                                | nb :: _ => nb
                                | [] => NStr "0"
                                end)) <$> filter (λ n, n ≠ NStr "0") (nodes T))]>
                   (files w))).
Proof.
  intros Hnet Hwf Htok.
  set (rows := (λ n, (n, match successors T n with
                         | nb :: _ => nb
                         | [] => NStr "0"
                         end)) <$> filter (λ n, n ≠ NStr "0") (nodes T)).
  assert (∀ r, r ∈ rows → ∃ a b, r = (NStr a, NStr b) ∧ token a ∧ token b) as Hrt.
  { intros r (n & -> & [_ Hn]%list_elem_of_filter)%list_elem_of_fmap.
    destruct (Htok n Hn) as (a & -> & Ha).
    destruct (successors T (NStr a)) as [|v l] eqn:Hs.
    - exists a, "0". split; [done|]. split; [done|apply token_sink].
    - assert (edge T (NStr a) v) as He.
      { apply elem_of_successors. rewrite Hs. by left. }
      destruct (Htok v) as (b & -> & Hb); [by apply (wf_ends T Hwf _ _ He)|].
      by exists a, b. }
  assert ((λ r : node * node, (NStr (py_str r.1), NStr (py_str r.2))) <$> rows = rows)
    as Hid.
  { rewrite <-(list_fmap_id rows) at 2. apply list_fmap_ext.
    intros i r Hr%list_elem_of_lookup_2. by destruct (Hrt r Hr) as (a & b & -> & _). }
  assert (∀ r, r ∈ rows → token (py_str r.1) ∧ token (py_str r.2)) as Hrt'.
  { intros r Hr. by destruct (Hrt r Hr) as (a & b & -> & Ha & Hb). }
  rewrite bind_unfold, (write_network_eq w net T path Hnet). fold rows.
  unfold get_raw_network. rewrite bind_unfold. unfold read_file. cbn [files].
  rewrite lookup_insert_eq. rewrite bind_unfold.
  rewrite (file_lines_writerows rows Hrt'). unfold read_edges.
  pose proof (read_edges_rows rows [] Hrt') as Hread. cbv zeta in Hread.
  rewrite Hread, app_nil_l, Hid. done.
Qed.

(** X12.  [write_network] keeps one outgoing edge per node.  For a graph
    over string tokens, loading the written file gives a graph whose edges
    are, for every node [u] of the graph other than ['0'], the edge from
    [u] to its first successor, or to ['0'] when it has none; so each of
    these nodes has exactly one successor in the loaded graph. *)
Theorem write_load_first_successor (w : world) (net : loc) (T : DiGraph) (path : string) :
  objs w !! net = Some (OGraph T) → wf T →
  (∀ n, n ∈ nodes T → ∃ s, n = NStr s ∧ token s) →
  ∃ r w' T',
    (write_network net path ≫= λ _, get_raw_network path) w = Ok (r, w') ∧
    objs w' !! r = Some (OGraph T') ∧
    (∀ u v, edge T' u v ↔
            u ∈ nodes T ∧ u ≠ NStr "0" ∧
            v = match successors T u with nb :: _ => nb | [] => NStr "0" end) ∧
    (∀ u, u ∈ nodes T → u ≠ NStr "0" → ∃ v, successors T' u = [v]).
Proof.
  intros Hnet Hwf Htok.
  eexists _, _, _. split; [by apply write_load_run|].
  split; [simpl; by rewrite lookup_app_r, Nat.sub_diag|].
  set (rows := (λ n, (n, match successors T n with
                         | nb :: _ => nb
                         | [] => NStr "0"
                         end)) <$> filter (λ n, n ≠ NStr "0") (nodes T)).
  assert (∀ u v, edge (add_edges_from empty_graph rows) u v ↔
            u ∈ nodes T ∧ u ≠ NStr "0" ∧
            v = match successors T u with nb :: _ => nb | [] => NStr "0" end) as Hedges.
  { intros u v. unfold edge. rewrite elem_of_g_edges_add_edges_from. simpl.
    rewrite elem_of_nil. unfold rows. rewrite list_elem_of_fmap. split.
    - intros [[]|(n & [= -> ->] & [Hne Hn]%list_elem_of_filter)]. done.
    - intros (Hu & Hne & ->). right. exists u. split; [done|].
      by apply list_elem_of_filter. }
  split; [exact Hedges|].
  intros u Hu Hne. eexists. apply NoDup_singleton_iff.
  - apply NoDup_successors, wf_add_edges_from, wf_empty_graph.
  - intros x. rewrite elem_of_successors, Hedges. split; [by intros (_ & _ & ->)|].
    by intros ->.
Qed.

Lemma write_load_first_successor_witness :
  ∃ r w' T',
    (write_network 0%nat "topology" ≫= λ _, get_raw_network "topology")
      (World [OGraph str_tree] ∅) = Ok (r, w') ∧
    objs w' !! r = Some (OGraph T') ∧
    (∀ u v, edge T' u v ↔
            u ∈ nodes str_tree ∧ u ≠ NStr "0" ∧
            v = match successors str_tree u with nb :: _ => nb | [] => NStr "0" end) ∧
    (∀ u, u ∈ nodes str_tree → u ≠ NStr "0" → ∃ v, successors T' u = [v]).
Proof.
  apply (write_load_first_successor (World [OGraph str_tree] ∅) 0%nat str_tree "topology").
  - reflexivity.
  - apply wf_add_edges_from, wf_empty_graph.
  - intros n Hn. vm_compute in Hn.
    repeat (apply elem_of_cons in Hn as [->|Hn];
            [eexists; split; [reflexivity|]; split; [done|vm_compute; reflexivity]|]).
    by inversion Hn.
Defined.

(** ** Networks loaded from a file *)

Lemma read_edges_NStr_from lines : ∀ acc es,
  (∀ e, e ∈ acc → ∃ a b, e = (NStr a, NStr b)) →
  foldM (λ edges line,
           let p := split line in
           a ← getitem p 0;
           b ← getitem p 1;
           Ok (edges ++ [(NStr a, NStr b)])) acc lines = Ok es →
  ∀ e, e ∈ es → ∃ a b, e = (NStr a, NStr b).
Proof.
  induction lines as [|line lines IH]; intros acc es Hacc Hrun.
  - simpl in Hrun. by injection Hrun as <-.
  - cbn [foldM] in Hrun. cbv zeta in Hrun.
    destruct (getitem (split line) 0) as [a| |]; [|done|done]. cbn in Hrun.
    destruct (getitem (split line) 1) as [b| |]; [|done|done]. cbn in Hrun.
    refine (IH _ _ _ Hrun).
    intros e [He|[= ->]%list_elem_of_singleton]%elem_of_app; [by apply Hacc|by eexists _, _].
Qed.

(** What [get_network] returned when it returned a network. *)
Lemma get_network_Some (w : world) (path : string) (r : loc) (w1 : world) :
  get_network path w = Ok (Some r, w1) →
  ∃ G,
    r = length (objs w) ∧ w1 = World (objs w ++ [OGraph G]) (files w) ∧
    wf G ∧ acyclic G ∧ weakly_connected G ∧
    number_of_edges G = number_of_nodes G - 1 ∧
    (∀ n, n ∈ nodes G → ∃ s, n = NStr s) ∧
    (∀ n, n ∈ nodes G → ∃ m, edge G n m ∨ edge G m n).
Proof.
  unfold get_network, get_raw_network. rewrite !bind_unfold. unfold read_file.
  destruct (files w !! path) as [content|]; [|done]. rewrite bind_unfold.
  unfold lift at 1. destruct (read_edges (file_lines content)) as [es| |] eqn:Hes;
    [|done|done].
  unfold alloc at 1. set (G := add_edges_from empty_graph es).
  set (w' := World (objs w ++ [OGraph G]) (files w)).
  assert (objs w' !! length (objs w) = Some (OGraph G)) as Hr.
  { simpl. by rewrite lookup_app_r, Nat.sub_diag. }
  assert (wf G) as Hwf by apply wf_add_edges_from, wf_empty_graph.
  rewrite bind_unfold.
  destruct (check_network (length (objs w)) w') as [[[] w'']| |] eqn:Hcheck;
    [|done|done|done].
  unfold mret, M_ret. intros [= <- <-].
  assert (w'' = w') as ->.
  { rewrite (check_network_eq w' _ G Hr) in Hcheck.
    destruct (is_directed_acyclic_graph G) as [[]| |]; [|congruence|done|done].
    destruct (is_tree G); congruence. }
  apply (check_network_true_spec w' _ G Hr Hwf) in Hcheck as (Hac & _ & Hc & He).
  exists G. split; [done|]. split; [done|]. split; [done|]. split; [done|].
  split; [done|]. split; [done|].
  assert (∀ n, n ∈ nodes G → ∃ m, edge G n m ∨ edge G m n) as Hends.
  { intros n [[]%elem_of_nil|([a b] & He' & Hn)]%elem_of_nodes_add_edges_from.
    assert (edge G a b) as Hab.
    { unfold edge, G. apply elem_of_g_edges_add_edges_from. by right. }
    simpl in Hn. destruct Hn as [-> | ->]; eexists; [by left|by right]. }
  split; [|done].
  intros n [[]%elem_of_nil|([a b] & He' & Hn)]%elem_of_nodes_add_edges_from.
  destruct (read_edges_NStr_from _ [] es (λ e (H : e ∈ []), False_ind _ (not_elem_of_nil e H))
              Hes (a, b) He') as (a' & b' & [= -> ->]).
  simpl in Hn. destruct Hn as [-> | ->]; by eexists.
Qed.

(** ** The star written by [simplify_network] *)

Lemma star_loop_eq ns : ∀ w dummy D,
  objs w !! dummy = Some (OGraph D) →
  for_each ns (λ n, if bool_decide (n ≠ NStr "0")
                    then update_graph dummy (λ D, add_edge D n (NStr "0"))
                    else mret tt) w
    = Ok (tt, put dummy (OGraph (foldl star_step D ns)) w).
Proof.
  induction ns as [|n ns IH]; intros w dummy D Hd.
  - simpl. unfold mret, M_ret. by rewrite put_id.
  - assert (dummy < length (objs w))%nat as Hlt by (by eapply lookup_lt_Some).
    cbn [for_each foldl]. rewrite bind_unfold. unfold star_step at 2.
    destruct (bool_decide (n ≠ NStr "0")).
    + rewrite (update_graph_eq dummy _ w D Hd).
      rewrite (IH _ dummy _ (lookup_put_eq _ _ _ Hlt)). by rewrite put_put_eq.
    + unfold mret at 1, M_ret at 1. by apply IH.
Qed.

Lemma wf_star ns : ∀ D, wf D → wf (foldl star_step D ns).
Proof.
  induction ns as [|n ns IH]; intros D Hwf; [done|]. simpl. apply IH.
  unfold star_step. destruct (bool_decide _); [by apply wf_add_edge|done].
Qed.

Lemma star_edges ns : ∀ D e,
  e ∈ g_edges (foldl star_step D ns) ↔
    e ∈ g_edges D ∨ ∃ n, n ∈ ns ∧ n ≠ NStr "0" ∧ e = (n, NStr "0").
Proof.
  induction ns as [|n ns IH]; intros D e; simpl.
  - split; [by left|]. by intros [?|(n & ?%elem_of_nil & _)].
  - rewrite IH. unfold star_step. destruct (bool_decide_reflect (n ≠ NStr "0")) as [Hne|Heq].
    + rewrite elem_of_g_edges_add_edge. split.
      * intros [[?| ->]|(m & Hm & Hne' & ->)]; [by left| |].
        -- right. exists n. split; [by left|done].
        -- right. exists m. split; [by right|done].
      * intros [?|(m & [->|Hm]%elem_of_cons & Hne' & ->)]; [by left; left|by left; right|].
        right. by exists m.
    + split.
      * intros [?|(m & Hm & Hne' & ->)]; [by left|]. right. exists m. split; [by right|done].
      * intros [?|(m & [->|Hm]%elem_of_cons & Hne' & ->)]; [by left|done|].
        right. by exists m.
Qed.

Lemma star_nodes ns : ∀ D,
  NoDup ns → (∀ n, n ∈ ns → n ≠ NStr "0" → n ∉ nodes D) →
  filter (λ n, n ≠ NStr "0") (nodes (foldl star_step D ns))
    = filter (λ n, n ≠ NStr "0") (nodes D) ++ filter (λ n, n ≠ NStr "0") ns.
Proof.
  induction ns as [|n ns IH]; intros D Hnd Hfresh.
  - simpl. by rewrite app_nil_r.
  - apply NoDup_cons in Hnd as [Hn Hnd]. simpl. rewrite IH; [|done|].
    + unfold star_step. rewrite filter_cons.
      destruct (bool_decide_reflect (n ≠ NStr "0")) as [Hne|Heq].
      * rewrite decide_True by done.
        rewrite nodes_add_edge, !nodes_add_node.
        assert (n ∉ nodes D) as HnD by (apply Hfresh; [by left|done]).
        rewrite (decide_False (P := n ∈ nodes D)) by done.
        destruct (decide (NStr "0" ∈ nodes D ++ [n])).
        -- rewrite filter_app, filter_cons, decide_True by done.
           rewrite filter_nil, <-app_assoc. done.
        -- rewrite !filter_app, !filter_cons, decide_True by done.
           rewrite (decide_False (P := NStr "0" ≠ NStr "0")) by (intros H; by apply H).
           rewrite !filter_nil, app_nil_r, <-app_assoc. done.
      * rewrite decide_False by done. done.
    + intros m Hm Hne. unfold star_step.
      destruct (bool_decide_reflect (n ≠ NStr "0")) as [Hne'|Heq].
      * rewrite elem_of_nodes_add_edge. intros [HmD|[->|?]]; [|done|done].
        by apply (Hfresh m); [right|..].
      * apply Hfresh; [by right|done].
Qed.

Lemma star_rows (ns : list node) :
  NoDup ns →
  (λ n, (n, match successors (foldl star_step empty_graph ns) n with
            | nb :: _ => nb
            | [] => NStr "0"
            end)) <$> filter (λ n, n ≠ NStr "0") (nodes (foldl star_step empty_graph ns))
  = (λ n, (n, NStr "0")) <$> filter (λ n, n ≠ NStr "0") ns.
Proof.
  intros Hnd. rewrite (star_nodes ns empty_graph Hnd) by (intros n _ _; apply not_elem_of_nil).
  simpl. apply list_fmap_ext. intros i n [Hne Hn]%list_elem_of_lookup_2%list_elem_of_filter.
  rewrite (NoDup_singleton_iff (successors (foldl star_step empty_graph ns) n) (NStr "0"));
    [done| |].
  - apply NoDup_successors, wf_star, wf_empty_graph.
  - intros x. rewrite elem_of_successors. unfold edge. rewrite star_edges. simpl. split.
    + by intros [[]%elem_of_nil|(m & _ & _ & [= _ ->])].
    + intros ->. right. by exists n.
Qed.

(** Running [simplify_network] on a topology that [get_network] accepts. *)
Lemma simplify_network_run (w : world) (topology_path output_path : string) (G : DiGraph) :
  get_network topology_path w
    = Ok (Some (length (objs w)), World (objs w ++ [OGraph G]) (files w)) →
  wf G →
  simplify_network topology_path output_path w
    = Ok (tt, World (objs w ++ [OGraph G; OGraph (foldl star_step empty_graph (nodes G))])
                (<[output_path := csv_writerows
                     ((λ n, (n, NStr "0")) <$> filter (λ n, n ≠ NStr "0") (nodes G))]>
                   (files w))).
Proof.
  intros Hget Hwf. unfold simplify_network. rewrite bind_unfold, Hget.
  rewrite bind_unfold. unfold alloc at 1. cbn [objs files].
  set (w2 := World ((objs w ++ [OGraph G]) ++ [OGraph empty_graph]) (files w)).
  set (dummy := length (objs w ++ [OGraph G])).
  assert (objs w2 !! length (objs w) = Some (OGraph G)) as Hr.
  { simpl. rewrite lookup_app_l by (rewrite length_app; simpl; lia).
    by rewrite lookup_app_r, Nat.sub_diag. }
  assert (objs w2 !! dummy = Some (OGraph empty_graph)) as Hd.
  { simpl. subst dummy. by rewrite lookup_app_r, Nat.sub_diag. }
  assert (dummy < length (objs w2))%nat as Hlt by (by eapply lookup_lt_Some).
  rewrite bind_unfold, (read_graph_lookup _ _ _ Hr).
  rewrite bind_unfold, (star_loop_eq (nodes G) w2 dummy empty_graph Hd).
  rewrite (write_network_eq _ dummy (foldl star_step empty_graph (nodes G)))
    by (by apply lookup_put_eq).
  rewrite (star_rows (nodes G)) by apply Hwf.
  f_equal. f_equal. unfold put, w2, dummy. cbn [objs files]. f_equal.
  rewrite <-app_assoc. simpl.
  replace (length (objs w ++ [OGraph G])) with (length (objs w) + 1)%nat
    by (rewrite length_app; simpl; lia).
  rewrite insert_app_r_alt by lia.
  replace (length (objs w) + 1 - length (objs w))%nat with 1%nat by lia. done.
Qed.

Lemma get_raw_network_rows (w : world) (path : string) (rows : list (node * node)) :
  files w !! path = Some (csv_writerows rows) →
  (∀ r, r ∈ rows → ∃ a b, r = (NStr a, NStr b) ∧ token a ∧ token b) →
  get_raw_network path w
    = Ok (length (objs w),
          World (objs w ++ [OGraph (add_edges_from empty_graph rows)]) (files w)).
Proof.
  intros Hfile Hrt.
  assert ((λ r : node * node, (NStr (py_str r.1), NStr (py_str r.2))) <$> rows = rows)
    as Hid.
  { rewrite <-(list_fmap_id rows) at 2. apply list_fmap_ext.
    intros i r Hr%list_elem_of_lookup_2. by destruct (Hrt r Hr) as (a & b & -> & _). }
  assert (∀ r, r ∈ rows → token (py_str r.1) ∧ token (py_str r.2)) as Hrt'.
  { intros r Hr. by destruct (Hrt r Hr) as (a & b & -> & Ha & Hb). }
  unfold get_raw_network. rewrite bind_unfold. unfold read_file. rewrite Hfile.
  rewrite bind_unfold.
  rewrite (file_lines_writerows rows Hrt'). unfold read_edges.
  pose proof (read_edges_rows rows [] Hrt') as Hread. cbv zeta in Hread.
  rewrite Hread, app_nil_l, Hid. done.
Qed.

(** A star with at least one ray is a valid network. *)
Lemma star_valid (ks : list node) :
  NoDup ks → (∀ n, n ∈ ks → n ≠ NStr "0") → ks ≠ [] →
  let T := add_edges_from empty_graph ((λ n, (n, NStr "0")) <$> ks) in
  acyclic T ∧ weakly_connected T ∧ number_of_edges T = number_of_nodes T - 1.
Proof.
  intros Hnd Hne Hks T.
  assert (wf T) as Hwf by apply wf_add_edges_from, wf_empty_graph.
  assert (∀ u v, edge T u v ↔ u ∈ ks ∧ v = NStr "0") as Hedges.
  { intros u v. unfold edge, T. rewrite elem_of_g_edges_add_edges_from. simpl.
    rewrite elem_of_nil, list_elem_of_fmap. split.
    - by intros [[]|(n & [= -> ->] & Hn)].
    - intros [Hu ->]. right. by exists u. }
  assert (∀ x, x ∈ nodes T ↔ x = NStr "0" ∨ x ∈ ks) as Hnodes.
  { intros x. unfold T. rewrite elem_of_nodes_add_edges_from. simpl.
    rewrite elem_of_nil. split.
    - intros [[]|(e & (n & -> & Hn)%list_elem_of_fmap & [->| ->])]; simpl; tauto.
    - intros [->|Hx]; right.
      + destruct ks as [|k ks']; [done|]. exists (k, NStr "0"). split; [|by right].
        apply list_elem_of_fmap. exists k. split; [done|by left].
      + exists (x, NStr "0"). split; [|by left]. apply list_elem_of_fmap. by exists x. }
  split; [|split].
  - intros x Hx.
    assert (∀ a b, path T a b → a ∈ ks ∧ b = NStr "0") as Hpath.
    { intros a b. induction 1 as [a b He|a b c He _ [_ ->]].
      - by apply Hedges.
      - apply Hedges in He as [? _]. done. }
    destruct (Hpath x x Hx) as [Hin ->]. by apply (Hne (NStr "0")).
  - assert (∀ u, u ∈ nodes T → rtc (wedge T) u (NStr "0")) as Hto.
    { intros u [->|Hu]%Hnodes; [done|]. apply rtc_once. left. by apply Hedges. }
    intros u v Hu Hv. etrans; [by apply Hto|].
    apply rtc_wedge_sym. by apply Hto.
  - unfold number_of_edges, number_of_nodes.
    assert (length (g_edges T) = length ks) as ->.
    { rewrite <-(length_fmap (λ n, (n, NStr "0")) ks).
      apply Permutation_length, NoDup_Permutation.
      - apply Hwf.
      - apply NoDup_fmap_2; [|done]. by intros a b [= ->].
      - intros [u v]. rewrite list_elem_of_fmap. fold (edge T u v). rewrite Hedges. split.
        + intros [Hu ->]. by exists u.
        + by intros (n & [= -> ->] & Hn). }
    assert (length (nodes T) = S (length ks)) as ->; [|lia].
    change (S (length ks)) with (length (NStr "0" :: ks)).
    apply Permutation_length, NoDup_Permutation.
    + apply Hwf.
    + apply NoDup_cons. split; [|done]. intros Hin. by apply (Hne _ Hin).
    + intros x. rewrite Hnodes, elem_of_cons. done.
Qed.

(** X13.  On a topology that [get_network] accepts, [simplify_network]
    writes one line per node other than ['0'], in the order of the nodes
    of the network, each sending the node to ['0'].  When the node
    identifiers are tokens the written file is itself accepted by
    [get_network]: it loads as the star with an edge to ['0'] from every
    other node of the network. *)
Theorem simplify_network_star (w : world) (topology_path output_path : string)
    (r : loc) (w1 : world) (G : DiGraph) :
  get_network topology_path w = Ok (Some r, w1) → objs w1 !! r = Some (OGraph G) →
  ∃ w2,
    simplify_network topology_path output_path w = Ok (tt, w2) ∧
    files w2 = <[output_path := csv_writerows
                   ((λ n, (n, NStr "0")) <$> filter (λ n, n ≠ NStr "0") (nodes G))]>
                 (files w) ∧
    ((∀ n, n ∈ nodes G → ∃ s, n = NStr s ∧ token s) →
     ∃ r' w3 T,
       get_network output_path w2 = Ok (Some r', w3) ∧
       objs w3 !! r' = Some (OGraph T) ∧
       ∀ u v, edge T u v ↔ u ∈ nodes G ∧ u ≠ NStr "0" ∧ v = NStr "0").
Proof.
  intros Hget Hr.
  destruct (get_network_Some w topology_path r w1 Hget)
    as (G0 & -> & -> & Hwf & Hac & Hc & He & _ & Hends).
  simpl in Hr. rewrite lookup_app_r, Nat.sub_diag in Hr by done.
  injection Hr as ->.
  eexists. split; [by apply simplify_network_run|]. split; [done|].
  intros Htok.
  set (ks := filter (λ n, n ≠ NStr "0") (nodes G)).
  set (rows := (λ n, (n, NStr "0")) <$> ks).
  set (w2 := World _ _).
  assert (ks ≠ []) as Hks.
  { assert (∃ n, n ∈ nodes G) as [n Hn].
    { destruct (nodes G) as [|n l] eqn:E; [|exists n; by left].
      unfold number_of_edges, number_of_nodes in He. rewrite E in He. simpl in He. lia. }
    assert (∃ m, m ∈ nodes G ∧ m ≠ NStr "0") as (m & Hm & Hne).
    { destruct (decide (n = NStr "0")) as [->|Hne]; [|by exists n].
      destruct (Hends _ Hn) as [m [Hm|Hm]].
      - exists m. split; [by apply (wf_ends G Hwf _ _ Hm)|].
        intros ->. by apply (Hac (NStr "0")), tc_once.
      - exists m. split; [by apply (wf_ends G Hwf _ _ Hm)|].
        intros ->. by apply (Hac (NStr "0")), tc_once. }
    intros Hnil. assert (m ∈ ks) as Hin by (by apply list_elem_of_filter).
    rewrite Hnil in Hin. by inversion Hin. }
  assert (NoDup ks) as Hnd by (apply NoDup_filter, Hwf).
  assert (∀ n, n ∈ ks → n ≠ NStr "0") as Hne.
  { by intros n [? _]%list_elem_of_filter. }
  destruct (star_valid ks Hnd Hne Hks) as (HacT & HcT & HeT). fold rows in HacT, HcT, HeT.
  assert (get_raw_network output_path w2
            = Ok (length (objs w2),
                  World (objs w2 ++ [OGraph (add_edges_from empty_graph rows)]) (files w2)))
    as Hraw.
  { apply get_raw_network_rows.
    - unfold w2. cbn [files]. by rewrite lookup_insert_eq.
    - intros e (n & -> & [_ Hn]%list_elem_of_filter)%list_elem_of_fmap.
      destruct (Htok n Hn) as (s & -> & Hs). exists s, "0".
      split; [done|]. split; [done|apply token_sink]. }
  eexists _, _, (add_edges_from empty_graph rows). split; [|split].
  - unfold get_network. rewrite bind_unfold, Hraw, bind_unfold.
    set (w3 := World (objs w2 ++ _) _).
    assert (objs w3 !! length (objs w2)
              = Some (OGraph (add_edges_from empty_graph rows))) as Hr3.
    { simpl. by rewrite lookup_app_r, Nat.sub_diag. }
    assert (wf (add_edges_from empty_graph rows)) as HwfT
      by apply wf_add_edges_from, wf_empty_graph.
    by rewrite (proj2 (check_network_true_spec w3 _ _ Hr3 HwfT)).
  - simpl. by rewrite lookup_app_r, Nat.sub_diag.
  - intros u v. unfold edge. rewrite elem_of_g_edges_add_edges_from. simpl.
    rewrite elem_of_nil. unfold rows, ks. rewrite list_elem_of_fmap. split.
    + by intros [[]|(n & [= -> ->] & [Hn' Hn]%list_elem_of_filter)].
    + intros (Hu & Hn' & ->). right. exists u. split; [done|]. by apply list_elem_of_filter.
Qed.

Lemma simplify_network_star_witness :
  ∃ w2,
    simplify_network "topology" "star" topology_world = Ok (tt, w2) ∧
    files w2 = <["star" := csv_writerows
                   ((λ n, (n, NStr "0")) <$> filter (λ n, n ≠ NStr "0") (nodes str_tree))]>
                 (files topology_world) ∧
    ∃ r' w3 T,
      get_network "star" w2 = Ok (Some r', w3) ∧
      objs w3 !! r' = Some (OGraph T) ∧
      ∀ u v, edge T u v ↔ u ∈ nodes str_tree ∧ u ≠ NStr "0" ∧ v = NStr "0".
Proof.
  destruct (simplify_network_star topology_world "topology" "star" 0%nat
              (World [OGraph str_tree] (files topology_world)) str_tree)
    as (w2 & Hrun & Hfiles & Hload).
  - vm_compute. reflexivity.
  - reflexivity.
  - exists w2. split; [done|]. split; [done|]. apply Hload.
    intros n Hn. vm_compute in Hn.
    repeat (apply elem_of_cons in Hn as [->|Hn];
            [eexists; split; [reflexivity|]; split; [done|vm_compute; reflexivity]|]).
    by inversion Hn.
Defined.

(** ** Sorting nodes that the network does not hold *)

Lemma list_index_missing (L : list node) (x : node) :
  x ∉ L → list_index L x = Raise ValueError.
Proof.
  induction L as [|y L IH]; intros Hx; [done|].
  apply not_elem_of_cons in Hx as [Hne Hx]. simpl.
  rewrite decide_False by done. by rewrite (IH Hx).
Qed.

Lemma list_index_total (L : list node) (x : node) :
  x ∈ L → ∃ i, list_index L x = Ok i.
Proof.
  induction L as [|y L IH]; intros Hx; [by inversion Hx|].
  simpl. destruct (decide (y = x)); [by eexists|].
  apply elem_of_cons in Hx as [?|Hx]; [congruence|].
  destruct (IH Hx) as [i ->]. by eexists.
Qed.

Lemma mapM_keyed_missing (L ns : list node) :
  (∃ x, x ∈ ns ∧ x ∉ L) →
  mapM (λ x, i ← list_index L x; Ok (i, x)) ns = Raise ValueError.
Proof.
  induction ns as [|y ns IH]; intros (x & Hin & Hx); [by inversion Hin|].
  cbn [mapM]. destruct (decide (y ∈ L)) as [Hy|Hy].
  - destruct (list_index_total L y Hy) as [i ->]. cbn [mbind result_bind].
    fold (mapM (λ x, i ← list_index L x; Ok (i, x)) ns).
    rewrite IH; [done|]. exists x. split; [|done].
    apply elem_of_cons in Hin as [->|Hin]; [done|done].
  - by rewrite (list_index_missing L y Hy).
Qed.

Lemma sort_node_missing (w : world) (net : loc) (G : DiGraph) (ns : list node) :
  objs w !! net = Some (OGraph G) → wf G → acyclic G →
  (∃ x, x ∈ ns ∧ x ∉ nodes G) →
  sort_node net ns w = Raise ValueError.
Proof.
  intros Hnet Hwf Hac (x & Hin & Hx). rewrite (sort_node_eq w net G ns Hnet).
  destruct (topological_sort_acyclic G Hwf Hac) as (L & -> & Hnd & Hall & _).
  rewrite mapM_keyed_missing; [done|]. exists x. split; [done|]. by rewrite Hall.
Qed.

Lemma sort_node_acyclic (w : world) (net : loc) (G : DiGraph) (ns : list node) :
  objs w !! net = Some (OGraph G) → wf G → acyclic G → (∀ x, x ∈ ns → x ∈ nodes G) →
  ∃ res, sort_node net ns w = Ok (res, w) ∧ res ≡ₚ ns ∧
         ∀ a b i j, path G a b → res !! i = Some a → res !! j = Some b → (i < j)%nat.
Proof.
  intros Hnet Hwf Hac Hns. rewrite (sort_node_eq w net G ns Hnet).
  destruct (topological_sort_acyclic G Hwf Hac) as (L & -> & Hnd & Hall & Hfwd).
  destruct (mapM_keyed L ns Hnd) as (keyed & -> & Hsnd & Hlk).
  { intros x Hx. by apply Hall, Hns. }
  eexists. split; [done|]. split.
  { rewrite sorted_by_perm. by rewrite Hsnd. }
  intros a b i j Hab Hi Hj.
  apply list_lookup_fmap_Some in Hi as ([ka a'] & ? & Hi); simpl in *; subst a'.
  apply list_lookup_fmap_Some in Hj as ([kb b'] & ? & Hj); simpl in *; subst b'.
  assert (L !! ka = Some a) as Hka.
  { apply Hlk. rewrite <-(sorted_by_perm fst keyed). by eapply list_elem_of_lookup_2. }
  assert (L !! kb = Some b) as Hkb.
  { apply Hlk. rewrite <-(sorted_by_perm fst keyed). by eapply list_elem_of_lookup_2. }
  destruct (Hfwd a b Hab) as (ia & ib & Hlt & Hia & Hib).
  pose proof (NoDup_lookup L _ _ _ Hnd Hka Hia). subst ia.
  pose proof (NoDup_lookup L _ _ _ Hnd Hkb Hib). subst ib.
  destruct (decide (i < j)%nat) as [|Hge]; [done|]. exfalso.
  destruct (decide (i = j)) as [->|Hne].
  - rewrite Hi in Hj. injection Hj as -> _. lia.
  - pose proof (StronglySorted_lookup fst _ j i _ _ (sorted_by_sorted fst keyed) Hj Hi) as Hle.
    simpl in Hle. lia.
Qed.

(** X14.  On an acyclic network [sort_node] raises [ValueError]
    exactly when one of the nodes to sort is not in the network; it never
    skips such a node. *)
Theorem sort_node_unknown_node (w : world) (net : loc) (G : DiGraph) (ns : list node) :
  objs w !! net = Some (OGraph G) → wf G → acyclic G →
  sort_node net ns w = Raise ValueError ↔ ∃ x, x ∈ ns ∧ x ∉ nodes G.
Proof.
  intros Hnet Hwf Hac. split; [|by apply sort_node_missing].
  intros Hraise. destruct (decide (Forall (λ x, x ∈ nodes G) ns)) as [Hall|Hex].
  - rewrite Forall_forall in Hall.
    destruct (sort_node_acyclic w net G ns Hnet Hwf Hac Hall) as (res & Hres & _).
    congruence.
  - apply not_Forall_Exists in Hex; [|apply _].
    apply Exists_exists in Hex as (x & Hin & Hx). by exists x.
Qed.

Lemma sort_node_unknown_node_witness :
  sort_node 0%nat [NInt 1; NInt 9] example_world = Raise ValueError ↔
  ∃ x, x ∈ [NInt 1; NInt 9] ∧ x ∉ nodes example_net.
Proof.
  apply (sort_node_unknown_node example_world 0%nat example_net [NInt 1; NInt 9]).
  - reflexivity.
  - apply wf_add_edges_from, wf_empty_graph.
  - apply example_net_acyclic.
Defined.

(** ** Ordering the gauges *)

Lemma read_order_dict_from lines pairs :
  Forall2 (λ line (kv : string * string), ∃ rest, split line = kv.1 :: kv.2 :: rest)
          lines pairs →
  ∀ d0 s0,
    foldM (λ (st : list (node * string) * list node) line,
             let p := split line in
             v ← getitem p 0;
             k ← getitem p 1;
             k' ← getitem p 1;
             Ok (dict_set st.1 (NStr k) v, st.2 ++ [NStr k'])) (d0, s0) lines
    = Ok (foldl (λ d kv, dict_set d kv.1 kv.2) d0 ((λ kv, (NStr kv.2, kv.1)) <$> pairs),
          s0 ++ ((λ kv, NStr kv.2) <$> pairs)).
Proof.
  induction 1 as [|line [g k] lines pairs (rest & Hs) _ IH]; intros d0 s0.
  - simpl. by rewrite app_nil_r.
  - cbn [foldM]. simpl in Hs. rewrite Hs. cbn. rewrite IH. by rewrite <-app_assoc.
Qed.

Lemma read_order_dict_pairs lines pairs :
  Forall2 (λ line (kv : string * string), ∃ rest, split line = kv.1 :: kv.2 :: rest)
          lines pairs →
  read_order_dict lines
    = Ok (dict_of_pairs ((λ kv, (NStr kv.2, kv.1)) <$> pairs), (λ kv, NStr kv.2) <$> pairs).
Proof. intros H. apply (read_order_dict_from lines pairs H [] []). Qed.

Lemma read_order_dict_malformed lines :
  (∃ line, line ∈ lines ∧ (length (split line) < 2)%nat) →
  read_order_dict lines = Raise IndexError.
Proof.
  unfold read_order_dict. generalize (@nil (node * string), @nil node).
  induction lines as [|line lines IH]; intros st (bad & Hin & Hbad).
  - by inversion Hin.
  - cbn [foldM]. destruct (split line) as [|a [|b rest]] eqn:E; [done|done|].
    cbn. apply IH. exists bad. split; [|done].
    apply elem_of_cons in Hin as [->|Hin]; [|done].
    rewrite E in Hbad. simpl in Hbad. lia.
Qed.

Lemma read_order_dict_total lines :
  (∃ st, read_order_dict lines = Ok st) ∨ read_order_dict lines = Raise IndexError.
Proof.
  destruct (decide (Forall (λ line, (2 ≤ length (split line))%nat) lines)) as [Hall|Hex].
  - left. rewrite Forall_forall in Hall.
    destruct (Forall2_first_two lines Hall) as [pairs Hp].
    rewrite (read_order_dict_pairs lines pairs Hp). by eexists.
  - right. apply read_order_dict_malformed.
    apply not_Forall_Exists in Hex; [|apply _].
    apply Exists_exists in Hex as (line & Hin & Hbad). simpl in Hbad.
    exists line. split; [done|lia].
Qed.

Lemma dict_keys_foldl_dict_set {K V : Type} `{EqDecision K} (l : list (K * V)) :
  ∀ d k, k ∈ dict_keys d ∨ k ∈ l.*1 →
         k ∈ dict_keys (foldl (λ d kv, dict_set d kv.1 kv.2) d l).
Proof.
  induction l as [|[k' v'] l IH]; intros d k Hk; simpl.
  - destruct Hk as [?|?%elem_of_nil]; done.
  - apply IH. rewrite dict_keys_dict_set. rewrite fmap_cons in Hk. simpl in Hk.
    destruct (decide (k' ∈ dict_keys d)).
    + destruct Hk as [?|[->|?]%elem_of_cons]; [by left|by left|by right].
    + rewrite elem_of_app, list_elem_of_singleton.
      destruct Hk as [?|[->|?]%elem_of_cons]; [by left; left|by left; right|by right].
Qed.

Lemma mapM_total {A B} (f : A → result B) (l : list A) :
  (∀ x, x ∈ l → ∃ y, f x = Ok y) →
  ∃ ys, mapM f l = Ok ys ∧ Forall2 (λ x y, f x = Ok y) l ys.
Proof.
  induction l as [|x l IH]; intros Hall.
  - exists []. split; [done|constructor].
  - destruct (Hall x ltac:(by left)) as [y Hy].
    destruct IH as (ys & Hys & HF); [intros z Hz; apply Hall; by right|].
    exists (y :: ys). split; [|by constructor].
    cbn [mapM]. rewrite Hy. cbn [mbind result_bind]. fold (mapM f l). by rewrite Hys.
Qed.

Lemma get_order_node_eq (w : world) (topo_pat dict_path data : string)
    (st : list (node * string) * list node) :
  files w !! dict_path = Some data →
  read_order_dict (file_lines data) = Ok st →
  get_order_node topo_pat dict_path w =
    match get_network topo_pat w with
    | Ok (Some net, w1) =>
        match sort_node net st.2 w1 with
        | Ok (sub_id, w2) =>
            lift (mapM (λ i, match dict_get st.1 i with
                             | Some g => Ok g
                             | None => Raise KeyError
                             end) sub_id) w2
        | Raise e => Raise e
        | OutOfFuel => OutOfFuel
        end
    | Ok (None, w1) => Raise TypeError
    | Raise e => Raise e
    | OutOfFuel => OutOfFuel
    end.
Proof.
  intros Hfile Hst. unfold get_order_node. rewrite bind_unfold. unfold read_file.
  rewrite Hfile. rewrite bind_unfold, Hst. unfold lift at 1. rewrite bind_unfold.
  destruct (get_network topo_pat w) as [[[net|] w1]| |]; [|done|done|done].
  rewrite bind_unfold. by destruct (sort_node net st.2 w1) as [[sub_id w2]| |].
Qed.

Lemma get_order_node_run (w : world) (topo_pat dict_path data : string)
    (pairs : list (string * string)) (r : loc) (w1 : world) (G : DiGraph) :
  files w !! dict_path = Some data →
  Forall2 (λ line (kv : string * string), ∃ rest, split line = kv.1 :: kv.2 :: rest)
          (file_lines data) pairs →
  get_network topo_pat w = Ok (Some r, w1) → objs w1 !! r = Some (OGraph G) →
  (∀ kv, kv ∈ pairs → NStr kv.2 ∈ nodes G) →
  ∃ res ids,
    get_order_node topo_pat dict_path w = Ok (res, w1) ∧
    ids ≡ₚ (λ kv, NStr kv.2) <$> pairs ∧
    (∀ a b i j, path G a b → ids !! i = Some a → ids !! j = Some b → (i < j)%nat) ∧
    Forall2 (λ k g, dict_get (dict_of_pairs ((λ kv, (NStr kv.2, kv.1)) <$> pairs)) k = Some g)
            ids res.
Proof.
  intros Hfile Hpairs Hget Hr Hin.
  destruct (get_network_Some w topo_pat r w1 Hget)
    as (G0 & -> & -> & Hwf & Hac & _).
  assert (G0 = G) as ->.
  { simpl in Hr. rewrite lookup_app_r, Nat.sub_diag in Hr by done. by injection Hr. }
  set (d := dict_of_pairs ((λ kv : string * string, (NStr kv.2, kv.1)) <$> pairs)).
  set (keys := (λ kv : string * string, NStr kv.2) <$> pairs).
  rewrite (get_order_node_eq w topo_pat dict_path data (d, keys) Hfile
             (read_order_dict_pairs _ _ Hpairs)), Hget. cbn [fst snd].
  destruct (sort_node_acyclic _ _ G keys Hr Hwf Hac) as (ids & -> & Hperm & Hord).
  { intros x (kv & -> & Hkv)%list_elem_of_fmap. by apply Hin. }
  destruct (mapM_total (λ i, match dict_get d i with
                             | Some g => Ok g
                             | None => Raise KeyError
                             end) ids) as (res & Hres & HF).
  { intros k Hk. rewrite Hperm in Hk.
    assert (k ∈ d.*1) as Hkd.
    { apply (dict_keys_foldl_dict_set _ [] k). right.
      rewrite <-list_fmap_compose. exact Hk. }
    destruct (dict_get_is_Some d k Hkd) as (g & -> & _). by eexists. }
  exists res, ids. split; [|split; [done|split; [done|]]].
  - unfold lift. by rewrite Hres.
  - eapply Forall2_impl; [exact HF|]. intros k g Hkg. simpl in Hkg.
    destruct (dict_get d k); [by injection Hkg as ->|done].
Qed.

Lemma order_gauges_perm (pairs : list (string * string)) (ids : list node)
    (res : list string) :
  NoDup pairs.*2 →
  ids ≡ₚ (λ kv, NStr kv.2) <$> pairs →
  Forall2 (λ k g, dict_get (dict_of_pairs ((λ kv, (NStr kv.2, kv.1)) <$> pairs)) k = Some g)
          ids res →
  res ≡ₚ pairs.*1.
Proof.
  intros Hnd Hperm HF.
  set (l := (λ kv : string * string, (NStr kv.2, kv.1)) <$> pairs) in *.
  assert (NoDup (dict_keys l)) as Hkeys.
  { unfold dict_keys, l. rewrite <-list_fmap_compose.
    change (NoDup ((NStr ∘ snd) <$> pairs)). rewrite list_fmap_compose.
    apply NoDup_fmap_2; [|done]. by intros a b [= ->]. }
  rewrite (dict_of_pairs_NoDup l Hkeys) in HF.
  set (h := λ k : node, default EmptyString (dict_get l k)).
  assert (res = h <$> ids) as ->.
  { clear Hperm. induction HF as [|k g ids res Hkg _ IH]; [done|].
    rewrite fmap_cons. f_equal; [|done]. unfold h. by rewrite Hkg. }
  rewrite Hperm, <-list_fmap_compose.
  assert ((h ∘ (λ kv : string * string, NStr kv.2)) <$> pairs = pairs.*1) as ->; [|done].
  apply list_fmap_ext. intros i [g k] Hi%list_elem_of_lookup_2. simpl. unfold h.
  rewrite (dict_get_NoDup l (NStr k) g Hkeys); [done|].
  apply list_elem_of_fmap. by exists (g, k).
Qed.

(** X15.  On a gauge file whose lines hold a gauge and a subbasin, a
    topology that [get_network] accepts and subbasins that are all nodes
    of the network, [get_order_node] returns one gauge per line: the
    gauges recorded for the subbasins taken in topological order (a
    subbasin comes before every subbasin downstream of it), a later line
    overwriting the gauge of an earlier line with the same subbasin.
    When the subbasins are distinct the result is a permutation of the
    gauges of the file. *)
Theorem get_order_node_topological (w : world) (topo_pat dict_path data : string)
    (pairs : list (string * string)) (r : loc) (w1 : world) (G : DiGraph) :
  files w !! dict_path = Some data →
  Forall2 (λ line (kv : string * string), ∃ rest, split line = kv.1 :: kv.2 :: rest)
          (file_lines data) pairs →
  get_network topo_pat w = Ok (Some r, w1) → objs w1 !! r = Some (OGraph G) →
  (∀ kv, kv ∈ pairs → NStr kv.2 ∈ nodes G) →
  ∃ res ids,
    get_order_node topo_pat dict_path w = Ok (res, w1) ∧
    ids ≡ₚ (λ kv, NStr kv.2) <$> pairs ∧
    (∀ a b i j, path G a b → ids !! i = Some a → ids !! j = Some b → (i < j)%nat) ∧
    Forall2 (λ k g, dict_get (dict_of_pairs ((λ kv, (NStr kv.2, kv.1)) <$> pairs)) k = Some g)
            ids res ∧
    (NoDup pairs.*2 → res ≡ₚ pairs.*1).
Proof.
  intros Hfile Hpairs Hget Hr Hin.
  destruct (get_order_node_run w topo_pat dict_path data pairs r w1 G Hfile Hpairs Hget Hr Hin)
    as (res & ids & Hrun & Hperm & Hord & HF).
  exists res, ids. split; [done|]. split; [done|]. split; [done|]. split; [done|].
  intros Hnd. by apply (order_gauges_perm pairs ids res).
Qed.

Lemma get_order_node_topological_witness :
  ∃ res ids,
    get_order_node "topology" "order" topology_world
      = Ok (res, World [OGraph str_tree] (files topology_world)) ∧
    ids ≡ₚ (λ kv, NStr kv.2) <$> [("g2", "2"); ("g1", "1")] ∧
    (∀ a b i j, path str_tree a b → ids !! i = Some a → ids !! j = Some b → (i < j)%nat) ∧
    Forall2 (λ k g, dict_get (dict_of_pairs ((λ kv : string * string, (NStr kv.2, kv.1))
                                               <$> [("g2", "2"); ("g1", "1")])) k = Some g)
            ids res ∧
    res ≡ₚ [("g2", "2"); ("g1", "1")].*1.
Proof.
  destruct (get_order_node_topological topology_world "topology" "order"
              ("g2 2" +:+ String LF ("g1 1" +:+ String LF EmptyString))
              [("g2", "2"); ("g1", "1")] 0%nat
              (World [OGraph str_tree] (files topology_world)) str_tree)
    as (res & ids & Hrun & Hperm & Hord & HF & Hgauges).
  - reflexivity.
  - vm_compute. repeat constructor; by eexists.
  - vm_compute. reflexivity.
  - reflexivity.
  - intros kv Hkv. repeat (apply elem_of_cons in Hkv as [->|Hkv];
      [apply (bool_decide_unpack _); vm_compute; exact I|]).
    by inversion Hkv.
  - exists res, ids. split; [done|]. split; [done|]. split; [done|]. split; [done|].
    apply Hgauges. apply (bool_decide_unpack _). vm_compute. exact I.
Defined.

(** X16.  [get_order_node] reads the gauge file before the topology: a
    missing gauge file raises [FileNotFoundError] and a gauge line of
    fewer than two tokens raises [IndexError], whatever the topology
    file.  On a topology that [get_network] rejects it raises instead of
    returning a list, and on an accepted topology it raises [ValueError]
    when a subbasin of the gauge file is not a node of the network. *)
Theorem get_order_node_raises (w : world) (topo_pat dict_path : string) :
  (files w !! dict_path = None →
   get_order_node topo_pat dict_path w = Raise FileNotFoundError) ∧
  (∀ data, files w !! dict_path = Some data →
     (∃ line, line ∈ file_lines data ∧ (length (split line) < 2)%nat) →
     get_order_node topo_pat dict_path w = Raise IndexError) ∧
  (∀ w1, get_network topo_pat w = Ok (None, w1) →
     ∃ e, get_order_node topo_pat dict_path w = Raise e) ∧
  (∀ data pairs r w1 G,
     files w !! dict_path = Some data →
     Forall2 (λ line (kv : string * string), ∃ rest, split line = kv.1 :: kv.2 :: rest)
             (file_lines data) pairs →
     get_network topo_pat w = Ok (Some r, w1) → objs w1 !! r = Some (OGraph G) →
     (∃ kv, kv ∈ pairs ∧ NStr kv.2 ∉ nodes G) →
     get_order_node topo_pat dict_path w = Raise ValueError).
Proof.
  split; [|split; [|split]].
  - intros Hfile. unfold get_order_node. rewrite bind_unfold. unfold read_file.
    by rewrite Hfile.
  - intros data Hfile Hbad. unfold get_order_node. rewrite bind_unfold. unfold read_file.
    rewrite Hfile. rewrite bind_unfold. by rewrite (read_order_dict_malformed _ Hbad).
  - intros w1 Hget. destruct (files w !! dict_path) as [data|] eqn:Hfile.
    + destruct (read_order_dict_total (file_lines data)) as [[st Hst]|Hbad].
      * rewrite (get_order_node_eq w topo_pat dict_path data st Hfile Hst), Hget.
        by eexists.
      * exists IndexError. unfold get_order_node. rewrite bind_unfold. unfold read_file.
        rewrite Hfile. rewrite bind_unfold. by rewrite Hbad.
    + exists FileNotFoundError. unfold get_order_node. rewrite bind_unfold.
      unfold read_file. by rewrite Hfile.
  - intros data pairs r w1 G Hfile Hpairs Hget Hr (kv & Hkv & Hout).
    destruct (get_network_Some w topo_pat r w1 Hget)
      as (G0 & -> & -> & Hwf & Hac & _).
    assert (G0 = G) as ->.
    { simpl in Hr. rewrite lookup_app_r, Nat.sub_diag in Hr by done. by injection Hr. }
    rewrite (get_order_node_eq w topo_pat dict_path data _ Hfile
               (read_order_dict_pairs _ _ Hpairs)), Hget. cbn [fst snd].
    rewrite (sort_node_missing _ _ G _ Hr Hwf Hac); [done|].
    exists (NStr kv.2). split; [|done]. apply list_elem_of_fmap. by exists kv.
Qed.

Lemma get_order_node_raises_witness :
  get_order_node "topology" "missing" topology_world = Raise FileNotFoundError ∧
  get_order_node "gauges" "bad" example_world = Raise IndexError ∧
  (∃ e, get_order_node "gauges" "gauges" example_world = Raise e) ∧
  get_order_node "topology" "order"
    (World [] (<["order" := "g9 9" +:+ String LF EmptyString]> (files topology_world)))
    = Raise ValueError.
Proof.
  split; [|split; [|split]].
  - apply (get_order_node_raises topology_world "topology" "missing"). reflexivity.
  - destruct (get_order_node_raises example_world "gauges" "bad") as (_ & H & _).
    apply (H ("1 2" +:+ String LF ("3" +:+ String LF EmptyString))); [reflexivity|].
    exists ("3" +:+ String LF EmptyString). split; [|vm_compute; lia].
    vm_compute. right. left.
  - destruct (get_order_node_raises example_world "gauges" "gauges") as (_ & _ & H & _).
    eapply H. vm_compute. reflexivity.
  - destruct (get_order_node_raises
                (World [] (<["order" := "g9 9" +:+ String LF EmptyString]>
                             (files topology_world))) "topology" "order")
      as (_ & _ & _ & H).
    eapply (H _ [("g9", "9")] _ _ str_tree).
    + reflexivity.
    + vm_compute. repeat constructor; by eexists.
    + vm_compute. reflexivity.
    + reflexivity.
    + exists ("g9", "9"). split; [by left|].
      apply (bool_decide_unpack _). vm_compute. exact I.
Defined.

(** ** The labels set by [get_subgraph] *)

Lemma node_gauge_set_ne G n g c x :
  x ≠ n → node_gauge (set_node_attrs G n g c) x = node_gauge G x.
Proof.
  intros Hne. unfold node_gauge, set_node_attrs. simpl.
  induction (g_node G) as [|[y a] l IH]; [done|].
  rewrite fmap_cons. simpl. destruct (decide (y = n)) as [->|Hy]; simpl.
  - rewrite !decide_False by done. exact IH.
  - destruct (decide (y = x)); [done|]. exact IH.
Qed.

Lemma node_gauge_set_eq G n g c :
  n ∈ nodes G → node_gauge (set_node_attrs G n g c) n = Ok g.
Proof.
  unfold node_gauge, set_node_attrs, nodes. simpl.
  induction (g_node G) as [|[y a] l IH]; intros Hin; [by inversion Hin|].
  rewrite fmap_cons in *. simpl in *. destruct (decide (y = n)) as [->|Hy]; simpl.
  - by rewrite decide_True.
  - rewrite decide_False by done. apply IH.
    apply elem_of_cons in Hin as [?|?]; [congruence|done].
Qed.

Lemma predecessors_same_edges G G' n :
  g_edges G' = g_edges G → predecessors G' n = predecessors G n.
Proof. unfold predecessors. by intros ->. Qed.

Section labels.
Context (R0 : DiGraph) (gd : list (string * node)) (rd : list (node * string)).
Context (outlet : node) (L : list node).
Context (Hnd : NoDup L) (Hnodes : ∀ x, x ∈ L → x ∈ nodes R0).
Context (Hfwd : ∀ i v u, L !! i = Some v → edge R0 u v →
                         ∃ j, (j < i)%nat ∧ L !! j = Some u).

Lemma first_predecessor_before L1 x L2 p ps :
  L = L1 ++ x :: L2 → predecessors R0 x = p :: ps → p ∈ L1.
Proof.
  intros HL Hp.
  assert (edge R0 p x) as He by (apply elem_of_predecessors; rewrite Hp; by left).
  destruct (Hfwd (length L1) x p) as (j & Hj & Hlk); [|done|].
  - rewrite HL. by rewrite list_lookup_middle.
  - rewrite HL, lookup_app_l in Hlk by done. by eapply list_elem_of_lookup_2.
Qed.

Lemma label_step_inv L1 n L2 Gc G1 :
  L = L1 ++ n :: L2 →
  nodes Gc = nodes R0 → g_edges Gc = g_edges R0 →
  (∀ x, x ∈ L1 → label_ok R0 gd rd outlet Gc x) →
  annotate_step gd rd outlet Gc n = Ok G1 →
  nodes G1 = nodes R0 ∧ g_edges G1 = g_edges R0 ∧
  ∀ x, x ∈ L1 ++ [n] → label_ok R0 gd rd outlet G1 x.
Proof.
  intros HL Hn He Hinv Hstep.
  assert (n ∈ nodes Gc) as HnG.
  { rewrite Hn. apply Hnodes. rewrite HL. apply elem_of_app. right. by left. }
  assert (n ∉ L1) as HnL1.
  { rewrite HL in Hnd. apply NoDup_app in Hnd as (_ & Hdis & _).
    intros Hin. apply (Hdis n Hin). by left. }
  assert (∃ g c, G1 = set_node_attrs Gc n g c ∧
                 label_ok R0 gd rd outlet (set_node_attrs Gc n g c) n) as (g & c & -> & Hlab).
  { unfold annotate_step in Hstep. unfold label_ok.
    destruct (decide (n ∈ dict_values gd)) as [Hgv|Hgv].
    - rewrite bool_decide_eq_true_2 in Hstep by done.
      destruct (dict_get rd n) as [g|] eqn:Hg; [|done]. cbn in Hstep.
      injection Hstep as <-. eexists _, _. split; [done|].
      exists g. split; [done|]. split.
      + by apply node_gauge_set_eq.
      + by apply node_calibrate_set_eq.
    - rewrite bool_decide_eq_false_2 in Hstep by done.
      unfold predecessors_checked in Hstep.
      rewrite (proj2 (has_node_true Gc n) HnG) in Hstep. cbn in Hstep.
      rewrite (predecessors_same_edges R0 Gc n He) in Hstep.
      destruct (predecessors R0 n) as [|p ps] eqn:Hp.
      + cbn in Hstep. injection Hstep as <-. eexists _, _. split; [done|].
        split; [by apply node_gauge_set_eq|by apply node_calibrate_set_eq].
      + destruct (node_calibrate Gc p) as [c| |] eqn:Hcp; [|done|done]. cbn in Hstep.
        destruct (node_gauge Gc p) as [g| |] eqn:Hgp; [|done|done]. cbn in Hstep.
        injection Hstep as <-. eexists _, _. split; [done|].
        assert (p ≠ n) as Hpn.
        { intros ->. apply HnL1. by eapply first_predecessor_before. }
        split.
        * exists g. split; [by rewrite node_gauge_set_ne|by apply node_gauge_set_eq].
        * exists c. split; [by rewrite node_calibrate_set_ne|by apply node_calibrate_set_eq]. }
  split; [by rewrite nodes_set_node_attrs|]. split; [done|].
  intros x [Hx| ->%list_elem_of_singleton]%elem_of_app; [|done].
  assert (x ≠ n) as Hxn by (by intros ->).
  specialize (Hinv x Hx). unfold label_ok in *.
  destruct (decide (x ∈ dict_values gd)).
  - destruct Hinv as (g' & Hg' & Hgx & Hcx). exists g'.
    by rewrite node_gauge_set_ne, node_calibrate_set_ne.
  - destruct (predecessors R0 x) as [|p ps] eqn:Hp.
    + by rewrite node_gauge_set_ne, node_calibrate_set_ne.
    + assert (p ≠ n) as Hpn.
      { intros ->. apply HnL1.
        apply list_elem_of_split in Hx as (l1 & l2 & ->).
        assert (n ∈ l1); [|set_solver].
        apply (first_predecessor_before l1 x (l2 ++ n :: L2) n ps); [|done].
        by rewrite HL, <-app_assoc. }
      by rewrite !node_gauge_set_ne, !node_calibrate_set_ne.
Qed.

Lemma label_loop_inv L2 : ∀ L1 Gc R,
  L = L1 ++ L2 →
  nodes Gc = nodes R0 → g_edges Gc = g_edges R0 →
  (∀ x, x ∈ L1 → label_ok R0 gd rd outlet Gc x) →
  foldM (annotate_step gd rd outlet) Gc L2 = Ok R →
  ∀ x, x ∈ L → label_ok R0 gd rd outlet R x.
Proof.
  induction L2 as [|n L2 IH]; intros L1 Gc R HL Hn He Hinv Hrun.
  - simpl in Hrun. injection Hrun as <-. rewrite app_nil_r in HL. by subst L1.
  - cbn [foldM] in Hrun.
    destruct (annotate_step gd rd outlet Gc n) as [G1| |] eqn:Hstep; [|done|done].
    cbn in Hrun.
    destruct (label_step_inv L1 n L2 Gc G1 HL Hn He Hinv Hstep) as (Hn1 & He1 & Hinv1).
    apply (IH (L1 ++ [n]) G1 R); try done. by rewrite <-app_assoc.
Qed.
End labels.

Lemma prune_sub_rd keys : ∀ rd gdc rd' gd',
  foldM prune_step (rd, gdc) keys = Ok (rd', gd') → ∀ e, e ∈ rd' → e ∈ rd.
Proof.
  induction keys as [|key keys IH]; intros rd gdc rd' gd' Hrun e He.
  - simpl in Hrun. by injection Hrun as <- <-.
  - cbn [foldM] in Hrun. unfold prune_step at 2 in Hrun. unfold dict_pop in Hrun.
    cbn [fst snd] in Hrun.
    destruct (dict_get rd key) as [value|]; [|done]. cbn in Hrun.
    destruct (dict_get gdc value) as [n'|]; [|done]. cbn in Hrun.
    apply (IH _ _ _ _ Hrun) in He. destruct e as [n g].
    by apply dict_del_elem in He as [_ He].
Qed.

(** X17.  The labels of the graph that [get_subgraph] returns.  A node
    that is a value of the gauge map, as the call leaves it, carries a
    gauge that the caller's map gives to it, and ['calibrate'] is ['True']
    on it exactly when it is the gauged node of the call.  Every other
    node carries the gauge and the flag of one of its predecessors, or no
    gauge and ['False'] when it has no predecessor.  The statement does
    not say which predecessor: at a confluence it is the one that the
    graph lists first. *)
Theorem get_subgraph_labels (w : world) (net gauge : loc) (G : DiGraph)
    (gd : list (string * node)) (gauge_id : string) (is_calibration : bool)
    (r : loc) (w' : world) :
  objs w !! net = Some (OGraph G) → objs w !! gauge = Some (ODict gd) → wf G →
  get_subgraph net gauge gauge_id is_calibration w = Ok (r, w') →
  ∃ R outlet gd',
    objs w' !! r = Some (OGraph R) ∧ objs w' !! gauge = Some (ODict gd') ∧
    dict_get gd gauge_id = Some outlet ∧
    ∀ x, x ∈ nodes R →
      if decide (x ∈ dict_values gd') then
        ∃ g, (g, x) ∈ gd ∧ node_gauge R x = Ok (Some g) ∧
             node_calibrate R x = Ok (if bool_decide (x = outlet) then "True" else "False")
      else
        ((∀ p, ¬ edge R p x) →
         node_gauge R x = Ok None ∧ node_calibrate R x = Ok "False") ∧
        ((∃ p, edge R p x) →
         ∃ p, edge R p x ∧
              (∃ g, node_gauge R p = Ok g ∧ node_gauge R x = Ok g) ∧
              (∃ c, node_calibrate R p = Ok c ∧ node_calibrate R x = Ok c)).
Proof.
  intros Hnet Hg Hwf Hrun.
  destruct (get_subgraph_inv _ _ _ _ _ _ _ _ _ Hnet Hg Hrun)
    as (outlet & up & rd' & gd' & L & R & Hout & Hup & Hprune & HL & HR & -> & ->).
  set (Gup := subgraph_copy G up) in *.
  set (X := if is_calibration then foldl (calibrate_step outlet) Gup (dict_keys rd')
            else Gup) in *.
  set (R0 := set_calibrate_all _ _) in *.
  assert (gauge < length (objs w))%nat as Hlt by (by eapply lookup_lt_Some).
  assert (wf X) as HwfX.
  { unfold X. destruct is_calibration; [apply wf_calibrate_loop|]; by apply wf_subgraph_copy. }
  assert (wf R0) as HwfR0.
  { eapply (wf_same_structure (add_edges_from X [(outlet, NStr "0")])).
    - unfold R0. by rewrite nodes_set_calibrate_all, nodes_set_gauge_all.
    - done.
    - by apply wf_add_edges_from. }
  destruct (topological_sort_Ok_spec R0 L HwfR0 HL) as (Hnd & Hall & Hfwd).
  destruct (annotate_loop_structure _ _ _ _ _ _ HR) as [HnR HeR].
  pose proof (label_loop_inv R0 gd' rd' outlet L Hnd (λ x, proj1 (Hall x)) Hfwd
                L [] R0 R eq_refl eq_refl eq_refl
                (λ x (H : x ∈ []), False_ind _ (not_elem_of_nil x H)) HR) as Hlab.
  exists R, outlet, gd'. split.
  { apply lookup_put_eq. simpl. rewrite length_insert, length_app. simpl. lia. }
  split.
  { rewrite lookup_put_ne by lia. apply lookup_put_eq. simpl. rewrite length_app. lia. }
  split; [done|].
  intros x Hx. rewrite HnR in Hx. apply Hall in Hx. specialize (Hlab x Hx).
  unfold label_ok in Hlab.
  destruct (decide (x ∈ dict_values gd')).
  - destruct Hlab as (g & Hg' & Hgx & Hcx). exists g. split; [|done].
    apply dict_get_elem in Hg'. apply (prune_sub_rd _ _ _ _ _ Hprune) in Hg'.
    apply (proj2 (dict_of_pairs_spec _)) in Hg'.
    by apply list_elem_of_fmap in Hg' as ([g0 n0] & [= -> ->] & ?).
  - assert (∀ p, edge R p x ↔ p ∈ predecessors R0 x) as Hedge.
    { intros p. rewrite elem_of_predecessors. unfold edge. by rewrite HeR. }
    destruct (predecessors R0 x) as [|p ps] eqn:Hp.
    + split; [done|]. intros [p Hpx%Hedge]. by inversion Hpx.
    + split.
      * intros Hno. destruct (Hno p). apply Hedge. by left.
      * intros _. exists p. split; [|done]. apply Hedge. by left.
Qed.

Lemma get_subgraph_labels_witness :
  ∃ r w', get_subgraph 0%nat 1%nat "g3" true example_world = Ok (r, w') ∧
  ∃ R outlet gd',
    objs w' !! r = Some (OGraph R) ∧ objs w' !! 1%nat = Some (ODict gd') ∧
    dict_get example_gauge "g3" = Some outlet ∧
    ∀ x, x ∈ nodes R →
      if decide (x ∈ dict_values gd') then
        ∃ g, (g, x) ∈ example_gauge ∧ node_gauge R x = Ok (Some g) ∧
             node_calibrate R x = Ok (if bool_decide (x = outlet) then "True" else "False")
      else
        ((∀ p, ¬ edge R p x) →
         node_gauge R x = Ok None ∧ node_calibrate R x = Ok "False") ∧
        ((∃ p, edge R p x) →
         ∃ p, edge R p x ∧
              (∃ g, node_gauge R p = Ok g ∧ node_gauge R x = Ok g) ∧
              (∃ c, node_calibrate R p = Ok c ∧ node_calibrate R x = Ok c)).
Proof.
  eexists _, _. split; [vm_compute; reflexivity|].
  apply (get_subgraph_labels example_world 0%nat 1%nat example_net example_gauge
           "g3" true).
  - reflexivity.
  - reflexivity.
  - apply wf_add_edges_from, wf_empty_graph.
  - vm_compute. reflexivity.
Defined.
